(** * Confluence → Obsidian synchronisation engine: a shallow embedding

    The development follows the TypeScript sources
    ([sync-state.ts], [confluence-api.ts], [html-to-md.ts],
    [sync-service.ts]).  JavaScript strings are sequences of UTF-16 code
    units, objects used as dictionaries are finite maps, [Map]s keep their
    insertion order, and code that can throw lives in a small
    state-and-exception monad over an abstract outside world (vault, HTTP
    server, clock). *)

From Stdlib Require Import String Ascii ZArith NArith Lia.
From stdpp Require Import gmap list.

Local Open Scope list_scope.

(** ** JavaScript strings *)

Module JS.

(** A JavaScript string is a sequence of UTF-16 code units. *)
Abbreviation jsstring := (list N).

(** ASCII literals. *)
Fixpoint js (s : string) : jsstring :=
  match s with
  | EmptyString => []
  | String a r => N_of_ascii a :: js r
  end.
Arguments js s%_string.

(** The class [\s] of ECMAScript regular expressions, which is also the set
    of characters removed by [String.prototype.trim]:
    [\t\n\v\f\r    -     　﻿]. *)
Definition isSpace (c : N) : bool :=
  ((9 <=? c) && (c <=? 13) || (c =? 32) || (c =? 160) || (c =? 5760)
   || (8192 <=? c) && (c <=? 8202) || (c =? 8232) || (c =? 8233)
   || (c =? 8239) || (c =? 8287) || (c =? 12288) || (c =? 65279))%N.

(** [s.replace(/^\s+/, empty)] *)
Fixpoint trimStart (s : jsstring) : jsstring :=
  match s with
  | [] => []
  | c :: r => if isSpace c then trimStart r else s
  end.

(** [s.replace(/\s+$/, empty)]: the leftmost match of [\s+$] is the final run
    of white space. *)
Fixpoint trimEnd (s : jsstring) : jsstring :=
  match s with
  | [] => []
  | c :: r =>
      match trimEnd r with
      | [] => if isSpace c then [] else [c]
      | r' => c :: r'
      end
  end.

(** [s.trim()] *)
Definition trim (s : jsstring) : jsstring := trimEnd (trimStart s).

(** [s.replace(/\s+/g, space)]: one space is emitted at the end of every
    maximal run of white space. *)
Fixpoint collapseSpaces (s : jsstring) : jsstring :=
  match s with
  | [] => []
  | c :: r =>
      if isSpace c then
        match r with
        | [] => [32%N]
        | c' :: _ => if isSpace c' then collapseSpaces r
                     else 32%N :: collapseSpaces r
        end
      else c :: collapseSpaces r
  end.

(** [s.substring(0, n)] for [0 <= n] *)
Definition substring0 (n : nat) (s : jsstring) : jsstring := take n s.

(** A string is falsy exactly when it is empty. *)
(** Normal form of [collapseSpaces]: the only white space left is the
    space character, and it is never followed by white space. *)
Fixpoint collapsed (s : jsstring) : bool :=
  match s with
  | [] => true
  | c :: r =>
      (if isSpace c then
         (c =? 32)%N && match r with [] => true | c' :: _ => negb (isSpace c') end
       else true) && collapsed r
  end.

(** The characters of a string that are not white space. *)
Definition solid (s : jsstring) : jsstring :=
  List.filter (fun c => negb (isSpace c)) s.

Definition truthy (s : jsstring) : bool :=
  match s with [] => false | _ => true end.

(** [s.includes(t)] *)
Fixpoint startsWith (t s : jsstring) : bool :=
  match t, s with
  | [], _ => true
  | _ :: _, [] => false
  | a :: t', b :: s' => (a =? b)%N && startsWith t' s'
  end.

Fixpoint includes (t s : jsstring) : bool :=
  startsWith t s ||
  match s with
  | [] => false
  | _ :: r => includes t r
  end.

(** [parts.join(sep)] *)
Fixpoint join (sep : jsstring) (parts : list jsstring) : jsstring :=
  match parts with
  | [] => []
  | [p] => p
  | p :: rest => p ++ sep ++ join sep rest
  end.

(** [s.toLowerCase()] and [s.toUpperCase()], used in the sources only on
    text that a pattern has restricted to ASCII letters, digits and
    hyphens. *)
Definition toLowerCase (s : jsstring) : jsstring :=
  map (fun c => if ((65 <=? c) && (c <=? 90))%N then (c + 32)%N else c) s.
Definition toUpperCase (s : jsstring) : jsstring :=
  map (fun c => if ((97 <=? c) && (c <=? 122))%N then (c - 32)%N else c) s.

(** Template literals print numbers in decimal. *)
Fixpoint digits (d : Decimal.uint) : jsstring :=
  match d with
  | Decimal.Nil => []
  | Decimal.D0 r => 48%N :: digits r
  | Decimal.D1 r => 49%N :: digits r
  | Decimal.D2 r => 50%N :: digits r
  | Decimal.D3 r => 51%N :: digits r
  | Decimal.D4 r => 52%N :: digits r
  | Decimal.D5 r => 53%N :: digits r
  | Decimal.D6 r => 54%N :: digits r
  | Decimal.D7 r => 55%N :: digits r
  | Decimal.D8 r => 56%N :: digits r
  | Decimal.D9 r => 57%N :: digits r
  end.
Definition showNat (n : nat) : jsstring := digits (Nat.to_uint n).
Definition showZ (z : Z) : jsstring :=
  match z with
  | Z0 => [48%N]
  | Zpos p => digits (Pos.to_uint p)
  | Zneg p => 45%N :: digits (Pos.to_uint p)
  end.

(** The double quote, and the line feed. *)
Definition dq : jsstring := [34%N].
Definition lf : jsstring := [10%N].

(** GetSubstitution: the replacement text of [replace] when the
    replacement is a string, where a dollar sign introduces a reference:
    two dollars give one, dollar-ampersand the match, dollar-backquote the
    text before it, dollar-quote the text after it, dollar and one or two
    digits a capture (when there is one with that number). *)
Definition isDigit (c : N) : bool := ((48 <=? c) && (c <=? 57))%N.
Definition digitVal (c : N) : nat := N.to_nat (c - 48).

Definition captureRef (caps : list (option jsstring)) (index : nat) : option jsstring :=
  if ((1 <=? index) && (index <=? length caps))%nat
  then Some (default [] (mjoin (caps !! (index - 1)%nat)))
  else None.

Fixpoint getSubstitution (matched before after : jsstring)
    (caps : list (option jsstring)) (template : jsstring) : jsstring :=
  match template with
  | [] => []
  | c :: rest =>
      if negb (c =? 36)%N then c :: getSubstitution matched before after caps rest
      else
        match rest with
        | [] => [c]
        | d1 :: r1 =>
            if (d1 =? 36)%N then 36%N :: getSubstitution matched before after caps r1
            else if (d1 =? 38)%N then matched ++ getSubstitution matched before after caps r1
            else if (d1 =? 96)%N then before ++ getSubstitution matched before after caps r1
            else if (d1 =? 39)%N then after ++ getSubstitution matched before after caps r1
            else if isDigit d1 then
              let one :=
                match captureRef caps (digitVal d1) with
                | Some t => t ++ getSubstitution matched before after caps r1
                | None => c :: getSubstitution matched before after caps rest
                end in
              match r1 with
              | d2 :: r2 =>
                  if isDigit d2 then
                    let index := (10 * digitVal d1 + digitVal d2)%nat in
                    if (length caps <? index)%nat then one
                    else
                      match captureRef caps index with
                      | Some t => t ++ getSubstitution matched before after caps r2
                      | None => c :: getSubstitution matched before after caps rest
                      end
                  else one
              | [] => one
              end
            else c :: getSubstitution matched before after caps rest
        end
  end.

(** [s.replace(pattern, replacement)] with a string pattern: the first
    occurrence only, and the replacement is a template. *)
Fixpoint replaceStr_go (pattern replacement pre s : jsstring) : jsstring :=
  if startsWith pattern s then
    let rest := drop (length pattern) s in
    rev pre ++ getSubstitution pattern (rev pre) rest [] replacement ++ rest
  else
    match s with
    | [] => rev pre
    | x :: r => replaceStr_go pattern replacement (x :: pre) r
    end.

Definition replaceStr (pattern replacement s : jsstring) : jsstring :=
  replaceStr_go pattern replacement [] s.

(** A [Map] with string keys: the entries in insertion order. *)
Fixpoint mapSet {V} (k : jsstring) (v : V) (m : list (jsstring * V)) : list (jsstring * V) :=
  match m with
  | [] => [(k, v)]
  | (k', v') :: rest =>
      if bool_decide (k' = k) then (k, v) :: rest else (k', v') :: mapSet k v rest
  end.

Fixpoint mapGet {V} (k : jsstring) (m : list (jsstring * V)) : option V :=
  match m with
  | [] => None
  | (k', v') :: rest => if bool_decide (k' = k) then Some v' else mapGet k rest
  end.

End JS.
Import JS.

(** ** File-name sanitisation ([sync-service.ts], [sanitizeFileName]) *)

(** The class of characters no file system accepts: backslash, slash,
    colon, star, question mark, double quote, angle brackets, bar. *)
Definition isIllegal (c : N) : bool :=
  ((c =? 92) || (c =? 47) || (c =? 58) || (c =? 42) || (c =? 63)
   || (c =? 34) || (c =? 60) || (c =? 62) || (c =? 124))%N.

(** The first [replace] of the chain: every such character becomes [_]. *)
Definition subst1 (c : N) : N := if isIllegal c then 95%N else c.

Definition replaceIllegal (name : jsstring) : jsstring := map subst1 name.

Definition untitled : jsstring := js "untitled".

Definition sanitizeFileName (name : jsstring) : jsstring :=
  let safe := collapseSpaces (trimEnd (trimStart (replaceIllegal name))) in
  let safe := if 200 <? length safe then substring0 200 safe else safe in
  let safe := if truthy (trim safe) then safe else untitled in
  trim safe.

(** ** Exceptions and mutable state

    A computation runs on a store of type [S]; it returns a value, throws
    an [Error], of which only the [message] is ever looked at, or never
    comes back (a loop that has used up its fuel).  Whatever was written to
    the store before a [throw] stays written. *)

Inductive Res (A : Type) : Type :=
| Ok (a : A)
| Throw (message : jsstring)
| Diverge.
Arguments Ok {A} a.
Arguments Throw {A} message.
Arguments Diverge {A}.

Definition M (S A : Type) : Type := S -> S * Res A.

Definition ret {S A} (a : A) : M S A := fun s => (s, Ok a).

Definition throw {S A} (message : jsstring) : M S A := fun s => (s, Throw message).

Definition diverge {S A} : M S A := fun s => (s, Diverge).

Definition bind {S A B} (m : M S A) (k : A -> M S B) : M S B :=
  fun s =>
    match m s with
    | (s', Ok a) => k a s'
    | (s', Throw e) => (s', Throw e)
    | (s', Diverge) => (s', Diverge)
    end.

(** [try { m } catch (error) { h error.message }] *)
Definition try_catch {S A} (m : M S A) (h : jsstring -> M S A) : M S A :=
  fun s =>
    match m s with
    | (s', Throw e) => h e s'
    | r => r
    end.

(** [try { m } finally { f }], for a [finally] block that does not throw
    or return. *)
Definition try_finally {S A} (m : M S A) (f : S -> S) : M S A :=
  fun s =>
    match m s with
    | (s', Diverge) => (s', Diverge)
    | (s', r) => (f s', r)
    end.

(** An awaited operation of a collaborator settles: its promise is
    resolved with a value or rejected with an error. *)
Inductive Settled (A : Type) : Type :=
| Resolved (a : A)
| Rejected (message : jsstring).
Arguments Resolved {A} a.
Arguments Rejected {A} message.

Definition Op (W A : Type) : Type := W -> W * Settled A.

Definition settle {A} (r : Settled A) : Res A :=
  match r with
  | Resolved a => Ok a
  | Rejected e => Throw e
  end.

(** [await op] *)
Definition await {W A} (op : Op W A) : M W A :=
  fun w => let '(w', r) := op w in (w', settle r).

Definition get {S} : M S S := fun s => (s, Ok s).
Definition gets {S A} (f : S -> A) : M S A := fun s => (s, Ok (f s)).
Definition modify {S} (f : S -> S) : M S unit := fun s => (f s, Ok tt).

Declare Scope monad_scope.
Delimit Scope monad_scope with monad.
Notation "x <- m ;; k" := (bind m (fun x => k))
  (at level 100, m at next level, right associativity) : monad_scope.
Notation "m ;;; k" := (bind m (fun _ => k))
  (at level 100, right associativity) : monad_scope.
Local Open Scope monad_scope.

(** [for (const x of xs) { body x }] *)
Fixpoint forEach {S A} (xs : list A) (body : A -> M S unit) : M S unit :=
  match xs with
  | [] => ret tt
  | x :: rest => body x ;;; forEach rest body
  end.

(** ** Data model *)

(** [sync-state.ts] *)
Module State.

Record PageSyncState := {
  pageId : jsstring;
  localPath : jsstring;
  version : Z;
  lastUpdated : Z;
}.

(** Modelled from the spec: the field [syncedRootIds], which the interface
    in [sync-state.ts] does not declare.  The spec gives the persisted
    object the fields [syncState], [lastGlobalSyncTime] and [syncedRootIds]
    (an array of strings); [main.ts] (initializeStateManager) copies the
    saved [syncedRootIds] into the data it gives to the manager, whose
    constructor spreads it into [this.data] and whose [getData] hands it
    back to the save callback.  The other two fields are those of the
    interface. *)
Record PluginData := {
  syncState : gmap jsstring PageSyncState;
  lastGlobalSyncTime : Z;
  syncedRootIds : list jsstring;
}.

Definition DEFAULT_PLUGIN_DATA : PluginData :=
  {| syncState := ∅; lastGlobalSyncTime := 0; syncedRootIds := [] |}.

End State.

(** [confluence-api.ts] *)
Module Api.

Inductive PageStatus := current | historical | trashed | draft.

Record ConfluenceVersion := {
  number : Z;
  when : jsstring;
}.

Record ConfluenceAncestor := {
  ancestor_id : jsstring;
  ancestor_title : jsstring;
}.

(** [body] is [body.storage.value]; [attachmentSize] is
    [children?.attachment?.size]. *)
Record ConfluencePage := {
  id : jsstring;
  status : PageStatus;
  title : jsstring;
  version : ConfluenceVersion;
  ancestors : list ConfluenceAncestor;
  body : jsstring;
  attachmentSize : option Z;
}.

Record CQLSearchResult := {
  results : list ConfluencePage;
  size : Z;
  start : Z;
  limit : Z;
  _totalSize : Z;
}.

Record Attachment := {
  att_id : jsstring;
  att_title : jsstring;
  mediaType : jsstring;
  att_size : Z;
  downloadUrl : jsstring;
}.

End Api.

(** [sync-service.ts] *)
Module Service.

Record SyncResult := {
  success : bool;
  pagesCreated : nat;
  pagesUpdated : nat;
  pagesSkipped : nat;
  attachmentsDownloaded : nat;
  errors : list jsstring;
}.

Record PagePathInfo := {
  pageId : jsstring;
  title : jsstring;
  folderPath : jsstring;
  filePath : jsstring;
}.

(** The fields of [ConfluenceSyncSettings] the service reads. *)
Record ConfluenceSyncSettings := {
  confluenceBaseUrl : jsstring;
  syncFolder : jsstring;
  rootPageIds : jsstring;
}.

End Service.

(** ** The outside world

    Everything the engine reaches through the Obsidian API, the HTTP
    transport, the clock and the Turndown library.  [W] is the state of
    that world; its operations may change it and may throw. *)

Inductive TAbstractFile := TFile | TFolder.

Class Outside (W : Type) := {
  (** [app.vault] *)
  getAbstractFileByPath : jsstring -> W -> option TAbstractFile;
  createFolder : jsstring -> Op W unit;
  create : jsstring -> jsstring -> Op W unit;
  modifyFile : jsstring -> jsstring -> Op W unit;
  createBinary : jsstring -> list Byte.byte -> Op W unit;
  modifyBinary : jsstring -> list Byte.byte -> Op W unit;
  normalizePath : jsstring -> jsstring;
  (** the requests of [ConfluenceApiClient]: the content search of
      [fetchPagesByRootIds] (root ids, time filter, start, limit),
      [getPage], [getAttachments], [downloadAttachment] *)
  searchContent : list jsstring -> option Z -> Z -> Z -> Op W Api.CQLSearchResult;
  getPage : jsstring -> Op W Api.ConfluencePage;
  getAttachments : jsstring -> Op W (list Api.Attachment);
  downloadAttachment : jsstring -> jsstring -> Op W (list Byte.byte);
  (** the save callback that [main.ts] gives to the state manager; it
      receives [getData()] *)
  saveCallback : State.PluginData -> Op W unit;
  (** [Date.now()] and [new Date().toISOString()] *)
  dateNow : W -> Z;
  toISOString : W -> jsstring;
  (** [TurndownService.turndown] with the rules of [configureRules] *)
  turndown : jsstring -> Settled jsstring;
}.

(** The store of one run: the outside world, the data of the
    [SyncStateManager], and the variables that [pullFromConfluence] shares
    with its workers. *)
Record Store (W : Type) := {
  world : W;
  data : State.PluginData;
  result : Service.SyncResult;
  pendingStates : gmap jsstring State.PageSyncState;
  completed : nat;
}.
Arguments world {W} s.
Arguments data {W} s.
Arguments result {W} s.
Arguments pendingStates {W} s.
Arguments completed {W} s.

Section Store.
Context {W : Type}.

Definition set_world (f : W -> W) (s : Store W) : Store W :=
  {| world := f (world s); data := data s; result := result s;
     pendingStates := pendingStates s; completed := completed s |}.

Definition set_data (f : State.PluginData -> State.PluginData) (s : Store W) : Store W :=
  {| world := world s; data := f (data s); result := result s;
     pendingStates := pendingStates s; completed := completed s |}.

Definition set_result (f : Service.SyncResult -> Service.SyncResult) (s : Store W) : Store W :=
  {| world := world s; data := data s; result := f (result s);
     pendingStates := pendingStates s; completed := completed s |}.

Definition set_pendingStates
    (f : gmap jsstring State.PageSyncState -> gmap jsstring State.PageSyncState)
    (s : Store W) : Store W :=
  {| world := world s; data := data s; result := result s;
     pendingStates := f (pendingStates s); completed := completed s |}.

Definition set_completed (f : nat -> nat) (s : Store W) : Store W :=
  {| world := world s; data := data s; result := result s;
     pendingStates := pendingStates s; completed := f (completed s) |}.

(** A computation on the outside world, run on the store; and a call of
    one of its operations. *)
Definition io {A} (m : M W A) : M (Store W) A :=
  fun s => let '(w', r) := m (world s) in (set_world (fun _ => w') s, r).

Definition call {A} (op : Op W A) : M (Store W) A := io (await op).

End Store.

(** ** The sync-state store ([sync-state.ts], class SyncStateManager) *)

Module Manager.
Import State.

Section Manager.
Context {W : Type} `{Outside W}.

Definition getData : M (Store W) PluginData := gets data.

Definition getPageState (d : PluginData) (pageId : jsstring) : option PageSyncState :=
  syncState d !! pageId.

Definition save : M (Store W) unit :=
  d <- getData ;; call (saveCallback d).

Definition updatePageState (pageId : jsstring) (state : PageSyncState) : M (Store W) unit :=
  modify (set_data (fun d =>
    {| syncState := <[pageId := state]> (syncState d);
       lastGlobalSyncTime := lastGlobalSyncTime d;
       syncedRootIds := syncedRootIds d |})) ;;;
  save.

(** The spread [{...this.data.syncState, ...states}]: [states] wins. *)
Definition updatePageStates (states : gmap jsstring PageSyncState) : M (Store W) unit :=
  modify (set_data (fun d =>
    {| syncState := states ∪ syncState d;
       lastGlobalSyncTime := lastGlobalSyncTime d;
       syncedRootIds := syncedRootIds d |})) ;;;
  save.


Definition getLastGlobalSyncTime (d : PluginData) : Z := lastGlobalSyncTime d.

Definition updateLastGlobalSyncTime (timestamp : option Z) : M (Store W) unit :=
  t <- match timestamp with
       | Some t => ret t
       | None => gets (fun s => dateNow (world s))
       end ;;
  modify (set_data (fun d =>
    {| syncState := syncState d;
       lastGlobalSyncTime := t;
       syncedRootIds := syncedRootIds d |})) ;;;
  save.

Definition needsSync (d : PluginData) (pageId : jsstring) (remoteVersion : Z) : bool :=
  match getPageState d pageId with
  | None => true
  | Some state => version state <? remoteVersion
  end%Z.

Definition getAllSyncedPageIds (d : PluginData) : list jsstring :=
  elements (dom (syncState d)).


(** Modelled from the spec: [getSyncedRootIds] and [addSyncedRootIds], which
    [sync-service.ts] calls and [sync-state.ts] does not define.  The spec
    has [listSyncedRoots() -> set] and [recordRootSynced(ids)], a mutating
    operation that persists before it returns; the persisted field is an
    array of strings. *)
Definition getSyncedRootIds (d : PluginData) : list jsstring := syncedRootIds d.

Definition addSyncedRootIds (ids : list jsstring) : M (Store W) unit :=
  modify (set_data (fun d =>
    {| syncState := syncState d;
       lastGlobalSyncTime := lastGlobalSyncTime d;
       syncedRootIds :=
         syncedRootIds d
         ++ List.filter (fun i => negb (bool_decide (i ∈ syncedRootIds d))) (remove_dups ids) |})) ;;;
  save.

End Manager.
End Manager.

(** ** A small concrete world

    A vault kept as a finite map from paths to entries, a server holding a
    list of pages and their attachments, and a clock.  It is used to run
    the engine on concrete inputs. *)

Module Sim.

Record World := {
  entries : gmap jsstring TAbstractFile;
  texts : gmap jsstring jsstring;
  server : list Api.ConfluencePage;
  serverAttachments : gmap jsstring (list Api.Attachment);
  unreadable : list jsstring;
  readOnly : list jsstring;
  saved : option State.PluginData;
  clock : Z;
}.

Definition with_entry (p : jsstring) (e : TAbstractFile) (t : option jsstring) (w : World) : World :=
  {| entries := <[p := e]> (entries w);
     texts := match t with Some c => <[p := c]> (texts w) | None => texts w end;
     server := server w; serverAttachments := serverAttachments w;
     unreadable := unreadable w; readOnly := readOnly w;
     saved := saved w; clock := clock w |}.

Definition with_saved (d : State.PluginData) (w : World) : World :=
  {| entries := entries w; texts := texts w;
     server := server w; serverAttachments := serverAttachments w;
     unreadable := unreadable w; readOnly := readOnly w;
     saved := Some d; clock := clock w |}.

Definition write (p : jsstring) (e : TAbstractFile) (t : option jsstring)
    (mustBeNew : bool) : Op World unit :=
  fun w =>
    if bool_decide (p ∈ readOnly w) then (w, Rejected (js "EACCES: permission denied"))
    else if mustBeNew && bool_decide (is_Some (entries w !! p))
    then (w, Rejected (js "File already exists."))
    else (with_entry p e t w, Resolved tt).

Definition page_of (pageId : jsstring) (w : World) : option Api.ConfluencePage :=
  List.find (fun p => bool_decide (Api.id p = pageId)) (server w).

Definition outside (td : jsstring -> Settled jsstring) : Outside World := {|
  getAbstractFileByPath := fun p w => entries w !! p;
  createFolder := fun p => write p TFolder None true;
  create := fun p c => write p TFile (Some c) true;
  modifyFile := fun p c => write p TFile (Some c) false;
  createBinary := fun p _ => write p TFile None true;
  modifyBinary := fun p _ => write p TFile None false;
  normalizePath := fun p => p;
  searchContent := fun _ _ start limit w =>
    let rs := take (Z.to_nat limit) (drop (Z.to_nat start) (server w)) in
    (w, Resolved {| Api.results := rs; Api.size := Z.of_nat (length rs);
              Api.start := start; Api.limit := limit;
              Api._totalSize := Z.of_nat (length (server w)) |});
  getPage := fun pageId w =>
    match page_of pageId w with
    | Some p => (w, Resolved p)
    | None => (w, Rejected (js "HTTP 404: not found"))
    end;
  getAttachments := fun pageId w =>
    if bool_decide (pageId ∈ unreadable w) then (w, Rejected (js "HTTP 500: error"))
    else (w, Resolved (default [] (serverAttachments w !! pageId)));
  downloadAttachment := fun _ name w =>
    if bool_decide (name ∈ unreadable w) then (w, Rejected (js "HTTP 404: attachment"))
    else (w, Resolved []);
  saveCallback := fun d w => (with_saved d w, Resolved tt);
  dateNow := clock;
  toISOString := fun _ => js "2026-01-01T00:00:00.000Z";
  turndown := td;
|}.

Definition empty : World :=
  {| entries := ∅; texts := ∅; server := []; serverAttachments := ∅;
     unreadable := []; readOnly := []; saved := None; clock := 1700000000000 |}.

Definition emptyResult : Service.SyncResult :=
  {| Service.success := false; Service.pagesCreated := 0; Service.pagesUpdated := 0;
     Service.pagesSkipped := 0; Service.attachmentsDownloaded := 0; Service.errors := [] |}.

Definition store (w : World) (d : State.PluginData) : Store World :=
  {| world := w; data := d; result := emptyResult; pendingStates := ∅; completed := 0 |}.




Definition page (pageId pageTitle : jsstring) (version : Z)
    (ancestors : list Api.ConfluenceAncestor) (body : jsstring) : Api.ConfluencePage :=
  {| Api.id := pageId; Api.status := Api.current; Api.title := pageTitle;
     Api.version := {| Api.number := version; Api.when := js "2026-01-01T00:00:00.000Z" |};
     Api.ancestors := ancestors; Api.body := body; Api.attachmentSize := None |}.

Definition settings : Service.ConfluenceSyncSettings :=
  {| Service.confluenceBaseUrl := js "https://wiki.example.org";
     Service.syncFolder := js "Confluence";
     Service.rootPageIds := js "100" |}.




(** A root with a child and a grandchild.  In the vault the file of the
    root is there already, and the file of the child cannot be written. *)
Definition ancestor (pageId pageTitle : jsstring) : Api.ConfluenceAncestor :=
  {| Api.ancestor_id := pageId; Api.ancestor_title := pageTitle |}.

Definition batch : list Api.ConfluencePage :=
  [ page (js "100") (js "Root") 3 [] (js "<p>root</p>");
    page (js "101") (js "Child") 2 [ancestor (js "100") (js "Root")] (js "<p>child</p>");
    page (js "102") (js "Grand") 1
      [ancestor (js "100") (js "Root"); ancestor (js "101") (js "Child")]
      (js "<p>grandchild</p>") ].

Definition batchWorld : World :=
  {| entries := {[ js "Confluence" := TFolder; js "Confluence/Root" := TFolder;
                   js "Confluence/Root/Root.md" := TFile ]};
     texts := ∅; server := batch; serverAttachments := ∅;
     unreadable := []; readOnly := [js "Confluence/Child/Child.md"];
     saved := None; clock := 1700000000000 |}.

(** A sync state that tracks page 101 at version 3. *)
Definition tracked : State.PluginData :=
  {| State.syncState :=
       {[ js "101" := {| State.pageId := js "101";
                         State.localPath := js "Confluence/Child/Child.md";
                         State.version := 3; State.lastUpdated := 1690000000000 |} ]};
     State.lastGlobalSyncTime := 1690000000000;
     State.syncedRootIds := [js "100"] |}.

(** A converter that fails on every input. *)
Definition failing : jsstring -> Settled jsstring := fun _ => Rejected (js "no DOM").

End Sim.

(** ** Regular expressions

    The regular expressions of the sources, as syntax trees, with the
    backtracking semantics of ECMAScript: alternatives are tried from left
    to right, a greedy quantifier tries one more iteration before it tries
    what follows, a lazy one the other way round, and an iteration that
    consumes nothing is rejected. *)

Module Regex.

Inductive regex :=
| Eps
| Chr (p : N -> bool)
| Cat (a b : regex)
| Alt (a b : regex)
| Star (greedy : bool) (a : regex)
| Group (i : nat) (a : regex).

Definition Plus (greedy : bool) (a : regex) : regex := Cat a (Star greedy a).
Definition Opt (a : regex) : regex := Alt a Eps.

Fixpoint seq (rs : list regex) : regex :=
  match rs with
  | [] => Eps
  | [r] => r
  | r :: rest => Cat r (seq rest)
  end.

Fixpoint alts (rs : list regex) : regex :=
  match rs with
  | [] => Chr (fun _ => false)
  | [r] => r
  | r :: rest => Alt r (alts rest)
  end.

(** Canonicalize of the [i] flag (without [u]), on the characters the
    patterns mention: a lower-case ASCII letter is compared as its
    upper-case form; a character outside ASCII is never identified with an
    ASCII one. *)
Definition canon (c : N) : N :=
  if ((97 <=? c) && (c <=? 122))%N then (c - 32)%N else c.

Definition chr (c : N) : N -> bool := fun x => (x =? c)%N.
Definition chrI (c : N) : N -> bool := fun x => (canon x =? canon c)%N.
Definition notChr (c : N) : N -> bool := fun x => negb (x =? c)%N.
Definition anyChar : N -> bool := fun _ => true.
(** [.] without the [s] flag: anything but a line terminator. *)
Definition dot : N -> bool :=
  fun x => negb ((x =? 10) || (x =? 13) || (x =? 8232) || (x =? 8233))%N.
Definition digit : N -> bool := fun x => ((48 <=? x) && (x <=? 57))%N.
(** [[A-Z0-9]] under the [i] flag *)
Definition alnumI : N -> bool :=
  fun x => (((65 <=? canon x) && (canon x <=? 90)) || digit x)%N.
(** the class of the two quote characters *)
Definition quote : N -> bool := fun x => ((x =? 39) || (x =? 34))%N.

Definition lit (s : jsstring) : regex := seq (map (fun c => Chr (chr c)) s).
Definition litI (s : jsstring) : regex := seq (map (fun c => Chr (chrI c)) s).

(** Captures: the text of each group that took part in the match. *)
Definition captures := nat -> option jsstring.
Definition noCaptures : captures := fun _ => None.
Definition capture (i : nat) (t : jsstring) (c : captures) : captures :=
  fun j => if (j =? i)%nat then Some t else c j.

(** The iterations of a quantified [a], whose matcher is [ma]: each goes
    on only if it consumed something. *)
Definition star_loop {X}
    (ma : jsstring -> captures -> (jsstring -> captures -> option X) -> option X)
    (greedy : bool) (k : jsstring -> captures -> option X)
    : nat -> jsstring -> captures -> option X :=
  fix loop (fuel : nat) (s : jsstring) (c : captures) {struct fuel} : option X :=
    match fuel with
    | 0 => k s c
    | S fuel' =>
        let more (_ : unit) :=
          ma s c (fun s' c' =>
            if (length s' <? length s)%nat then loop fuel' s' c' else None) in
        if greedy then
          match more tt with
          | Some x => Some x
          | None => k s c
          end
        else
          match k s c with
          | Some x => Some x
          | None => more tt
          end
    end.

(** [run r s c k]: match [r] at the front of [s], then continue with [k] on
    the rest of the input; [None] when every way of matching fails. *)
Fixpoint run {X} (r : regex) (s : jsstring) (c : captures)
    (k : jsstring -> captures -> option X) {struct r} : option X :=
  match r with
  | Eps => k s c
  | Chr p =>
      match s with
      | x :: s' => if p x then k s' c else None
      | [] => None
      end
  | Cat a b => run a s c (fun s' c' => run b s' c' k)
  | Alt a b =>
      match run a s c k with
      | Some x => Some x
      | None => run b s c k
      end
  | Star greedy a =>
      star_loop (fun s' c' k' => run a s' c' k') greedy k (S (length s)) s c
  | Group i a =>
      run a s c (fun s' c' => k s' (capture i (take (length s - length s') s) c'))
  end.

(** A greedy star over a single character class, read directly. *)
Fixpoint greedyChr {X} (p : N -> bool) (k : jsstring -> captures -> option X)
    (s : jsstring) (c : captures) : option X :=
  match s with
  | x :: s' =>
      if p x then
        match greedyChr p k s' c with
        | Some r => Some r
        | None => k s c
        end
      else k s c
  | [] => k s c
  end.

(** The result of a successful match, as [exec] returns it. *)
Record match_result := {
  before : jsstring;
  matched : jsstring;
  after : jsstring;
  groups : captures;
}.

(** The match that starts here, if any. *)
Definition matchHere (r : regex) (pre s : jsstring) : option match_result :=
  run r s noCaptures (fun s' c =>
    Some {| before := pre; matched := take (length s - length s') s;
            after := s'; groups := c |}).

(** The leftmost match in [s]; [pre] is the text before [s], reversed. *)
Fixpoint search (r : regex) (pre : jsstring) (s : jsstring) : option match_result :=
  match matchHere r (rev pre) s with
  | Some m => Some m
  | None =>
      match s with
      | [] => None
      | x :: s' => search r (x :: pre) s'
      end
  end.

(** [s.match(r)] and [r.exec(s)] for a regular expression without [g];
    [r.test(s)]. *)
Definition exec (r : regex) (s : jsstring) : option match_result := search r [] s.
Definition test (r : regex) (s : jsstring) : bool :=
  match exec r s with Some _ => true | None => false end.

(** [match[i]] read as a string: a group that did not take part is
    [undefined], which is falsy like the empty string and is only read in
    the sources after a test for the match. *)
Definition group (i : nat) (m : match_result) : jsstring := default [] (groups m i).

(** [s.replace(r, callback)] for a regular expression with [g].  The
    callback runs on a state of its own (the placeholder tables). *)
Fixpoint replaceAll_go {St} (fuel : nat) (r : regex)
    (callback : match_result -> St -> St * jsstring)
    (pre s : jsstring) (st : St) : St * jsstring :=
  match fuel with
  | 0 => (st, s)
  | S fuel' =>
      match search r pre s with
      | None => (st, s)
      | Some m =>
          let skipped := take (length s - length (matched m) - length (after m)) s in
          let '(st', replacement) := callback m st in
          match matched m, after m with
          | [], [] => (st', skipped ++ replacement)
          | [], x :: rest =>
              let '(st'', out) :=
                replaceAll_go fuel' r callback (x :: rev (before m)) rest st' in
              (st'', skipped ++ replacement ++ x :: out)
          | _, _ =>
              let '(st'', out) :=
                replaceAll_go fuel' r callback
                  (rev (matched m) ++ rev (before m)) (after m) st' in
              (st'', skipped ++ replacement ++ out)
          end
      end
  end.

Definition replaceAll {St} (r : regex)
    (callback : match_result -> St -> St * jsstring) (s : jsstring) (st : St)
    : St * jsstring :=
  replaceAll_go (S (length s)) r callback [] s st.

(** ... with a callback that has no state. *)
Definition replaceAllWith (r : regex) (f : match_result -> jsstring) (s : jsstring) : jsstring :=
  (replaceAll r (fun m (_ : unit) => (tt, f m)) s tt).2.

End Regex.

(** ** Markup to Markdown ([html-to-md.ts]) *)

Module Html.
Import Regex.

(** [/<[^>]*>/g] *)
Definition tagPattern : regex :=
  seq [Chr (chr 60); Star true (Chr (notChr 62)); Chr (chr 62)].

(** What [tagPattern] removes, read off the string directly: from a [<]
    that has a [>] somewhere after it, everything up to the first such
    [>]. *)
Definition hasGt (s : jsstring) : bool := existsb (fun c => (c =? 62)%N) s.

Fixpoint afterGt (s : jsstring) : option jsstring :=
  match s with
  | [] => None
  | y :: t => if (y =? 62)%N then Some t else afterGt t
  end.

Fixpoint withoutTags (inTag : bool) (s : jsstring) : jsstring :=
  match s with
  | [] => []
  | x :: r =>
      if inTag then withoutTags (negb (x =? 62)%N) r
      else if (x =? 60)%N && hasGt r then withoutTags true r
      else x :: withoutTags false r
  end.

(** The text before the first tag and the text after it. *)
Fixpoint firstTag (s : jsstring) : option (jsstring * jsstring) :=
  match s with
  | [] => None
  | x :: r =>
      match (if (x =? 60)%N then afterGt r else None) with
      | Some b => Some ([], b)
      | None =>
          match firstTag r with
          | Some (a, b) => Some (x :: a, b)
          | None => None
          end
      end
  end.

Record Metadata := {
  title : jsstring;
  pageId : jsstring;
  version : Z;
  confluenceUrl : jsstring;
}.

Section Html.
Context {W : Type} `{Outside W}.

(** [convert]: the structural converter, and in the [catch] block the
    input without its tags. *)
Definition convert (html : jsstring) : M (Store W) jsstring :=
  try_catch
    (fun s => (s, settle (turndown html)))
    (fun _ => ret (replaceAllWith tagPattern (fun _ => []) html)).

Definition generateMarkdownWithFrontmatter (html : jsstring) (metadata : Metadata)
    : M (Store W) jsstring :=
  body <- convert html ;;
  iso <- gets (fun s => toISOString (world s)) ;;
  let frontmatter :=
    join lf
      [ js "---";
        js "title: " ++ dq ++ title metadata ++ dq;
        js "confluence_page_id: " ++ dq ++ pageId metadata ++ dq;
        js "version: " ++ showZ (version metadata);
        js "confluence_url: " ++ dq ++ confluenceUrl metadata ++ dq;
        js "synced_at: " ++ dq ++ iso ++ dq;
        js "---";
        [] ] in
  ret (frontmatter ++ body).

End Html.
End Html.

(** ** The pre-scan of the transform ([sync-service.ts],
    [processPageToMarkdown], and the same code inside [syncOnePage]) *)

Module Transform.
Import Regex.

Definition notGt : regex := Chr (notChr 62).
Definition anything : regex := Chr anyChar.
Definition space : regex := Chr isSpace.
Definition gt : regex := Chr (chr 62).

(** [/<table[^>]*>[\s\S]*?<\/table>/gi] *)
Definition tablePattern : regex :=
  seq [litI (js "<table"); Star true notGt; gt; Star false anything; litI (js "</table>")].

(** [/(?:colspan|rowspan)\s*=\s*[QUOTE]\d+[QUOTE]/i] *)
Definition spanPattern : regex :=
  seq [Alt (litI (js "colspan")) (litI (js "rowspan")); Star true space; Chr (chr 61);
       Star true space; Chr quote; Plus true (Chr digit); Chr quote].

(** [/<ac:link[^>]*>[\s\S]*?<ri:page[^>]*ri:content-title=Q([^Q]+)Q[^>]*\/?>[\s\S]*?<\/ac:link>/gi] *)
Definition pageLinkPattern : regex :=
  seq [litI (js "<ac:link"); Star true notGt; gt; Star false anything;
       litI (js "<ri:page"); Star true notGt; litI (js "ri:content-title="); Chr (chr 34);
       Group 1 (Plus true (Chr (notChr 34))); Chr (chr 34); Star true notGt;
       Opt (Chr (chr 47)); gt; Star false anything; litI (js "</ac:link>")].

(** The three patterns that capture the [ri:filename] of an
    [ri:attachment], inside [open ... close]; [slash] tells whether the
    attachment element must be self-closing. *)
Definition attachmentIn (open : regex) (slash : bool) (close : jsstring) : regex :=
  seq [open; Star true notGt; gt; Star false anything;
       litI (js "<ri:attachment"); Star true notGt; litI (js "ri:filename="); Chr (chr 34);
       Group 1 (Plus true (Chr (notChr 34))); Chr (chr 34); Star true notGt;
       (if slash then Chr (chr 47) else Eps); gt; Star false anything; litI close].

Definition attachmentLinkPattern : regex :=
  attachmentIn (litI (js "<ac:link")) true (js "</ac:link>").

Definition viewFilePattern : regex :=
  attachmentIn
    (seq [litI (js "<ac:structured-macro"); Star true notGt;
          litI (js "ac:name="); Chr (chr 34); litI (js "view-file"); Chr (chr 34)])
    true (js "</ac:structured-macro>").

Definition imagePattern : regex :=
  attachmentIn (litI (js "<ac:image")) false (js "</ac:image>").

(** The pattern of the macros that are interpreted: an opening
    [structured-macro] tag whose name starts with one of seven names (group
    1), the content up to the first closing tag (group 2). *)
Definition macroPattern : regex :=
  seq [Chr (chr 60); Opt (litI (js "ac:")); litI (js "structured-macro"); Star false notGt;
       Opt (litI (js "ac:")); litI (js "name="); Opt (Chr quote);
       Group 1 (alts [litI (js "jira"); litI (js "jiraissues"); litI (js "drawio");
                      litI (js "gliffy"); litI (js "code"); litI (js "markdown");
                      litI (js "confluence-markdown")]);
       Opt (Chr quote); Star true notGt; gt;
       Group 2 (Star false anything);
       litI (js "</"); Opt (litI (js "ac:")); litI (js "structured-macro>")].

(** The pattern of a macro parameter of a given name: after the name and
    the end of the tag, an optional CDATA opening, the value on one line
    (group 1), an optional CDATA closing, and the start of a closing tag. *)
Definition parameterPattern (name : regex) : regex :=
  seq [Opt (litI (js "ac:")); litI (js "name="); Chr quote; name; Chr quote;
       Star true notGt; gt; Opt (litI (js "<![CDATA["));
       Group 1 (Star false (Chr dot)); Opt (lit (js "]]>")); lit (js "</")].

Definition keyPattern : regex := parameterPattern (litI (js "key")).
Definition jqlPattern : regex := parameterPattern (litI (js "jql")).
Definition languagePattern : regex := parameterPattern (litI (js "language")).
Definition diagramPattern : regex :=
  parameterPattern (Alt (litI (js "diagramName")) (litI (js "name"))).

(** [/[A-Z0-9]+-\d+/i] *)
Definition issueKeyPattern : regex :=
  seq [Plus true (Chr alnumI); Chr (chr 45); Plus true (Chr digit)].

(** [/(?:issuekey|key)\s*[=in]\s*[QUOTE]?([A-Z0-9]+-\d+)[QUOTE]?/i]: the
    class [[=in]] is one character. *)
Definition jqlKeyPattern : regex :=
  seq [Alt (litI (js "issuekey")) (litI (js "key")); Star true space;
       Chr (fun x => (x =? 61)%N || chrI 105 x || chrI 110 x); Star true space;
       Opt (Chr quote); Group 1 issueKeyPattern; Opt (Chr quote)].

(** [/[^A-Z0-9-]/gi] *)
Definition notKeyChar : regex := Chr (fun x => negb (alnumI x || (x =? 45)%N)).

(** [/<(?:ac:)?plain-text-body[^>]*>([\s\S]*?)<\/(?:ac:)?plain-text-body>/i] *)
Definition bodyPattern : regex :=
  seq [Chr (chr 60); Opt (litI (js "ac:")); litI (js "plain-text-body"); Star true notGt; gt;
       Group 1 (Star false anything);
       litI (js "</"); Opt (litI (js "ac:")); litI (js "plain-text-body>")].

(** [/<!\[CDATA\[([\s\S]*?)\]\]>/gi] *)
Definition cdataPattern : regex :=
  seq [litI (js "<![CDATA["); Group 1 (Star false anything); lit (js "]]>")].

(** [text.replace(cdataPattern, DOLLAR 1)] *)
Definition unwrapCdata (text : jsstring) : jsstring :=
  replaceAllWith cdataPattern
    (fun m => getSubstitution (matched m) (before m) (after m) [groups m 1] [36; 49]%N) text.

(** [code.replace(/&/g, AMP).replace(/</g, LT).replace(/>/g, GT)]: the
    entities written for an ampersand cannot be touched by the two later
    replacements, so each character is rewritten once. *)
Definition escapeChar (c : N) : jsstring :=
  if (c =? 38)%N then js "&amp;"
  else if (c =? 60)%N then js "&lt;"
  else if (c =? 62)%N then js "&gt;"
  else [c].

Definition replaceChar (c : N) (by_ : jsstring) (s : jsstring) : jsstring :=
  flat_map (fun x => if (x =? c)%N then by_ else [x]) s.

Definition escapeHtml (code : jsstring) : jsstring :=
  replaceChar 62 (js "&gt;") (replaceChar 60 (js "&lt;") (replaceChar 38 (js "&amp;") code)).

(** The text shown when no issue key is found. *)
Definition jiraFailed : jsstring :=
  [91; 74; 105; 114; 97; 32; 38142; 25509; 35299; 26512; 22833; 36133; 93]%N.

Definition jiraBase : jsstring := js "https://jira.ykeey.cn/browse/".

(** The branch of the callback for [jira] and [jiraissues]. *)
Definition jiraMacro (innerContent : jsstring) : jsstring :=
  let issueKey : jsstring := [] in
  let issueKey :=
    match exec keyPattern innerContent with
    | Some keyMatch => trim (group 1 keyMatch)
    | None => issueKey
    end in
  let issueKey :=
    if negb (truthy issueKey) then
      match exec jqlPattern innerContent with
      | Some jqlMatch =>
          if truthy (group 1 jqlMatch) then
            match exec jqlKeyPattern (group 1 jqlMatch) with
            | Some extMatch => trim (group 1 extMatch)
            | None => issueKey
            end
          else issueKey
      | None => issueKey
      end
    else issueKey in
  let issueKey :=
    if negb (truthy issueKey) then
      match exec issueKeyPattern innerContent with
      | Some fallback => toUpperCase (matched fallback)
      | None => issueKey
      end
    else issueKey in
  if truthy issueKey then
    let issueKey := replaceAllWith notKeyChar (fun _ => []) issueKey in
    js "<a href=" ++ dq ++ jiraBase ++ issueKey ++ dq ++ js ">" ++ issueKey ++ js "</a>"
  else jiraFailed.






(** The hyperlink for a key, of which only letters, digits and hyphens
    are kept. *)
Definition jiraLink (key : jsstring) : jsstring :=
  let key := replaceAllWith notKeyChar (fun _ => []) key in
  js "<a href=" ++ dq ++ jiraBase ++ key ++ dq ++ js ">" ++ key ++ js "</a>".

(** The branch of the callback for [code]. *)
Definition codeMacro (innerContent : jsstring) : jsstring :=
  let lang :=
    match exec languagePattern innerContent with
    | Some langMatch => trim (group 1 langMatch)
    | None => []
    end in
  let code :=
    match exec bodyPattern innerContent with
    | Some bodyMatch => group 1 bodyMatch
    | None => []
    end in
  let code := unwrapCdata code in
  let code := escapeHtml code in
  lf ++ js "<pre><code class=" ++ dq ++ js "language-" ++ lang ++ dq ++ js ">"
     ++ code ++ js "</code></pre>" ++ lf.

(** The placeholder tables of one page and their counters. *)
Record Placeholders := {
  tablePlaceholders : list (jsstring * jsstring);
  tablePlaceholderIdx : nat;
  imagePlaceholders : list (jsstring * jsstring);
  imgPlaceholderIdx : nat;
  linkPlaceholders : list (jsstring * jsstring);
  linkPlaceholderIdx : nat;
  rawPlaceholders : list (jsstring * jsstring);
  rawPlaceholderIdx : nat;
}.

Definition noPlaceholders : Placeholders :=
  {| tablePlaceholders := []; tablePlaceholderIdx := 0;
     imagePlaceholders := []; imgPlaceholderIdx := 0;
     linkPlaceholders := []; linkPlaceholderIdx := 0;
     rawPlaceholders := []; rawPlaceholderIdx := 0 |}.

(** The token [%%KIND n%%]. *)
Definition token (kind : jsstring) (n : nat) : jsstring :=
  js "%%" ++ kind ++ showNat n ++ js "%%".

Definition newTable (html : jsstring) (st : Placeholders) : Placeholders * jsstring :=
  let placeholder := token (js "CFLTBL") (tablePlaceholderIdx st) in
  ({| tablePlaceholders := mapSet placeholder html (tablePlaceholders st);
      tablePlaceholderIdx := S (tablePlaceholderIdx st);
      imagePlaceholders := imagePlaceholders st; imgPlaceholderIdx := imgPlaceholderIdx st;
      linkPlaceholders := linkPlaceholders st; linkPlaceholderIdx := linkPlaceholderIdx st;
      rawPlaceholders := rawPlaceholders st; rawPlaceholderIdx := rawPlaceholderIdx st |},
   placeholder).

Definition newImage (localFileName : jsstring) (st : Placeholders) : Placeholders * jsstring :=
  let placeholder := token (js "CFLIMG") (imgPlaceholderIdx st) in
  ({| tablePlaceholders := tablePlaceholders st; tablePlaceholderIdx := tablePlaceholderIdx st;
      imagePlaceholders := mapSet placeholder localFileName (imagePlaceholders st);
      imgPlaceholderIdx := S (imgPlaceholderIdx st);
      linkPlaceholders := linkPlaceholders st; linkPlaceholderIdx := linkPlaceholderIdx st;
      rawPlaceholders := rawPlaceholders st; rawPlaceholderIdx := rawPlaceholderIdx st |},
   placeholder).

Definition newLink (link : jsstring) (st : Placeholders) : Placeholders * jsstring :=
  let placeholder := token (js "CFLLNK") (linkPlaceholderIdx st) in
  ({| tablePlaceholders := tablePlaceholders st; tablePlaceholderIdx := tablePlaceholderIdx st;
      imagePlaceholders := imagePlaceholders st; imgPlaceholderIdx := imgPlaceholderIdx st;
      linkPlaceholders := mapSet placeholder link (linkPlaceholders st);
      linkPlaceholderIdx := S (linkPlaceholderIdx st);
      rawPlaceholders := rawPlaceholders st; rawPlaceholderIdx := rawPlaceholderIdx st |},
   placeholder).

Definition newRaw (md : jsstring) (st : Placeholders) : Placeholders * jsstring :=
  let placeholder := token (js "CFLRAW") (rawPlaceholderIdx st) in
  ({| tablePlaceholders := tablePlaceholders st; tablePlaceholderIdx := tablePlaceholderIdx st;
      imagePlaceholders := imagePlaceholders st; imgPlaceholderIdx := imgPlaceholderIdx st;
      linkPlaceholders := linkPlaceholders st; linkPlaceholderIdx := linkPlaceholderIdx st;
      rawPlaceholders := mapSet placeholder md (rawPlaceholders st);
      rawPlaceholderIdx := S (rawPlaceholderIdx st) |},
   placeholder).

(** The branch of the callback for [drawio] and [gliffy]. *)
Definition diagramMacro (safePageTitle innerContent : jsstring) (st : Placeholders)
    : Placeholders * jsstring :=
  match exec diagramPattern innerContent with
  | Some diagMatch =>
      if truthy (group 1 diagMatch) then
        let diagramName := trim (group 1 diagMatch) in
        let diagramName :=
          if includes (js ".") diagramName then diagramName else diagramName ++ js ".drawio" in
        let localFileName := safePageTitle ++ js "_" ++ sanitizeFileName diagramName in
        let pngFileName :=
          safePageTitle ++ js "_" ++ sanitizeFileName (trim (group 1 diagMatch)) ++ js ".png" in
        let '(st, p1) := newImage localFileName st in
        let '(st, p2) := newImage pngFileName st in
        (st, p1 ++ lf ++ p2)
      else (st, [])
  | None => (st, [])
  end.

(** The branch of the callback for [markdown] and [confluence-markdown]. *)
Definition markdownMacro (innerContent : jsstring) (st : Placeholders)
    : Placeholders * jsstring :=
  let md :=
    match exec bodyPattern innerContent with
    | Some bodyMatch => group 1 bodyMatch
    | None => []
    end in
  newRaw (unwrapCdata md) st.

(** The callback of the macro pattern. *)
Definition macroCallback (safePageTitle : jsstring) (m : match_result) (st : Placeholders)
    : Placeholders * jsstring :=
  let macroName := toLowerCase (group 1 m) in
  let innerContent := group 2 m in
  if bool_decide (macroName = js "jira") || bool_decide (macroName = js "jiraissues")
  then (st, jiraMacro innerContent)
  else if bool_decide (macroName = js "drawio") || bool_decide (macroName = js "gliffy")
  then diagramMacro safePageTitle innerContent st
  else if bool_decide (macroName = js "code")
  then (st, codeMacro innerContent)
  else if bool_decide (macroName = js "markdown")
          || bool_decide (macroName = js "confluence-markdown")
  then markdownMacro innerContent st
  else (st, matched m).

Definition attachmentCallback (safePageTitle : jsstring) (m : match_result) (st : Placeholders)
    : Placeholders * jsstring :=
  newImage (safePageTitle ++ js "_" ++ sanitizeFileName (group 1 m)) st.

(** The pre-scan: the six substitutions, in the order of the source. *)
Definition preScan (safePageTitle htmlContent : jsstring) : Placeholders * jsstring :=
  let st := noPlaceholders in
  let '(st, htmlContent) :=
    replaceAll tablePattern
      (fun m st => if test spanPattern (matched m) then newTable (matched m) st
                   else (st, matched m))
      htmlContent st in
  let '(st, htmlContent) :=
    replaceAll pageLinkPattern
      (fun m st => newLink (js "[[" ++ group 1 m ++ js "]]") st) htmlContent st in
  let '(st, htmlContent) :=
    replaceAll attachmentLinkPattern (attachmentCallback safePageTitle) htmlContent st in
  let '(st, htmlContent) :=
    replaceAll viewFilePattern (attachmentCallback safePageTitle) htmlContent st in
  let '(st, htmlContent) :=
    replaceAll imagePattern (attachmentCallback safePageTitle) htmlContent st in
  replaceAll macroPattern (macroCallback safePageTitle) htmlContent st.

(** The post-scan: one [replace] per placeholder, table by table. *)
Definition restore (wrap : jsstring -> jsstring) (table : list (jsstring * jsstring))
    (markdownContent : jsstring) : jsstring :=
  foldl (fun md '(placeholder, value) => replaceStr placeholder (wrap value) md)
    markdownContent table.

Definition postScan (st : Placeholders) (markdownContent : jsstring) : jsstring :=
  let markdownContent :=
    restore (fun localFileName => js "![[" ++ localFileName ++ js "]]")
      (imagePlaceholders st) markdownContent in
  let markdownContent := restore (fun rawMd => rawMd) (rawPlaceholders st) markdownContent in
  let markdownContent := restore (fun link => link) (linkPlaceholders st) markdownContent in
  restore
    (fun tableHtml =>
       lf ++ js "<div style=" ++ dq ++ js "overflow-x:auto" ++ dq ++ js ">" ++ lf
          ++ tableHtml ++ lf ++ js "</div>" ++ lf)
    (tablePlaceholders st) markdownContent.

Section Transform.
Context {W : Type} `{Outside W}.

Definition processPageToMarkdown (settings : Service.ConfluenceSyncSettings)
    (page : Api.ConfluencePage) : M (Store W) jsstring :=
  let safePageTitle := sanitizeFileName (Api.title page) in
  let '(st, htmlContent) := preScan safePageTitle (Api.body page) in
  let confluenceUrl :=
    Service.confluenceBaseUrl settings ++ js "/pages/viewpage.action?pageId=" ++ Api.id page in
  markdownContent <-
    Html.generateMarkdownWithFrontmatter htmlContent
      {| Html.title := Api.title page; Html.pageId := Api.id page;
         Html.version := Api.number (Api.version page);
         Html.confluenceUrl := confluenceUrl |} ;;
  ret (postScan st markdownContent).

End Transform.
End Transform.

(** ** The document client ([confluence-api.ts]) *)

Module Client.
Import Api.

Section Client.
Context {W : Type} `{Outside W}.

(** [fetchPagesByRootIds]: no request for an empty list of roots; the time
    condition is added for a positive [lastSyncTime] only. *)
Definition fetchPagesByRootIds (rootIds : list jsstring) (lastSyncTime : option Z)
    (start limit : Z) : M W CQLSearchResult :=
  match rootIds with
  | [] => ret {| results := []; size := 0; start := 0; limit := limit; _totalSize := 0 |}
  | _ =>
      let since :=
        match lastSyncTime with
        | Some t => if (0 <? t)%Z then Some t else None
        | None => None
        end in
      await (searchContent rootIds since start limit)
  end.

(** A response as the listing endpoint sends it for a request with
    [limit]: [size] counts the results of the response, and there are at
    most [limit] of them. *)
Definition wellFormed (limit : Z) (r : CQLSearchResult) : Prop :=
  size r = Z.of_nat (length (results r)) /\ (size r <= limit)%Z.

Definition pageLimit : Z := 25.
Definition maxPages : nat := 1000.

(** The listing endpoint answers every request of the client with a
    well-formed response (or an error). *)
Definition listingWellFormed : Prop :=
  forall rootIds since start w w' r,
    searchContent rootIds since start pageLimit w = (w', Resolved r) ->
    wellFormed pageLimit r.

(** The [while (hasMore)] loop of [fetchAllPagesByRootIds], one request per
    unit of fuel. *)
Fixpoint fetchAll_loop (fuel : nat) (rootIds : list jsstring) (lastSyncTime : option Z)
    (allPages : list ConfluencePage) (start : Z) : M W (list ConfluencePage) :=
  match fuel with
  | 0 => diverge
  | S fuel' =>
      result <- fetchPagesByRootIds rootIds lastSyncTime start pageLimit ;;
      let allPages := allPages ++ results result in
      let hasMore :=
        (size result =? pageLimit)%Z
        && (Z.of_nat (length allPages) <? _totalSize result)%Z in
      let start := (start + pageLimit)%Z in
      if (maxPages <=? length allPages)%nat then ret allPages
      else if hasMore then fetchAll_loop fuel' rootIds lastSyncTime allPages start
      else ret allPages
  end.

Definition fetchAllPagesByRootIds (fuel : nat) (rootIds : list jsstring)
    (lastSyncTime : option Z) : M W (list ConfluencePage) :=
  fetchAll_loop fuel rootIds lastSyncTime [] 0.

End Client.
End Client.

(** ** The sync service ([sync-service.ts], class SyncService) *)

Module SyncService.
Import Api Service.

(** [s.split(sep)] for a one-character separator *)
Fixpoint splitChar (sep : N) (cur : jsstring) (s : jsstring) : list jsstring :=
  match s with
  | [] => [rev cur]
  | c :: r => if (c =? sep)%N then rev cur :: splitChar sep [] r
              else splitChar sep (c :: cur) r
  end.

(** [s.split(/[...]+/)]: the pieces between the maximal runs of separator
    characters. *)
Fixpoint splitRuns (sep : N -> bool) (cur : jsstring) (s : jsstring) : list jsstring :=
  match s with
  | [] => [rev cur]
  | c :: r =>
      if sep c then
        match r with
        | [] => [rev cur; []]
        | c' :: _ => if sep c' then splitRuns sep cur r else rev cur :: splitRuns sep [] r
        end
      else splitRuns sep (c :: cur) r
  end.

(** The separators of root ids: the full-width comma, the comma, line
    feed and white space. *)
Definition isIdSeparator (c : N) : bool := ((c =? 65292) || (c =? 44) || (c =? 10))%N || isSpace c.

Definition parseRootPageIds (input : jsstring) : list jsstring :=
  if negb (truthy (trim input)) then []
  else List.filter (fun id => (0 <? length id)%nat)
         (map trim (splitRuns isIdSeparator [] input)).

Definition emptyResult : SyncResult :=
  {| success := false; pagesCreated := 0; pagesUpdated := 0; pagesSkipped := 0;
     attachmentsDownloaded := 0; errors := [] |}.

Definition pushError (message : jsstring) (r : SyncResult) : SyncResult :=
  {| success := success r; pagesCreated := pagesCreated r; pagesUpdated := pagesUpdated r;
     pagesSkipped := pagesSkipped r; attachmentsDownloaded := attachmentsDownloaded r;
     errors := errors r ++ [message] |}.

Definition setSuccess (b : bool) (r : SyncResult) : SyncResult :=
  {| success := b; pagesCreated := pagesCreated r; pagesUpdated := pagesUpdated r;
     pagesSkipped := pagesSkipped r; attachmentsDownloaded := attachmentsDownloaded r;
     errors := errors r |}.

Definition addCreated (r : SyncResult) : SyncResult :=
  {| success := success r; pagesCreated := S (pagesCreated r); pagesUpdated := pagesUpdated r;
     pagesSkipped := pagesSkipped r; attachmentsDownloaded := attachmentsDownloaded r;
     errors := errors r |}.

Definition addUpdated (r : SyncResult) : SyncResult :=
  {| success := success r; pagesCreated := pagesCreated r; pagesUpdated := S (pagesUpdated r);
     pagesSkipped := pagesSkipped r; attachmentsDownloaded := attachmentsDownloaded r;
     errors := errors r |}.

Definition addSkipped (r : SyncResult) : SyncResult :=
  {| success := success r; pagesCreated := pagesCreated r; pagesUpdated := pagesUpdated r;
     pagesSkipped := S (pagesSkipped r); attachmentsDownloaded := attachmentsDownloaded r;
     errors := errors r |}.

Definition addAttachments (n : nat) (r : SyncResult) : SyncResult :=
  {| success := success r; pagesCreated := pagesCreated r; pagesUpdated := pagesUpdated r;
     pagesSkipped := pagesSkipped r;
     attachmentsDownloaded := attachmentsDownloaded r + n;
     errors := errors r |}.

(** The messages of the error list. *)
Definition noRootsMessage : jsstring :=
  [26410; 37197; 32622; 26681; 39029; 38754; 32; 73; 68; 65292; 35831; 22312; 35774;
   32622; 20013; 36755; 20837; 35201; 21516; 27493; 30340; 39029; 38754; 32; 73; 68]%N.

Definition pathFailedMessage (pageId : jsstring) : jsstring :=
  [39029; 38754; 32]%N ++ pageId ++ [32; 36335; 24452; 35745; 31639; 22833; 36133]%N.

Definition pageFailedMessage (pageId pageTitle message : jsstring) : jsstring :=
  [21516; 27493; 39029; 38754; 32]%N ++ pageId ++ js " (" ++ pageTitle ++ js ")"
    ++ [32; 22833; 36133; 58; 32]%N ++ message.

Definition syncFailedMessage (message : jsstring) : jsstring :=
  [21516; 27493; 22833; 36133; 58; 32]%N ++ message.

Definition singleFailedMessage (pageId message : jsstring) : jsstring :=
  [21516; 27493; 39029; 38754; 32]%N ++ pageId ++ [32; 22833; 36133; 58; 32]%N ++ message.

Section SyncService.
Context {W : Type} `{Outside W}.
Context (settings : ConfluenceSyncSettings).

Definition exists_ (path : jsstring) : M (Store W) (option TAbstractFile) :=
  gets (fun s => getAbstractFileByPath path (world s)).

Definition ensureSyncFolders : M (Store W) unit :=
  let syncFolder := normalizePath (syncFolder settings) in
  let attachmentsFolder := normalizePath (syncFolder ++ js "/Attachments") in
  syncFolderExists <- exists_ syncFolder ;;
  (if syncFolderExists is None then call (createFolder syncFolder) else ret tt) ;;;
  attachmentsFolderExists <- exists_ attachmentsFolder ;;
  (if attachmentsFolderExists is None then call (createFolder attachmentsFolder) else ret tt).

(** Step 1 of [calculatePagePaths]: the ids found in ancestor chains. *)
Definition parentPageIds (pages : list ConfluencePage) : gset jsstring :=
  foldl (fun acc page =>
           foldl (fun acc ancestor => {[ancestor_id ancestor]} ∪ acc) acc (ancestors page))
    ∅ pages.

Definition pathSegments (rootIds : gset jsstring) (page : ConfluencePage) : list jsstring :=
  foldl (fun segments ancestor =>
           if bool_decide (ancestor_id ancestor ∈ rootIds) then segments
           else segments ++ [sanitizeFileName (ancestor_title ancestor)])
    [] (ancestors page).

Definition basePathOf (rootIds : gset jsstring) (page : ConfluencePage) : jsstring :=
  let segments := pathSegments rootIds page in
  if (0 <? length segments)%nat
  then normalizePath (syncFolder settings ++ js "/" ++ join (js "/") segments)
  else normalizePath (syncFolder settings).

Definition pathInfoOf (rootIds parents : gset jsstring) (page : ConfluencePage) : PagePathInfo :=
  let basePath := basePathOf rootIds page in
  let safePageTitle := sanitizeFileName (Api.title page) in
  if bool_decide (Api.id page ∈ parents) then
    let folderPath := normalizePath (basePath ++ js "/" ++ safePageTitle) in
    {| pageId := Api.id page; title := Api.title page; folderPath := folderPath;
       filePath := normalizePath (folderPath ++ js "/" ++ safePageTitle ++ js ".md") |}
  else
    let folderPath := basePath in
    {| pageId := Api.id page; title := Api.title page; folderPath := folderPath;
       filePath := normalizePath (folderPath ++ js "/" ++ safePageTitle ++ js ".md") |}.

Definition calculatePagePaths (pages : list ConfluencePage) : list (jsstring * PagePathInfo) :=
  let rootIds : gset jsstring := list_to_set (parseRootPageIds (rootPageIds settings)) in
  let parents := parentPageIds pages in
  foldl (fun pathMap page => mapSet (Api.id page) (pathInfoOf rootIds parents page) pathMap)
    [] pages.

Definition createFolderStructure (folderPath : jsstring) : M (Store W) unit :=
  folderThere <- exists_ folderPath ;;
  if folderThere is Some _ then ret tt
  else
    let parts := splitChar 47 [] folderPath in
    (fix loop (parts : list jsstring) (currentPath : jsstring) : M (Store W) unit :=
       match parts with
       | [] => ret tt
       | part :: rest =>
           let currentPath :=
             if truthy currentPath then currentPath ++ js "/" ++ part else part in
           folderExists <- exists_ currentPath ;;
           (if folderExists is None then
              try_catch (call (createFolder currentPath))
                (fun message =>
                   if negb (includes (js "already exists") message) then throw message
                   else ret tt)
            else ret tt) ;;;
           loop rest currentPath
       end) parts [].

(** The body of the inner [try] of [syncAttachments], for one attachment. *)
Definition downloadOne (attachmentsFolder pageId pageTitle : jsstring)
    (attachment : Attachment) : M (Store W) unit :=
  let safePageTitle := sanitizeFileName pageTitle in
  let safeFileName := sanitizeFileName (att_title attachment) in
  let safeFileName :=
    if negb (includes (js ".") safeFileName) then safeFileName ++ js ".drawio"
    else safeFileName in
  let fileName := safePageTitle ++ js "_" ++ safeFileName in
  let filePath := normalizePath (attachmentsFolder ++ js "/" ++ fileName) in
  buffer <- call (downloadAttachment pageId (att_title attachment)) ;;
  existingFile <- exists_ filePath ;;
  if existingFile is Some TFile then call (modifyBinary filePath buffer)
  else call (createBinary filePath buffer).

Fixpoint attachmentsLoop (attachmentsFolder pageId pageTitle : jsstring)
    (attachments : list Attachment) (downloadedCount : nat) : M (Store W) nat :=
  match attachments with
  | [] => ret downloadedCount
  | attachment :: rest =>
      downloadedCount <-
        try_catch
          (downloadOne attachmentsFolder pageId pageTitle attachment ;;;
           ret (S downloadedCount))
          (fun _ => ret downloadedCount) ;;
      attachmentsLoop attachmentsFolder pageId pageTitle rest downloadedCount
  end.

Definition syncAttachments (pageId pageTitle : jsstring) : M (Store W) nat :=
  try_catch
    (attachments <- call (getAttachments pageId) ;;
     match attachments with
     | [] => ret 0
     | _ =>
         let attachmentsFolder := normalizePath (syncFolder settings ++ js "/Attachments") in
         attachmentsLoop attachmentsFolder pageId pageTitle attachments 0
     end)
    (fun _ => ret 0).

Definition writeFile (filePath content : jsstring) : M (Store W) unit :=
  existingFile <- exists_ filePath ;;
  if existingFile is Some TFile then call (modifyFile filePath content)
  else call (create filePath content).

(** The body of the [try] of [syncOnePage]. *)
Definition syncOnePage_body (pathInfos : list (jsstring * PagePathInfo))
    (page : ConfluencePage) : M (Store W) unit :=
  match mapGet (Api.id page) pathInfos with
  | None => modify (set_result (pushError (pathFailedMessage (Api.id page))))
  | Some pathInfo =>
      d <- gets data ;;
      if negb (Manager.needsSync d (Api.id page) (number (Api.version page)))
      then modify (set_result addSkipped)
      else
        createFolderStructure (folderPath pathInfo) ;;;
        attachmentCount <-
          (if attachmentSize page is Some 0%Z then ret 0
           else syncAttachments (Api.id page) (Api.title page)) ;;
        modify (set_result (addAttachments attachmentCount)) ;;;
        markdownContent <- Transform.processPageToMarkdown settings page ;;
        isNewFile <- exists_ (filePath pathInfo) ;;
        writeFile (filePath pathInfo) markdownContent ;;;
        modify (set_result (if isNewFile is None then addCreated else addUpdated)) ;;;
        now <- gets (fun s => dateNow (world s)) ;;
        modify (set_pendingStates
          <[Api.id page :=
              {| State.pageId := Api.id page; State.localPath := filePath pathInfo;
                 State.version := number (Api.version page); State.lastUpdated := now |}]>)
  end.

Definition syncOnePage (pathInfos : list (jsstring * PagePathInfo))
    (page : ConfluencePage) : M (Store W) unit :=
  try_finally
    (try_catch (syncOnePage_body pathInfos page)
       (fun message =>
          modify (set_result
            (pushError (pageFailedMessage (Api.id page) (Api.title page) message)))))
    (set_completed S).

(** The worker pool.  Every worker takes the next page off the shared
    queue and awaits [syncOnePage] for it; with [syncOnePage] as one step,
    the pages are processed in the order of the queue. *)
Definition CONCURRENCY : nat := 5.

Definition runWorkers (pathInfos : list (jsstring * PagePathInfo))
    (queue : list ConfluencePage) : M (Store W) unit :=
  forEach queue (syncOnePage pathInfos).

(** [pages.forEach(p => uniquePagesMap.set(p.id, p))] and the values of the
    map *)
Definition uniquePages (pages : list ConfluencePage) : list ConfluencePage :=
  map snd (foldl (fun m p => mapSet (Api.id p) p m) [] pages).

(** The end of the [try] of [pullFromConfluence], once the workers are
    done: the pending records are saved in one call, the new roots are
    marked, the watermark is advanced, and the success flag is set. *)
Definition persist (newRootIds : list jsstring) : M (Store W) unit :=
  pending <- gets pendingStates ;;
  (if (0 <? base.size pending)%nat then Manager.updatePageStates pending else ret tt) ;;;
  (if (0 <? length newRootIds)%nat then Manager.addSyncedRootIds newRootIds else ret tt) ;;;
  Manager.updateLastGlobalSyncTime None ;;;
  modify (set_result (fun r => setSuccess (length (errors r) =? 0)%nat r)).

(** The body of the [try] of [pullFromConfluence]. *)
Definition pull_body (fuel : nat) : M (Store W) unit :=
  let allRootIds := parseRootPageIds (rootPageIds settings) in
  if (length allRootIds =? 0)%nat then throw noRootsMessage
  else
    ensureSyncFolders ;;;
    d <- gets data ;;
    let syncedRootIds := Manager.getSyncedRootIds d in
    let newRootIds :=
      List.filter (fun id => negb (bool_decide (id ∈ syncedRootIds))) allRootIds in
    let existingRootIds :=
      List.filter (fun id => bool_decide (id ∈ syncedRootIds)) allRootIds in
    let pages : list ConfluencePage := [] in
    pages <-
      (if (0 <? length existingRootIds)%nat then
         let lastSyncTime := Manager.getLastGlobalSyncTime d in
         existingPages <-
           io (Client.fetchAllPagesByRootIds fuel existingRootIds (Some lastSyncTime)) ;;
         ret (pages ++ existingPages)
       else ret pages) ;;
    pages <-
      (if (0 <? length newRootIds)%nat then
         newPages <- io (Client.fetchAllPagesByRootIds fuel newRootIds (Some 0%Z)) ;;
         ret (pages ++ newPages)
       else ret pages) ;;
    let pages := uniquePages pages in
    if (length pages =? 0)%nat then modify (set_result (setSuccess true))
    else
      let pathInfos := calculatePagePaths pages in
      runWorkers pathInfos pages ;;;
      persist newRootIds.

Definition pullFromConfluence (fuel : nat) : M (Store W) SyncResult :=
  modify (fun s => set_completed (fun _ => 0)
                     (set_pendingStates (fun _ => ∅) (set_result (fun _ => emptyResult) s))) ;;;
  try_catch (pull_body fuel)
    (fun message => modify (set_result (pushError (syncFailedMessage message)))) ;;;
  gets result.

Definition syncSinglePage (pageId existingFilePath : jsstring) (force : bool)
    : M (Store W) SyncResult :=
  modify (set_result (fun _ => emptyResult)) ;;;
  try_catch
    (page <- call (getPage pageId) ;;
     d <- gets data ;;
     if negb force && negb (Manager.needsSync d pageId (number (Api.version page)))
     then
       modify (set_result (fun r => setSuccess true (addSkipped r)))
     else
       ensureSyncFolders ;;;
       (if attachmentSize page is Some 0%Z then ret tt
        else
          n <- syncAttachments (Api.id page) (Api.title page) ;;
          modify (set_result (addAttachments n))) ;;;
       markdownContent <- Transform.processPageToMarkdown settings page ;;
       writeFile existingFilePath markdownContent ;;;
       modify (set_result addUpdated) ;;;
       now <- gets (fun s => dateNow (world s)) ;;
       Manager.updatePageState pageId
         {| State.pageId := Api.id page; State.localPath := existingFilePath;
            State.version := number (Api.version page); State.lastUpdated := now |} ;;;
       modify (set_result (setSuccess true)))
    (fun message => modify (set_result (pushError (singleFailedMessage pageId message)))) ;;;
  gets result.


End SyncService.
End SyncService.

(** ** Assertions on runs

    The vocabulary of the statements about effectful code: what a
    computation leaves untouched, and what holds of the store it ends
    in. *)

Section Assertions.
Context {W : Type}.

(** [s'] differs from [s] in the outside world at most. *)
Definition frame (s s' : Store W) : Prop :=
  data s' = data s /\ result s' = result s
  /\ pendingStates s' = pendingStates s /\ completed s' = completed s.

(** A computation that acts on the outside world only, and comes back. *)
Definition worldOnly {A} (m : M (Store W) A) : Prop :=
  forall s, frame s (m s).1 /\ (m s).2 <> Diverge.

(** From a store in [P], the computation returns [a] in a store in [Q a]
    or throws [e] in a store in [E e]; with [total] it does come back. *)
Definition triple {A} (total : bool) (P : Store W -> Prop) (m : M (Store W) A)
    (Q : A -> Store W -> Prop) (E : jsstring -> Store W -> Prop) : Prop :=
  forall s, P s ->
    match m s with
    | (s', Ok a) => Q a s'
    | (s', Throw e) => E e s'
    | (_, Diverge) => total = false
    end.

End Assertions.

(** The part of a [SyncResult] that tells what became of the pages. *)
Definition outcome (r : Service.SyncResult) : bool * nat * nat * nat * list jsstring :=
  (Service.success r, Service.pagesCreated r, Service.pagesUpdated r,
   Service.pagesSkipped r, Service.errors r).

(** The pages accounted for in a [SyncResult]. *)
Definition accounted (r : Service.SyncResult) : nat :=
  Service.pagesCreated r + Service.pagesUpdated r + Service.pagesSkipped r
  + length (Service.errors r).

(** [r'] accounts for [n] pages more than [r]: the success flag is the
    same, the counts and the error list have only grown, and the three
    counts and the length of the error list add up to [n] more. *)
Definition advanced (n : nat) (r r' : Service.SyncResult) : Prop :=
  Service.success r' = Service.success r
  /\ accounted r' = accounted r + n
  /\ (exists more, Service.errors r' = Service.errors r ++ more)
  /\ Service.pagesCreated r <= Service.pagesCreated r'
  /\ Service.pagesUpdated r <= Service.pagesUpdated r'
  /\ Service.pagesSkipped r <= Service.pagesSkipped r'.

(** Since [s0], nothing has been counted or reported, and neither the sync
    state nor the progress counter has changed. *)
Definition quiet {W : Type} (s0 s : Store W) : Prop :=
  outcome (result s) = outcome (result s0)
  /\ data s = data s0 /\ completed s = completed s0.


(** ** Matches of the macro pattern, for the examples *)

Module Found.



End Found.

(** ** Further operations of the service and of the client *)

(** [sync-service.ts], [getSyncStats] *)
Module Stats.



End Stats.

(** [confluence-api.ts], [getCleanBaseUrl]: [baseUrl.replace(/\/+$/, empty)],
    where [baseUrl] is the configured address, here the argument.  The
    leftmost match of the pattern is the final run of slashes. *)
Module Url.

Fixpoint getCleanBaseUrl (baseUrl : jsstring) : jsstring :=
  match baseUrl with
  | [] => []
  | c :: r =>
      match getCleanBaseUrl r with
      | [] => if (c =? 47)%N then [] else [c]
      | r' => c :: r'
      end
  end.

End Url.

(** * Theorems *)

(** ** File-name sanitisation *)

Section Sanitize.




Lemma subst1_legal c : isIllegal (subst1 c) = false.
Proof. unfold subst1. destruct (isIllegal c) eqn:E; [reflexivity | exact E]. Qed.


(** What survives the successive rewrites of the chain. *)
Lemma trimStart_Forall (P : N -> Prop) s : Forall P s -> Forall P (trimStart s).
Proof.
  induction 1 as [|c r Hc Hr IH]; simpl; [constructor|].
  destruct (isSpace c); [exact IH | by constructor].
Qed.

Lemma trimEnd_Forall (P : N -> Prop) s : Forall P s -> Forall P (trimEnd s).
Proof.
  induction 1 as [|c r Hc Hr IH]; simpl; [constructor|].
  destruct (trimEnd r) as [|d r'].
  - destruct (isSpace c); [constructor | by repeat constructor].
  - by constructor.
Qed.

Lemma collapseSpaces_Forall (P : N -> Prop) s :
  P 32%N -> Forall P s -> Forall P (collapseSpaces s).
Proof.
  intros H32. induction 1 as [|c r Hc Hr IH]; simpl; [constructor|].
  destruct (isSpace c).
  - destruct r as [|c' r']; [by repeat constructor|].
    destruct (isSpace c'); [exact IH | by constructor].
  - by constructor.
Qed.

Lemma trim_Forall (P : N -> Prop) s : Forall P s -> Forall P (trim s).
Proof. intros H. by apply trimEnd_Forall, trimStart_Forall. Qed.

Lemma replaceIllegal_legal s : Forall (fun c => isIllegal c = false) (replaceIllegal s).
Proof. apply Forall_map, Forall_forall. intros c _. apply subst1_legal. Qed.

Lemma sanitize_legal name :
  Forall (fun c => isIllegal c = false) (sanitizeFileName name).
Proof.
  unfold sanitizeFileName.
  set (core := collapseSpaces _).
  assert (Hcore : Forall (fun c => isIllegal c = false) core).
  { apply collapseSpaces_Forall; [reflexivity|].
    apply trimEnd_Forall, trimStart_Forall, replaceIllegal_legal. }
  apply trim_Forall.
  assert (Hcut : Forall (fun c => isIllegal c = false)
                   (if 200 <? length core then substring0 200 core else core)).
  { destruct (200 <? length core); [by apply Forall_take | done]. }
  destruct (truthy _); [done|].
  unfold untitled. simpl. repeat constructor.
Qed.

(** Lengths only shrink. *)
Lemma trimStart_length s : length (trimStart s) <= length s.
Proof. induction s as [|c r IH]; simpl; [lia|]. destruct (isSpace c); simpl; lia. Qed.

Lemma trimEnd_length s : length (trimEnd s) <= length s.
Proof.
  induction s as [|c r IH]; simpl; [lia|].
  destruct (trimEnd r); [destruct (isSpace c)|]; simpl in *; lia.
Qed.


Lemma trim_length s : length (trim s) <= length s.
Proof. unfold trim. pose proof (trimEnd_length (trimStart s)). pose proof (trimStart_length s). lia. Qed.

Lemma sanitize_length name : length (sanitizeFileName name) <= 200.
Proof.
  unfold sanitizeFileName. set (core := collapseSpaces _).
  etransitivity; [apply trim_length|].
  destruct (200 <? length core) eqn:E.
  - destruct (truthy _); [unfold substring0; rewrite length_take; lia | simpl; lia].
  - apply Nat.ltb_ge in E. destruct (truthy _); [done | simpl; lia].
Qed.

(** Strings without white space go through the chain unchanged. *)
Lemma trimStart_nospace s : Forall (fun c => isSpace c = false) s -> trimStart s = s.
Proof. destruct 1 as [|c r Hc Hr]; simpl; [done|]. by rewrite Hc. Qed.

Lemma trimEnd_nospace s : Forall (fun c => isSpace c = false) s -> trimEnd s = s.
Proof.
  induction 1 as [|c r Hc Hr IH]; simpl; [done|].
  rewrite IH, Hc. by destruct r.
Qed.


Lemma trim_nospace s : Forall (fun c => isSpace c = false) s -> trim s = s.
Proof. intros H. unfold trim. by rewrite trimStart_nospace, trimEnd_nospace. Qed.


(** The characters that are not white space are never touched by trimming
    or collapsing. *)
Local Arguments solid : simpl never.
Local Ltac usolid := unfold solid in *; simpl in *.

Lemma trimStart_solid s : solid (trimStart s) = solid s.
Proof. induction s as [|c r IH]; usolid; [done|]. destruct (isSpace c) eqn:E; simpl; [done|]. by rewrite E. Qed.

Lemma trimEnd_solid s : solid (trimEnd s) = solid s.
Proof.
  induction s as [|c r IH]; usolid; [done|].
  destruct (trimEnd r) as [|d r'] eqn:Er.
  - simpl in IH. rewrite <- IH. destruct (isSpace c) eqn:E; simpl; rewrite ?E; done.
  - rewrite <- IH. simpl. done.
Qed.


Lemma trim_solid s : solid (trim s) = solid s.
Proof. unfold trim. by rewrite trimEnd_solid, trimStart_solid. Qed.



(** Normal forms. *)
Lemma trimEnd_head s d r' : trimEnd s = d :: r' -> exists r0, s = d :: r0.
Proof.
  destruct s as [|c r]; simpl; [done|].
  destruct (trimEnd r); [destruct (isSpace c)|]; intros [= <- <-]; eauto.
Qed.

Lemma trimEnd_idemp s : trimEnd (trimEnd s) = trimEnd s.
Proof.
  induction s as [|c r IH]; simpl; [done|].
  destruct (trimEnd r) as [|d r'] eqn:Er.
  - destruct (isSpace c) eqn:E; simpl; [done|]. by rewrite E.
  - change (trimEnd (c :: d :: r')) with
      (match trimEnd (d :: r') with [] => if isSpace c then [] else [c] | x => c :: x end).
    by rewrite IH.
Qed.

Lemma trimStart_fixed s :
  match s with [] => True | c :: _ => isSpace c = false end -> trimStart s = s.
Proof. destruct s as [|c r]; simpl; [done|]. by intros ->. Qed.

Lemma trimStart_head s :
  match trimStart s with [] => True | c :: _ => isSpace c = false end.
Proof. induction s as [|c r IH]; simpl; [done|]. destruct (isSpace c) eqn:E; [done|]. exact E. Qed.

Lemma trim_idemp s : trim (trim s) = trim s.
Proof.
  unfold trim. rewrite (trimStart_fixed (trimEnd _)); [apply trimEnd_idemp|].
  pose proof (trimStart_head s) as H.
  destruct (trimEnd (trimStart s)) as [|d r'] eqn:E; [done|].
  apply trimEnd_head in E as [r0 E]. by rewrite E in H.
Qed.

Lemma collapseSpaces_collapsed s : collapsed (collapseSpaces s) = true.
Proof.
  induction s as [|c r IH]; [done|].
  cbn [collapseSpaces]. destruct (isSpace c) eqn:E.
  - destruct r as [|c' r']; [done|].
    destruct (isSpace c') eqn:E'; [exact IH|].
    cbn [collapseSpaces] in IH |- *. rewrite E' in IH |- *.
    cbn [collapsed] in IH |- *. rewrite E' in IH |- *. exact IH.
  - cbn [collapsed]. by rewrite E, IH.
Qed.

Lemma collapsed_fixed s : collapsed s = true -> collapseSpaces s = s.
Proof.
  induction s as [|c r IH]; simpl; [done|].
  intros [Hc Hr]%andb_true_iff. rewrite (IH Hr).
  destruct (isSpace c); [|done].
  apply andb_true_iff in Hc as [->%N.eqb_eq Hn].
  destruct r as [|c' r']; [done|]. apply negb_true_iff in Hn. by rewrite Hn.
Qed.

Lemma collapsed_tail c r : collapsed (c :: r) = true -> collapsed r = true.
Proof. simpl. by intros [_ ?]%andb_true_iff. Qed.

Lemma collapsed_take n s : collapsed s = true -> collapsed (take n s) = true.
Proof.
  revert n. induction s as [|c r IH]; intros [|n]; simpl; try done.
  intros [Hc Hr]%andb_true_iff. rewrite (IH n Hr), andb_true_r.
  destruct (isSpace c); [|done].
  apply andb_true_iff in Hc as [-> Hn]. simpl.
  destruct r as [|c' r']; [by destruct n|]. by destruct n.
Qed.

Lemma collapsed_trimStart s : collapsed s = true -> collapsed (trimStart s) = true.
Proof.
  induction s as [|c r IH]; [done|]. intros H. simpl.
  destruct (isSpace c); [apply IH; eapply collapsed_tail; eauto | exact H].
Qed.

Lemma collapsed_trimEnd s : collapsed s = true -> collapsed (trimEnd s) = true.
Proof.
  induction s as [|c r IH]; [done|]. intros H.
  pose proof (IH (collapsed_tail _ _ H)) as Hr. simpl.
  destruct (trimEnd r) as [|d r'] eqn:Er.
  - destruct (isSpace c) eqn:E; [done|]. simpl. by rewrite E.
  - apply trimEnd_head in Er as [r0 ->].
    simpl in H |- *. apply andb_true_iff in H as [Hc _].
    simpl in Hr. rewrite Hr, andb_true_r. exact Hc.
Qed.

Lemma collapsed_trim s : collapsed s = true -> collapsed (trim s) = true.
Proof. intros H. by apply collapsed_trimEnd, collapsed_trimStart. Qed.












Lemma replaceIllegal_clean s :
  Forall (fun c => isIllegal c = false) s -> replaceIllegal s = s.
Proof.
  induction 1 as [|c r Hc Hr IH]; simpl; [done|]. unfold subst1 at 1. by rewrite Hc, IH.
Qed.


End Sanitize.


(** ** The sync-state store *)

Section ManagerFacts.
Import State Manager.



End ManagerFacts.

(** ** The path resolver *)

Section Paths.
Import Api Service SyncService.
Context {W : Type} `{Outside W}.
Context (settings : ConfluenceSyncSettings).

Lemma mapGet_mapSet_eq {V} k (v : V) m : mapGet k (mapSet k v m) = Some v.
Proof.
  induction m as [|[k' v'] m IH]; simpl.
  - by rewrite bool_decide_eq_true_2.
  - destruct (bool_decide (k' = k)) eqn:E; simpl.
    + by rewrite bool_decide_eq_true_2.
    + by rewrite E.
Qed.

Lemma mapGet_mapSet_ne {V} k k' (v : V) m : k <> k' -> mapGet k (mapSet k' v m) = mapGet k m.
Proof.
  intros Hne. induction m as [|[k0 v0] m IH]; simpl.
  - rewrite bool_decide_eq_false_2; [done | congruence].
  - destruct (bool_decide (k0 = k')) eqn:E; simpl.
    + apply bool_decide_eq_true_1 in E. subst k0.
      by rewrite !(bool_decide_eq_false_2 (k' = k)) by congruence.
    + by rewrite IH.
Qed.

Lemma mapGet_fold_other {A V} (key : A -> jsstring) (val : A -> V) k (l : list A) acc :
  k ∉ map key l ->
  mapGet k (foldl (fun m x => mapSet (key x) (val x) m) acc l) = mapGet k acc.
Proof.
  revert acc. induction l as [|x l IH]; intros acc Hk; simpl; [done|].
  rewrite IH by (simpl in Hk; set_solver).
  apply mapGet_mapSet_ne. simpl in Hk. set_solver.
Qed.

Lemma mapGet_fold_in {A V} (key : A -> jsstring) (val : A -> V) (l : list A) acc x :
  NoDup (map key l) -> x ∈ l ->
  mapGet (key x) (foldl (fun m x => mapSet (key x) (val x) m) acc l) = Some (val x).
Proof.
  revert acc. induction l as [|y l IH]; intros acc Hnd Hx; [by apply elem_of_nil in Hx|].
  simpl in Hnd |- *. apply NoDup_cons in Hnd as [Hy Hnd].
  apply elem_of_cons in Hx as [->|Hx].
  - rewrite mapGet_fold_other by done. apply mapGet_mapSet_eq.
  - by apply IH.
Qed.

Lemma NoDup_map_eq {A B} (f : A -> B) (l : list A) x y :
  NoDup (map f l) -> x ∈ l -> y ∈ l -> f x = f y -> x = y.
Proof.
  induction l as [|z l IH]; simpl; intros Hnd Hx Hy Hf; [by apply elem_of_nil in Hx|].
  apply NoDup_cons in Hnd as [Hz Hnd].
  apply elem_of_cons in Hx as [->|Hx]; apply elem_of_cons in Hy as [->|Hy]; try done.
  - exfalso. apply Hz. rewrite Hf. by apply (list_elem_of_fmap_2 f).
  - exfalso. apply Hz. rewrite <- Hf. by apply (list_elem_of_fmap_2 f).
  - by apply IH.
Qed.

Lemma parentPageIds_acc (pages : list ConfluencePage) (acc : gset jsstring) i :
  i ∈ foldl (fun acc page =>
               foldl (fun acc ancestor => {[ancestor_id ancestor]} ∪ acc) acc (ancestors page))
        acc pages
  <-> i ∈ acc \/ exists p, p ∈ pages /\ i ∈ map ancestor_id (ancestors p).
Proof.
  assert (Hin : forall (l : list ConfluenceAncestor) (acc : gset jsstring),
             i ∈ foldl (fun acc ancestor => {[ancestor_id ancestor]} ∪ acc) acc l
             <-> i ∈ acc \/ i ∈ map ancestor_id l).
  { induction l as [|a l IH]; intros acc0; simpl; [set_solver|]. rewrite IH. set_solver. }
  revert acc. induction pages as [|p pages IH]; intros acc; simpl.
  - split; [by left | intros [?|(p & Hp & _)]; [done | by apply elem_of_nil in Hp]].
  - rewrite IH, Hin. split.
    + intros [[?|?]|(q & Hq & ?)]; [by left | right; exists p; set_solver | right; exists q; set_solver].
    + intros [?|(q & Hq & ?)]; [by left; left|].
      apply elem_of_cons in Hq as [->|Hq]; [by left; right | right; by exists q].
Qed.

Lemma elem_of_parentPageIds pages i :
  i ∈ parentPageIds pages <-> exists p, p ∈ pages /\ i ∈ map ancestor_id (ancestors p).
Proof. unfold parentPageIds. rewrite parentPageIds_acc. set_solver. Qed.

Lemma pathSegments_filter (rootIds : gset jsstring) page :
  pathSegments rootIds page
  = map (fun a => sanitizeFileName (ancestor_title a))
      (List.filter (fun a => negb (bool_decide (ancestor_id a ∈ rootIds))) (ancestors page)).
Proof.
  unfold pathSegments.
  assert (Hacc : forall l acc,
    foldl (fun segments ancestor =>
             if bool_decide (ancestor_id ancestor ∈ rootIds) then segments
             else segments ++ [sanitizeFileName (ancestor_title ancestor)]) acc l
    = acc ++ map (fun a => sanitizeFileName (ancestor_title a))
               (List.filter (fun a => negb (bool_decide (ancestor_id a ∈ rootIds))) l)).
  { induction l as [|a l IH]; intros acc; simpl; [by rewrite app_nil_r|].
    rewrite IH. destruct (bool_decide _); simpl; [done|]. by rewrite <- app_assoc. }
  apply Hacc.
Qed.

(** C3. In a batch of pages with distinct ids in which no page is its own
    ancestor, every page has an entry in the map of [calculatePagePaths].
    With [basePath] the sync folder joined with the sanitised titles of the
    page's ancestors that are not configured roots: a page whose id
    appears in the ancestor chain of another page of the batch gets the
    folder [basePath/title] and the file [folder/title.md]; any other page
    gets no folder of its own, its folder is [basePath] and its file
    [basePath/title.md]. Paths are built with [normalizePath]. *)
Theorem calculatePagePaths_layout (pages : list ConfluencePage) (page : ConfluencePage) :
  NoDup (map Api.id pages) ->
  page ∈ pages ->
  Api.id page ∉ map ancestor_id (ancestors page) ->
  let rootIds := parseRootPageIds (rootPageIds settings) in
  let segments :=
    map (fun a => sanitizeFileName (ancestor_title a))
      (List.filter (fun a => negb (bool_decide (ancestor_id a ∈ rootIds))) (ancestors page)) in
  let basePath :=
    match segments with
    | [] => normalizePath (syncFolder settings)
    | _ => normalizePath (syncFolder settings ++ js "/" ++ join (js "/") segments)
    end in
  let safeTitle := sanitizeFileName (Api.title page) in
  exists info,
    mapGet (Api.id page) (calculatePagePaths settings pages) = Some info
    /\ ((exists other, other ∈ pages /\ other <> page
                      /\ Api.id page ∈ map ancestor_id (ancestors other)) ->
        folderPath info = normalizePath (basePath ++ js "/" ++ safeTitle)
        /\ filePath info
           = normalizePath (folderPath info ++ js "/" ++ safeTitle ++ js ".md"))
    /\ (~ (exists other, other ∈ pages /\ other <> page
                        /\ Api.id page ∈ map ancestor_id (ancestors other)) ->
        folderPath info = basePath
        /\ filePath info = normalizePath (basePath ++ js "/" ++ safeTitle ++ js ".md")).
Proof.
  intros Hnd Hin Hself rootIds segments basePath safeTitle.
  set (roots := (list_to_set rootIds : gset jsstring)).
  exists (pathInfoOf settings roots (parentPageIds pages) page). split.
  { unfold calculatePagePaths. fold rootIds. fold roots.
    apply (mapGet_fold_in Api.id (pathInfoOf settings roots (parentPageIds pages))); done. }
  assert (Hbase : basePathOf settings roots page = basePath).
  { unfold basePathOf. rewrite pathSegments_filter.
    assert (Hseg : map (fun a => sanitizeFileName (ancestor_title a))
              (List.filter (fun a => negb (bool_decide (ancestor_id a ∈ roots))) (ancestors page))
            = segments).
    { unfold segments. f_equal. apply List.filter_ext. intros a.
      f_equal. apply bool_decide_ext. unfold roots. by rewrite elem_of_list_to_set. }
    rewrite Hseg. subst basePath. by destruct segments. }
  unfold pathInfoOf. rewrite Hbase. fold safeTitle.
  split.
  - intros (other & Ho & _ & Hanc).
    rewrite bool_decide_eq_true_2; [done|].
    apply elem_of_parentPageIds. eauto.
  - intros Hno. rewrite bool_decide_eq_false_2; [done|].
    intros (p & Hp & Hanc)%elem_of_parentPageIds.
    destruct (decide (Api.id p = Api.id page)) as [Hid|Hne].
    + by rewrite (NoDup_map_eq Api.id pages p page Hnd Hp Hin Hid) in Hanc.
    + apply Hno. exists p. repeat split; [done | congruence | done].
Qed.

End Paths.

(** ** Pagination *)

Section Pagination.
Import Api Client.
Context {W : Type} `{Outside W}.
Context (rootIds : list jsstring) (lastSyncTime : option Z).

Hypothesis responses_wellFormed :
  forall since start w w' r,
    searchContent rootIds since start pageLimit w = (w', Resolved r) ->
    wellFormed pageLimit r.

Lemma fetchPages_wellFormed start w w' r :
  fetchPagesByRootIds rootIds lastSyncTime start pageLimit w = (w', Ok r) ->
  wellFormed pageLimit r.
Proof using responses_wellFormed.
  pose proof responses_wellFormed as Hwf.
  unfold fetchPagesByRootIds. destruct rootIds as [|i ids].
  - intros [= <- <-]. split; simpl; [done | unfold pageLimit; lia].
  - unfold await.
    destruct (searchContent _ _ _ _ w) as [w1 [r1|e]] eqn:Er; simpl; intros [= <- <-].
    eapply Hwf, Er.
Qed.

Lemma fetchPages_returns start w :
  (fetchPagesByRootIds rootIds lastSyncTime start pageLimit w).2 <> Diverge.
Proof.
  unfold fetchPagesByRootIds. destruct rootIds; [done|].
  unfold await. by destruct (searchContent _ _ _ _ w) as [w1 [r1|e]].
Qed.

(** What one turn of the loop does with the response it gets. *)
Lemma fetchAll_loop_step fuel allPages start w w' r :
  fetchPagesByRootIds rootIds lastSyncTime start pageLimit w = (w', Ok r) ->
  fetchAll_loop (S fuel) rootIds lastSyncTime allPages start w
  = if bool_decide ((size r < pageLimit)%Z
                    \/ (_totalSize r <= Z.of_nat (length (allPages ++ results r)))%Z
                    \/ 1000 <= length (allPages ++ results r))
    then (w', Ok (allPages ++ results r))
    else fetchAll_loop fuel rootIds lastSyncTime (allPages ++ results r)
           (start + pageLimit)%Z w'.
Proof using responses_wellFormed.
  intros Hr. pose proof (fetchPages_wellFormed _ _ _ _ Hr) as [Hsize Hle].
  cbn [fetchAll_loop]. unfold bind at 1. rewrite Hr.
  unfold maxPages.
  destruct (Nat.leb_spec 1000 (length (allPages ++ results r))) as [Hmax|Hmax].
  { rewrite bool_decide_eq_true_2; [done | auto]. }
  destruct (Z.eqb_spec (size r) pageLimit) as [Heq|Hne]; simpl.
  - destruct (Z.ltb_spec (Z.of_nat (length (allPages ++ results r))) (_totalSize r)).
    + rewrite bool_decide_eq_false_2; [done | lia].
    + rewrite bool_decide_eq_true_2; [done | auto].
  - rewrite bool_decide_eq_true_2; [done | left; lia].
Qed.

Lemma fetchAll_loop_throw fuel allPages start w w' e :
  fetchPagesByRootIds rootIds lastSyncTime start pageLimit w = (w', Throw e) ->
  fetchAll_loop (S fuel) rootIds lastSyncTime allPages start w = (w', Throw e).
Proof. intros Hr. cbn [fetchAll_loop]. unfold bind at 1. by rewrite Hr. Qed.

(** After [k] full pages, [40 - k] more requests are enough. *)
Lemma fetchAll_loop_total fuel : forall k allPages start w,
  length allPages = 25 * k -> k < 40 -> 40 <= k + fuel ->
  exists w' res,
    (forall fuel', 40 <= k + fuel' ->
       fetchAll_loop fuel' rootIds lastSyncTime allPages start w = (w', res))
    /\ match res with
       | Ok pages => length pages <= 1000
       | Throw _ => True
       | Diverge => False
       end.
Proof using responses_wellFormed.
  induction fuel as [|fuel IH]; intros k allPages start w Hlen Hk Hfuel; [lia|].
  destruct (fetchPagesByRootIds rootIds lastSyncTime start pageLimit w) as [w1 [r|e|]] eqn:Hr.
  - pose proof (fetchPages_wellFormed _ _ _ _ Hr) as [Hsize Hle]. unfold pageLimit in Hle.
    assert (Hacc : length (allPages ++ results r) = 25 * k + length (results r))
      by (rewrite length_app; lia).
    destruct (decide ((size r < pageLimit)%Z
                      \/ (_totalSize r <= Z.of_nat (length (allPages ++ results r)))%Z
                      \/ 1000 <= length (allPages ++ results r))) as [Hstop|Hgo].
    + exists w1, (Ok (allPages ++ results r)). split; [|lia].
      intros [|fuel'] Hf; [lia|].
      rewrite (fetchAll_loop_step _ _ _ _ _ _ Hr). by rewrite bool_decide_eq_true_2.
    + assert (Hfull : length (results r) = 25) by (unfold pageLimit in Hgo; lia).
      destruct (IH (S k) (allPages ++ results r) (start + pageLimit)%Z w1)
        as (w' & res & Hall & Hres); [lia | lia | lia |].
      exists w', res. split; [|done].
      intros [|fuel'] Hf; [lia|].
      rewrite (fetchAll_loop_step _ _ _ _ _ _ Hr), bool_decide_eq_false_2 by done.
      apply Hall. lia.
  - exists w1, (Throw e). split; [|done].
    intros [|fuel'] Hf; [lia|]. by apply fetchAll_loop_throw.
  - exfalso. pose proof (fetchPages_returns start w) as Hd. by rewrite Hr in Hd.
Qed.


End Pagination.

(** ** Reasoning about runs *)

Section Logic.
Context {W : Type}.
Implicit Types s : Store W.

Lemma frame_refl s : frame s s.
Proof. by repeat split. Qed.

Lemma frame_trans s1 s2 s3 : frame s1 s2 -> frame s2 s3 -> frame s1 s3.
Proof. unfold frame. intros (?&?&?&?) (?&?&?&?). repeat split; congruence. Qed.

Lemma frame_set_world s w : frame s (set_world (fun _ => w) s).
Proof. by repeat split. Qed.

Lemma worldOnly_ret {A} (a : A) : worldOnly (W:=W) (ret a).
Proof. intros s. split; [apply frame_refl | done]. Qed.

Lemma worldOnly_throw {A} e : worldOnly (W:=W) (A:=A) (throw e).
Proof. intros s. split; [apply frame_refl | done]. Qed.

Lemma worldOnly_gets {A} (f : Store W -> A) : worldOnly (gets f).
Proof. intros s. split; [apply frame_refl | done]. Qed.

Lemma worldOnly_call {A} (op : Op W A) : worldOnly (call op).
Proof.
  intros s. unfold call, io, await. destruct (op (world s)) as [w' [a|e]]; simpl;
    (split; [apply frame_set_world | done]).
Qed.

Lemma worldOnly_bind {A B} (m : M (Store W) A) (k : A -> M (Store W) B) :
  worldOnly m -> (forall a, worldOnly (k a)) -> worldOnly (bind m k).
Proof.
  intros Hm Hk s. unfold bind. destruct (Hm s) as [Hf Hd].
  destruct (m s) as [s1 [a|e|]]; simpl in *; [|done|done].
  destruct (Hk a s1) as [Hf' Hd']. split; [by eapply frame_trans | done].
Qed.

Lemma worldOnly_try_catch {A} (m : M (Store W) A) (h : jsstring -> M (Store W) A) :
  worldOnly m -> (forall e, worldOnly (h e)) -> worldOnly (try_catch m h).
Proof.
  intros Hm Hh s. unfold try_catch. destruct (Hm s) as [Hf Hd].
  destruct (m s) as [s1 [a|e|]]; simpl in *; [done| |done].
  destruct (Hh e s1) as [Hf' Hd']. split; [by eapply frame_trans | done].
Qed.

(** A [try] whose handler returns a value always returns a value. *)
Lemma try_catch_returns {A} (m : M (Store W) A) (a0 : A) s :
  worldOnly m ->
  exists s' a, try_catch m (fun _ => ret a0) s = (s', Ok a) /\ frame s s'.
Proof.
  intros Hm. unfold try_catch. destruct (Hm s) as [Hf Hd].
  destruct (m s) as [s1 [a|e|]]; simpl in *; [by eauto | by eauto | done].
Qed.

Lemma triple_conseq {A} total (P P' : Store W -> Prop) (m : M (Store W) A) Q Q' E E' :
  triple total P' m Q' E' ->
  (forall s, P s -> P' s) -> (forall a s, Q' a s -> Q a s) -> (forall e s, E' e s -> E e s) ->
  triple total P m Q E.
Proof.
  intros Hm HP HQ HE s Hs. specialize (Hm s (HP s Hs)).
  destruct (m s) as [s1 [a|e|]]; auto.
Qed.

Lemma triple_partial {A} total (P : Store W -> Prop) (m : M (Store W) A) Q E :
  triple true P m Q E -> triple total P m Q E.
Proof.
  intros Hm s Hs. specialize (Hm s Hs). by destruct (m s) as [s1 [a|e|]].
Qed.

Lemma triple_ret {A} total (a : A) (Q : A -> Store W -> Prop) E :
  triple total (Q a) (ret a) Q E.
Proof. by intros s Hs. Qed.

Lemma triple_throw {A} total e (Q : A -> Store W -> Prop) (E : jsstring -> Store W -> Prop) :
  triple total (E e) (throw e) Q E.
Proof. by intros s Hs. Qed.

Lemma triple_gets {A} total (f : Store W -> A) (Q : A -> Store W -> Prop) E :
  triple total (fun s => Q (f s) s) (gets f) Q E.
Proof. by intros s Hs. Qed.

Lemma triple_modify total (f : Store W -> Store W) (Q : unit -> Store W -> Prop) E :
  triple total (fun s => Q tt (f s)) (modify f) Q E.
Proof. by intros s Hs. Qed.

Lemma triple_bind {A B} total (P : Store W -> Prop) (m : M (Store W) A)
    (k : A -> M (Store W) B) (Q : A -> Store W -> Prop) R E :
  triple total P m Q E -> (forall a, triple total (Q a) (k a) R E) ->
  triple total P (bind m k) R E.
Proof.
  intros Hm Hk s Hs. unfold bind. specialize (Hm s Hs).
  destruct (m s) as [s1 [a|e|]]; [by apply Hk | done | done].
Qed.

Lemma triple_try_catch {A} total (P : Store W -> Prop) (m : M (Store W) A) h Q E E' :
  triple total P m Q E' -> (forall e, triple total (E' e) (h e) Q E) ->
  triple total P (try_catch m h) Q E.
Proof.
  intros Hm Hh s Hs. unfold try_catch. specialize (Hm s Hs).
  destruct (m s) as [s1 [a|e|]]; [done | by apply Hh | done].
Qed.

Lemma triple_try_finally {A} total (P : Store W -> Prop) (m : M (Store W) A) f Q E :
  triple total P m (fun a s => Q a (f s)) (fun e s => E e (f s)) ->
  triple total P (try_finally m f) Q E.
Proof.
  intros Hm s Hs. unfold try_finally. specialize (Hm s Hs).
  by destruct (m s) as [s1 [a|e|]].
Qed.

(** An assertion that does not look at the outside world survives a
    computation that acts on the outside world only. *)
Lemma triple_worldOnly {A} total (P : Store W -> Prop) (m : M (Store W) A) :
  worldOnly m -> (forall s s', frame s s' -> P s -> P s') ->
  triple total P m (fun _ => P) (fun _ => P).
Proof.
  intros Hm HP s Hs. destruct (Hm s) as [Hf Hd].
  destruct (m s) as [s1 [a|e|]]; simpl in *; [by eapply HP | by eapply HP | done].
Qed.

End Logic.

(** The steps that build a computation acting on the outside world only. *)
Ltac worldOnly_step :=
  lazymatch goal with
  | |- worldOnly (bind _ _) => apply worldOnly_bind; [|intros]
  | |- worldOnly (try_catch _ _) => apply worldOnly_try_catch; [|intros]
  | |- worldOnly (ret _) => apply worldOnly_ret
  | |- worldOnly (throw _) => apply worldOnly_throw
  | |- worldOnly (gets _) => apply worldOnly_gets
  | |- worldOnly (call _) => apply worldOnly_call
  | |- worldOnly (if ?b then _ else _) => destruct b
  | |- worldOnly (match ?x with _ => _ end) => destruct x
  | |- worldOnly (let '(_, _) := ?x in _) => destruct x
  end.
Ltac worldOnly_auto := repeat worldOnly_step; try assumption.

(** ** The fallback of the converter *)

Section StripTags.
Import Regex Html.

Lemma star_loop_chr {X} (p : N -> bool) (k : jsstring -> captures -> option X) fuel :
  forall s c, length s < fuel ->
    star_loop (fun s c k' => run (Chr p) s c k') true k fuel s c = greedyChr p k s c.
Proof.
  induction fuel as [|fuel IH]; intros s c Hlen; [lia|].
  destruct s as [|x s']; [reflexivity|].
  cbn [star_loop run greedyChr]. destruct (p x); [|reflexivity].
  replace (length s' <? length (x :: s')) with true
    by (symmetry; apply Nat.ltb_lt; simpl; lia).
  rewrite IH by (simpl in Hlen; lia). reflexivity.
Qed.

Lemma run_star_chr {X} (p : N -> bool) (k : jsstring -> captures -> option X) s c :
  run (Star true (Chr p)) s c k = greedyChr p k s c.
Proof. cbn [run]. apply star_loop_chr. lia. Qed.

Lemma greedy_notGt {X} (K : jsstring -> captures -> option X) s c :
  greedyChr (notChr 62) (fun s' c' => run (Chr (chr 62)) s' c' K) s c
  = match afterGt s with Some b => K b c | None => None end.
Proof.
  induction s as [|y t IH]; [reflexivity|].
  cbn [greedyChr afterGt run] in IH |- *. unfold notChr, chr in IH |- *.
  destruct (y =? 62)%N; simpl; [reflexivity|].
  rewrite IH. destruct (afterGt t) as [b|]; [by destruct (K b c) | done].
Qed.

Lemma afterGt_length s b : afterGt s = Some b -> length b < length s.
Proof.
  revert b. induction s as [|y t IH]; intros b; simpl; [done|].
  destruct (y =? 62)%N; [intros [= <-]; lia | intros Hb%IH; lia].
Qed.

Lemma run_Cat {X} a b s c (k : jsstring -> captures -> option X) :
  run (Cat a b) s c k = run a s c (fun s' c' => run b s' c' k).
Proof. reflexivity. Qed.

Lemma run_Chr {X} p s c (k : jsstring -> captures -> option X) :
  run (Chr p) s c k
  = match s with x :: s' => if p x then k s' c else None | [] => None end.
Proof. reflexivity. Qed.

Lemma matchHere_tag pre s :
  matchHere tagPattern pre s
  = match s with
    | x :: r =>
        match (if (x =? 60)%N then afterGt r else None) with
        | Some b => Some {| before := pre; matched := take (length s - length b) s;
                            after := b; groups := noCaptures |}
        | None => None
        end
    | [] => None
    end.
Proof.
  unfold matchHere, tagPattern. cbn [seq]. destruct s as [|x r]; [reflexivity|].
  rewrite run_Cat, run_Chr. unfold chr at 1. destruct (x =? 60)%N; [|reflexivity].
  rewrite run_Cat, run_star_chr, greedy_notGt. by destruct (afterGt r).
Qed.

Lemma firstTag_length s a b : firstTag s = Some (a, b) -> length a + length b < length s.
Proof.
  revert a b. induction s as [|x r IH]; intros a b; simpl; [done|].
  destruct (if (x =? 60)%N then afterGt r else None) as [b'|] eqn:E.
  - intros [= <- <-]. destruct (x =? 60)%N; [|done]. apply afterGt_length in E. simpl. lia.
  - destruct (firstTag r) as [[a' b']|]; [|done]. intros [= <- <-].
    specialize (IH _ _ eq_refl). simpl. lia.
Qed.

Lemma search_tag pre s :
  match search tagPattern pre s, firstTag s with
  | Some m, Some (a, b) =>
      after m = b /\ length (matched m) = length s - length a - length b
      /\ take (length a) s = a
  | None, None => True
  | _, _ => False
  end.
Proof.
  revert pre. induction s as [|x r IH]; intros pre.
  - cbn [search]. by rewrite matchHere_tag.
  - cbn [search firstTag]. rewrite matchHere_tag.
    destruct (if (x =? 60)%N then afterGt r else None) as [b|] eqn:E.
    + cbn [after matched]. repeat split. rewrite length_take.
      destruct (x =? 60)%N; [|done]. apply afterGt_length in E. simpl in *. lia.
    + specialize (IH (x :: pre)).
      destruct (search tagPattern (x :: pre) r) as [m|], (firstTag r) as [[a b]|]; try done.
      destruct IH as (Ha & Hm & Ht). repeat split; [done | simpl; lia | simpl; by rewrite Ht].
Qed.

Lemma withoutTags_inTag r :
  withoutTags true r = match afterGt r with Some b => withoutTags false b | None => [] end.
Proof.
  induction r as [|y t IH]; [reflexivity|]. cbn [withoutTags afterGt].
  destruct (y =? 62)%N; simpl; [reflexivity | exact IH].
Qed.

Lemma afterGt_hasGt r : hasGt r = match afterGt r with Some _ => true | None => false end.
Proof.
  induction r as [|y t IH]; [reflexivity|]. unfold hasGt in *. cbn [existsb afterGt].
  destruct (y =? 62)%N; simpl; [reflexivity | exact IH].
Qed.

Lemma withoutTags_firstTag s :
  withoutTags false s
  = match firstTag s with Some (a, b) => a ++ withoutTags false b | None => s end.
Proof.
  induction s as [|x r IH]; [reflexivity|]. cbn [withoutTags firstTag].
  rewrite afterGt_hasGt, withoutTags_inTag.
  destruct (x =? 60)%N; simpl.
  - destruct (afterGt r) as [b|]; [reflexivity|].
    rewrite IH. by destruct (firstTag r) as [[a b]|].
  - rewrite IH. by destruct (firstTag r) as [[a b]|].
Qed.

Lemma replaceAll_tags fuel : forall pre s,
  length s < fuel ->
  (replaceAll_go fuel tagPattern (fun _ (_ : unit) => (tt, [])) pre s tt).2
  = withoutTags false s.
Proof.
  induction fuel as [|fuel IH]; intros pre s Hlen; [lia|].
  cbn [replaceAll_go]. rewrite withoutTags_firstTag.
  pose proof (search_tag pre s) as Hs. pose proof (firstTag_length s) as Hl.
  destruct (search tagPattern pre s) as [m|], (firstTag s) as [[a b]|]; try done.
  destruct Hs as (Ha & Hm & Ht). specialize (Hl _ _ eq_refl).
  assert (Hskip : take (length s - length (matched m) - length (after m)) s = a).
  { rewrite Hm, Ha. replace (length s - (length s - length a - length b) - length b)
      with (length a) by lia. exact Ht. }
  rewrite Hskip.
  destruct (matched m) as [|y t] eqn:Em; [simpl in Hm; lia|].
  specialize (IH (rev (y :: t) ++ rev (before m)) (after m)).
  destruct (replaceAll_go fuel tagPattern _ _ (after m) tt) as [u out] eqn:Eo.
  simpl in IH |- *. rewrite IH by (rewrite Ha; lia). by rewrite Ha.
Qed.

Lemma stripTags_withoutTags html :
  replaceAllWith tagPattern (fun _ => []) html = withoutTags false html.
Proof. unfold replaceAllWith, replaceAll. apply replaceAll_tags. lia. Qed.

Lemma withoutTags_hasGt inTag s : hasGt s = false -> hasGt (withoutTags inTag s) = false.
Proof.
  revert inTag. unfold hasGt. induction s as [|x r IH]; intros inTag; [done|].
  cbn [existsb withoutTags]. intros [Hx Hr]%orb_false_iff.
  destruct inTag; [by apply IH|].
  destruct ((x =? 60)%N && _); [by apply IH|]. cbn [existsb]. by rewrite Hx, IH.
Qed.

(** No [<] of the result is followed by a [>]. *)
Lemma withoutTags_tagFree inTag s a r :
  withoutTags inTag s = a ++ 60%N :: r -> hasGt r = false.
Proof.
  revert inTag a. induction s as [|x t IH]; intros inTag a; cbn [withoutTags].
  - by destruct a.
  - destruct inTag; [apply IH|].
    destruct ((x =? 60)%N && hasGt t) eqn:E; [apply IH|].
    destruct a as [|y a]; simpl.
    + intros [= -> <-]. rewrite N.eqb_refl in E. simpl in E.
      by apply withoutTags_hasGt.
    + intros [= _ Ht]. by apply IH in Ht.
Qed.

End StripTags.

Section Convert.
Import Regex Html.
Context {W : Type} `{Outside W}.

Lemma convert_eq html (s : Store W) :
  convert html s
  = (s, Ok match turndown html with
           | Resolved body => body
           | Rejected _ => replaceAllWith tagPattern (fun _ => []) html
           end).
Proof. unfold convert, try_catch. by destruct (turndown html). Qed.

Lemma generateMarkdownWithFrontmatter_returns html metadata (s : Store W) :
  exists md, generateMarkdownWithFrontmatter html metadata s = (s, Ok md).
Proof.
  unfold generateMarkdownWithFrontmatter, bind. rewrite convert_eq.
  unfold gets, ret. eauto.
Qed.

Lemma processPageToMarkdown_returns settings page (s : Store W) :
  exists md, Transform.processPageToMarkdown settings page s = (s, Ok md).
Proof.
  unfold Transform.processPageToMarkdown.
  destruct (Transform.preScan _ _) as [st htmlContent]. unfold bind.
  destruct (generateMarkdownWithFrontmatter_returns htmlContent
    {| title := Api.title page; pageId := Api.id page;
       version := Api.number (Api.version page);
       confluenceUrl := Service.confluenceBaseUrl settings
                        ++ js "/pages/viewpage.action?pageId=" ++ Api.id page |} s)
    as [md ->].
  unfold ret. eauto.
Qed.

Lemma worldOnly_processPageToMarkdown settings page :
  worldOnly (Transform.processPageToMarkdown (W:=W) settings page).
Proof.
  intros s. destruct (processPageToMarkdown_returns settings page s) as [md ->].
  split; [apply frame_refl | done].
Qed.

(** C8. [convert] never throws: on every input it returns a string and
    leaves the store as it was.  When the structural converter returns, the
    string is its result; when it throws, whatever the error, the string is
    the input with every match of the tag pattern removed, that is, the
    input without the text from a [<] to the first [>] after it, in which
    no [<] is followed by a [>] any more.  The step that adds the front
    matter therefore returns as well. *)
Theorem convert_never_throws (html : jsstring) (s : Store W) :
  exists md,
    convert html s = (s, Ok md)
    /\ (forall body, turndown html = Resolved body -> md = body)
    /\ (forall message, turndown html = Rejected message ->
          md = replaceAllWith tagPattern (fun _ => []) html
          /\ md = withoutTags false html
          /\ forall a r, md = a ++ 60%N :: r -> hasGt r = false)
    /\ (forall metadata, exists document,
          generateMarkdownWithFrontmatter html metadata s = (s, Ok document)).
Proof.
  rewrite convert_eq. eexists. split; [reflexivity|]. split; [|split].
  - by intros body ->.
  - intros message ->. split; [reflexivity|]. rewrite stripTags_withoutTags.
    split; [reflexivity|]. intros a r. apply withoutTags_tagFree.
  - intros metadata. apply generateMarkdownWithFrontmatter_returns.
Qed.

End Convert.

(** ** The structured macros of the pre-scan *)

Section Macros.
Import Regex Transform.

Lemma replaceChar_cons c by_ x s :
  replaceChar c by_ (x :: s) = (if (x =? c)%N then by_ else [x]) ++ replaceChar c by_ s.
Proof. reflexivity. Qed.

Lemma replaceChar_app c by_ s t :
  replaceChar c by_ (s ++ t) = replaceChar c by_ s ++ replaceChar c by_ t.
Proof. unfold replaceChar. apply flat_map_app. Qed.

Lemma escapeHtml_app s t : escapeHtml (s ++ t) = escapeHtml s ++ escapeHtml t.
Proof. unfold escapeHtml. by rewrite !replaceChar_app. Qed.

Lemma escapeHtml_cons x s : escapeHtml (x :: s) = escapeChar x ++ escapeHtml s.
Proof.
  change (x :: s) with ([x] ++ s). rewrite escapeHtml_app. f_equal.
  unfold escapeChar, escapeHtml.
  destruct (N.eqb_spec x 38) as [->|H38]; [reflexivity|].
  destruct (N.eqb_spec x 60) as [->|H60]; [reflexivity|].
  destruct (N.eqb_spec x 62) as [->|H62]; [reflexivity|].
  unfold replaceChar. simpl.
  apply N.eqb_neq in H38, H60, H62. by rewrite H38; simpl; rewrite H60; simpl; rewrite H62.
Qed.

Lemma escapeHtml_flat_map code : escapeHtml code = flat_map escapeChar code.
Proof.
  induction code as [|x s IH]; [reflexivity|]. by rewrite escapeHtml_cons, IH.
Qed.









End Macros.

(** ** The sync service: what acts on the vault and the server only *)

Section ServiceFrames.
Import Api Service SyncService.
Context {W : Type} `{Outside W}.
Context (settings : ConfluenceSyncSettings).

Lemma worldOnly_exists path : worldOnly (exists_ (W:=W) path).
Proof. unfold exists_. worldOnly_auto. Qed.

Lemma worldOnly_ensureSyncFolders : worldOnly (ensureSyncFolders settings).
Proof. unfold ensureSyncFolders. worldOnly_auto; apply worldOnly_exists. Qed.

Lemma worldOnly_createFolderStructure folderPath :
  worldOnly (createFolderStructure folderPath).
Proof.
  unfold createFolderStructure. worldOnly_step; [apply worldOnly_exists|].
  destruct a; [apply worldOnly_ret|].
  generalize (splitChar 47 [] folderPath) as parts. generalize (@nil N) as currentPath.
  intros currentPath parts. revert currentPath.
  induction parts as [|part rest IH]; intros currentPath; [apply worldOnly_ret|].
  worldOnly_step; [apply worldOnly_exists|].
  worldOnly_step; [|apply IH].
  destruct a; [apply worldOnly_ret|]. worldOnly_auto.
Qed.

Lemma worldOnly_downloadOne attachmentsFolder pageId pageTitle attachment :
  worldOnly (downloadOne attachmentsFolder pageId pageTitle attachment).
Proof.
  unfold downloadOne. worldOnly_step; [apply worldOnly_call|].
  worldOnly_step; [apply worldOnly_exists|].
  destruct a0 as [[|]|]; apply worldOnly_call.
Qed.

Lemma worldOnly_attachmentsLoop attachmentsFolder pageId pageTitle attachments :
  forall n, worldOnly (attachmentsLoop attachmentsFolder pageId pageTitle attachments n).
Proof.
  induction attachments as [|a rest IH]; intros n; cbn [attachmentsLoop];
    [apply worldOnly_ret|].
  worldOnly_step; [|apply IH].
  worldOnly_step; [|apply worldOnly_ret].
  worldOnly_step; [apply worldOnly_downloadOne | apply worldOnly_ret].
Qed.

Lemma worldOnly_syncAttachments pageId pageTitle :
  worldOnly (syncAttachments settings pageId pageTitle).
Proof.
  unfold syncAttachments. worldOnly_step; [|apply worldOnly_ret].
  worldOnly_step; [apply worldOnly_call|].
  destruct a; [apply worldOnly_ret | apply worldOnly_attachmentsLoop].
Qed.

Lemma worldOnly_writeFile filePath content : worldOnly (writeFile (W:=W) filePath content).
Proof.
  unfold writeFile. worldOnly_step; [apply worldOnly_exists|].
  destruct a as [[|]|]; apply worldOnly_call.
Qed.




End ServiceFrames.

(** ** The batch pass *)

Section Rules.
Context {W : Type}.
Implicit Types s : Store W.

(** A step that leaves the sync result alone. *)
Lemma triple_bind_keep {A B} total (P : Store W -> Prop) (m : M (Store W) A)
    (k : A -> M (Store W) B) Q E :
  (forall s, P s -> P (m s).1) ->
  (forall s, (m s).2 = Diverge -> total = false) ->
  (forall e s, P s -> E e s) ->
  (forall a, triple total P (k a) Q E) ->
  triple total P (bind m k) Q E.
Proof.
  intros HP Hd HE Hk s Hs. unfold bind. specialize (HP s Hs). specialize (Hd s).
  destruct (m s) as [s1 [a|e|]]; simpl in *; [by apply Hk | by apply HE | auto].
Qed.

Lemma triple_bind_worldOnly {A B} total (P : Store W -> Prop) (m : M (Store W) A)
    (k : A -> M (Store W) B) Q E :
  worldOnly m ->
  (forall s s', frame s s' -> P s -> P s') ->
  (forall e s, P s -> E e s) ->
  (forall a, triple total P (k a) Q E) ->
  triple total P (bind m k) Q E.
Proof.
  intros Hm HP HE Hk. apply triple_bind_keep; try done.
  - intros s Hs. destruct (Hm s) as [Hf _]. by eapply HP.
  - intros s Hd. by destruct (Hm s) as [_ ?].
Qed.

Lemma triple_bind_gets {A B} total (P : Store W -> Prop) (f : Store W -> A)
    (k : A -> M (Store W) B) Q E :
  (forall a, triple total P (k a) Q E) -> triple total P (bind (gets f) k) Q E.
Proof. intros Hk s Hs. unfold bind, gets. by apply Hk. Qed.

Lemma triple_bind_modify {B} total (P P' : Store W -> Prop) (f : Store W -> Store W)
    (k : unit -> M (Store W) B) Q E :
  (forall s, P s -> P' (f s)) -> triple total P' (k tt) Q E ->
  triple total P (bind (modify f) k) Q E.
Proof. intros Hf Hk s Hs. unfold bind, modify. by apply Hk, Hf. Qed.

Lemma triple_modify_end total (P : Store W -> Prop) (f : Store W -> Store W)
    (Q : unit -> Store W -> Prop) E :
  (forall s, P s -> Q tt (f s)) -> triple total P (modify f) Q E.
Proof. intros Hf s Hs. unfold modify. by apply Hf. Qed.

Lemma triple_ret_end {A} total (P : Store W -> Prop) (a : A) (Q : A -> Store W -> Prop) E :
  (forall s, P s -> Q a s) -> triple total P (ret a) Q E.
Proof. intros Hf s Hs. unfold ret. by apply Hf. Qed.

Lemma quiet_refl s : quiet s s.
Proof. by repeat split. Qed.

Lemma quiet_frame (s0 s s' : Store W) : frame s s' -> quiet s0 s -> quiet s0 s'.
Proof. unfold frame, quiet. intros (?&?&?&?) (?&?&?). repeat split; congruence. Qed.

Lemma advanced_refl r : advanced 0 r r.
Proof.
  unfold advanced. split; [done|]. split; [lia|].
  split; [by exists []; rewrite app_nil_r|]. repeat split; lia.
Qed.

Lemma advanced_trans n m r1 r2 r3 :
  advanced n r1 r2 -> advanced m r2 r3 -> advanced (n + m) r1 r3.
Proof.
  intros (?&?&[l1 ?]&?&?&?) (?&?&[l2 ?]&?&?&?). repeat split; try lia; try congruence.
  exists (l1 ++ l2). rewrite app_assoc. congruence.
Qed.

End Rules.

Section Pass.
Import Api Service SyncService.
Context {W : Type} `{Outside W}.
Context (settings : ConfluenceSyncSettings).
Implicit Types s : Store W.

Lemma accounted_pushError e r : accounted (pushError e r) = S (accounted r).
Proof. unfold accounted, pushError. simpl. rewrite length_app. simpl. lia. Qed.

Lemma advanced_pushError e r : advanced 1 r (pushError e r).
Proof.
  unfold advanced. rewrite accounted_pushError. simpl.
  split; [done|]. split; [lia|]. split; [by eexists|]. repeat split; lia.
Qed.

Lemma advanced_outcome n r0 r r' :
  outcome r = outcome r0 -> advanced n r r' -> advanced n r0 r'.
Proof.
  unfold outcome, advanced, accounted. intros [= Hs Hc Hu Hk He] (?&?&[l ?]&?&?&?).
  rewrite <- Hs, <- Hc, <- Hu, <- Hk, <- He. repeat split; try done. by exists l.
Qed.

Lemma advanced_counted (f : SyncResult -> SyncResult) r :
  (f = addSkipped \/ f = addCreated \/ f = addUpdated) -> advanced 1 r (f r).
Proof.
  unfold advanced, accounted.
  intros [-> | [-> | ->]]; simpl; (split; [done|]); (split; [lia|]);
    (split; [by exists []; rewrite app_nil_r|]); repeat split; lia.
Qed.

(** What the body of the [try] of [syncOnePage] can do to the store: when
    it returns, exactly one page more is accounted for; when it throws,
    nothing has been counted or reported. *)
Lemma syncOnePage_body_triple pathInfos page s0 :
  triple true (fun s => s = s0) (syncOnePage_body settings pathInfos page)
    (fun _ s => advanced 1 (result s0) (result s)
                /\ data s = data s0 /\ completed s = completed s0)
    (fun _ s => quiet s0 s).
Proof.
  unfold syncOnePage_body.
  destruct (mapGet (Api.id page) pathInfos) as [pathInfo|].
  2: { apply triple_modify_end. intros s ->. cbn [result set_result data completed].
       split; [apply advanced_pushError | by split]. }
  eapply triple_conseq with (P' := quiet s0);
    [| intros s ->; apply quiet_refl | intros a s Hq; exact Hq | intros e s Hq; exact Hq].
  apply triple_bind_gets. intros d.
  destruct (negb _).
  { apply triple_modify_end. intros s (Ho & Hd & Hc).
    cbn [result set_result data completed]. split; [|by split].
    eapply advanced_outcome; [exact Ho|]. apply advanced_counted. auto. }
  apply triple_bind_worldOnly;
    [apply worldOnly_createFolderStructure | apply quiet_frame | done | intros _].
  apply triple_bind_worldOnly;
    [| apply quiet_frame | done | intros attachmentCount].
  { destruct (attachmentSize page) as [[| |]|];
      first [apply worldOnly_ret | apply worldOnly_syncAttachments]. }
  eapply triple_bind_modify with (P' := quiet s0).
  { intros s (Ho & Hd & Hc). by repeat split. }
  apply triple_bind_worldOnly;
    [apply worldOnly_processPageToMarkdown | apply quiet_frame | done | intros markdownContent].
  apply triple_bind_worldOnly;
    [apply worldOnly_exists | apply quiet_frame | done | intros isNewFile].
  apply triple_bind_worldOnly;
    [apply worldOnly_writeFile | apply quiet_frame | done | intros _].
  eapply triple_bind_modify
    with (P' := fun s => advanced 1 (result s0) (result s)
                         /\ data s = data s0 /\ completed s = completed s0).
  { intros s (Ho & Hd & Hc). cbn [result set_result data completed].
    split; [|by split].
    eapply advanced_outcome; [exact Ho|]. apply advanced_counted.
    destruct isNewFile; auto. }
  apply triple_bind_gets. intros now.
  apply triple_modify_end. intros s Hs. exact Hs.
Qed.

(** [syncOnePage] never throws: it returns, with the page accounted for
    and the progress counter advanced; the error of a body that threw is
    the last of the error list, and the counts are those before the
    page. *)
Lemma syncOnePage_run pathInfos page s :
  exists s',
    syncOnePage settings pathInfos page s = (s', Ok tt)
    /\ completed s' = S (completed s) /\ data s' = data s
    /\ advanced 1 (result s) (result s')
    /\ match syncOnePage_body settings pathInfos page s with
       | (sb, Ok _) => result s' = result sb
       | (sb, Throw message) =>
           outcome (result s')
           = outcome (pushError (pageFailedMessage (Api.id page) (Api.title page) message)
                        (result s))
       | (_, Diverge) => False
       end.
Proof.
  pose proof (syncOnePage_body_triple pathInfos page s s eq_refl) as Hb.
  unfold syncOnePage, try_finally, try_catch.
  destruct (syncOnePage_body settings pathInfos page s) as [sb [[]|e|]]; [| |done].
  - destruct Hb as (Ha & Hd & Hc). eexists. split; [reflexivity|].
    cbn [result set_completed data completed].
    split; [by rewrite Hc|]. by repeat (split; [done|]).
  - destruct Hb as (Ho & Hd & Hc). unfold modify. eexists. split; [reflexivity|].
    cbn [result set_completed set_result data completed].
    split; [by rewrite Hc|]. split; [done|].
    assert (Hout : outcome (pushError (pageFailedMessage (Api.id page) (Api.title page) e)
                              (result sb))
                   = outcome (pushError (pageFailedMessage (Api.id page) (Api.title page) e)
                                (result s))).
    { unfold outcome in *. simpl. by injection Ho as -> -> -> -> ->. }
    split; [|exact Hout].
    eapply advanced_outcome; [exact Ho | apply advanced_pushError].
Qed.

Lemma forEach_app {A} (f : A -> M (Store W) unit) l1 l2 s :
  forEach (l1 ++ l2) f s
  = match forEach l1 f s with
    | (s1, Ok _) => forEach l2 f s1
    | other => other
    end.
Proof.
  revert s. induction l1 as [|x l1 IH]; intros s; [reflexivity|].
  cbn [forEach app]. unfold bind. destruct (f x s) as [s1 [[]|e|]]; [apply IH | done | done].
Qed.

(** The workers go through the whole queue. *)
Lemma runWorkers_run pathInfos queue : forall s,
  exists s',
    runWorkers settings pathInfos queue s = (s', Ok tt)
    /\ completed s' = completed s + length queue /\ data s' = data s
    /\ advanced (length queue) (result s) (result s').
Proof.
  unfold runWorkers. induction queue as [|page rest IH]; intros s.
  - exists s. simpl. split; [done|]. split; [lia|]. split; [done | apply advanced_refl].
  - destruct (syncOnePage_run pathInfos page s) as (s1 & Hrun & Hc & Hd & Ha & _).
    destruct (IH s1) as (s' & Hrest & Hc' & Hd' & Ha').
    exists s'. cbn [forEach]. unfold bind. rewrite Hrun, Hrest. simpl.
    split; [done|]. split; [lia|]. split; [congruence|].
    by apply (advanced_trans 1 (length rest) _ (result s1)).
Qed.

(** A page whose body throws: its error is appended, the pages after it
    are still processed, and the error is in the list at the end. *)
Lemma runWorkers_failing pathInfos before page after s s1 sb message :
  runWorkers settings pathInfos before s = (s1, Ok tt) ->
  syncOnePage_body settings pathInfos page s1 = (sb, Throw message) ->
  exists s2 s',
    syncOnePage settings pathInfos page s1 = (s2, Ok tt)
    /\ errors (result s2)
       = errors (result s1) ++ [pageFailedMessage (Api.id page) (Api.title page) message]
    /\ pagesCreated (result s2) = pagesCreated (result s1)
    /\ pagesUpdated (result s2) = pagesUpdated (result s1)
    /\ pagesSkipped (result s2) = pagesSkipped (result s1)
    /\ runWorkers settings pathInfos (before ++ page :: after) s
       = runWorkers settings pathInfos after s2
    /\ runWorkers settings pathInfos after s2 = (s', Ok tt)
    /\ completed s' = completed s + length (before ++ page :: after)
    /\ pageFailedMessage (Api.id page) (Api.title page) message ∈ errors (result s')
    /\ pagesCreated (result s1) <= pagesCreated (result s')
    /\ pagesUpdated (result s1) <= pagesUpdated (result s')
    /\ pagesSkipped (result s1) <= pagesSkipped (result s').
Proof.
  intros Hbefore Hbody.
  destruct (runWorkers_run pathInfos before s) as (s1' & Hb' & Hc1 & _).
  rewrite Hbefore in Hb'. injection Hb' as <-.
  destruct (syncOnePage_run pathInfos page s1) as (s2 & Hrun & Hc2 & _ & _ & Hout).
  rewrite Hbody in Hout. unfold outcome in Hout. simpl in Hout.
  injection Hout as _ Hcr Hup Hsk Herr.
  destruct (runWorkers_run pathInfos after s2) as (s' & Hafter & Hc' & _ & Ha).
  exists s2, s'. repeat (split; [done|]).
  split.
  { unfold runWorkers in *. rewrite forEach_app, Hbefore. cbn [forEach]. unfold bind.
    by rewrite Hrun. }
  split; [done|].
  split; [rewrite length_app; simpl; lia|].
  destruct Ha as (_ & _ & [more Hmore] & ? & ? & ?).
  split; [rewrite Hmore, Herr; set_solver|]. repeat split; lia.
Qed.

Lemma manager_save_keeps (f : State.PluginData -> State.PluginData) s :
  let out := bind (modify (set_data f)) (fun _ => Manager.save) s in
  result out.1 = result s /\ out.2 <> Diverge.
Proof.
  cbv [bind modify Manager.save Manager.getData gets call io await]. simpl.
  by destruct (saveCallback _ _) as [w' [[]|e]].
Qed.

Lemma updatePageStates_keeps states s :
  result (Manager.updatePageStates states s).1 = result s
  /\ (Manager.updatePageStates states s).2 <> Diverge.
Proof. apply manager_save_keeps. Qed.

Lemma addSyncedRootIds_keeps ids s :
  result (Manager.addSyncedRootIds ids s).1 = result s
  /\ (Manager.addSyncedRootIds ids s).2 <> Diverge.
Proof. apply manager_save_keeps. Qed.

Lemma updateLastGlobalSyncTime_keeps t s :
  result (Manager.updateLastGlobalSyncTime t s).1 = result s
  /\ (Manager.updateLastGlobalSyncTime t s).2 <> Diverge.
Proof.
  unfold Manager.updateLastGlobalSyncTime.
  destruct t as [t|]; unfold bind at 1; [unfold ret | unfold gets at 1]; apply manager_save_keeps.
Qed.

(** The persisting steps leave counts and errors alone; when they come
    through, the success flag tells whether the error list is empty. *)
Lemma persist_run newRootIds s :
  match persist newRootIds s with
  | (s', Ok _) =>
      result s' = setSuccess (length (errors (result s)) =? 0) (result s)
  | (s', Throw _) => result s' = result s
  | (_, Diverge) => False
  end.
Proof.
  assert (Ht : triple true (fun x => result x = result s) (persist newRootIds)
                 (fun _ s' =>
                    result s' = setSuccess (length (errors (result s)) =? 0) (result s))
                 (fun _ s' => result s' = result s)).
  { unfold persist. apply triple_bind_gets. intros pending.
    apply triple_bind_keep; [| |done|intros _].
    { intros x Hx. destruct (0 <? base.size pending); [|done].
      destruct (updatePageStates_keeps pending x). congruence. }
    { intros x Hx. destruct (0 <? base.size pending); [|done].
      by destruct (updatePageStates_keeps pending x). }
    apply triple_bind_keep; [| |done|intros _].
    { intros x Hx. destruct (0 <? length newRootIds); [|done].
      destruct (addSyncedRootIds_keeps newRootIds x). congruence. }
    { intros x Hx. destruct (0 <? length newRootIds); [|done].
      by destruct (addSyncedRootIds_keeps newRootIds x). }
    apply triple_bind_keep; [| |done|intros _].
    { intros x Hx. destruct (updateLastGlobalSyncTime_keeps None x). congruence. }
    { intros x Hx. by destruct (updateLastGlobalSyncTime_keeps None x). }
    apply triple_modify_end. intros x Hx. simpl. by rewrite Hx. }
  specialize (Ht s eq_refl). by destruct (persist newRootIds s) as [s' [[]|e|]].
Qed.

Lemma io_frame {A} (m : M W A) s : frame s (io m s).1.
Proof. unfold io. destruct (m (world s)) as [w' r]. apply frame_set_world. Qed.

Lemma fetchAll_returns fuel rootIds lastSyncTime w :
  Client.listingWellFormed -> 40 <= fuel ->
  (Client.fetchAllPagesByRootIds fuel rootIds lastSyncTime w).2 <> Diverge.
Proof.
  intros Hwf Hfuel. unfold Client.fetchAllPagesByRootIds.
  destruct (fetchAll_loop_total rootIds lastSyncTime (Hwf rootIds) 40 0 [] 0%Z w)
    as (w' & res & Hrun & Hres); [done | lia | lia |].
  rewrite (Hrun fuel) by lia. simpl. by destruct res.
Qed.

(** The listing step of the pass: it acts on the outside world only, and
    comes back when the endpoint is well-formed and the fuel sufficient. *)
Lemma listing_step total fuel (c : bool) rootIds lastSyncTime
    (pages : list ConfluencePage) s :
  (total = true -> Client.listingWellFormed /\ 40 <= fuel) ->
  let m := if c then
             bind (io (Client.fetchAllPagesByRootIds fuel rootIds lastSyncTime))
               (fun more => ret (pages ++ more))
           else ret pages in
  frame s (m s).1 /\ ((m s).2 = Diverge -> total = false).
Proof.
  intros Htotal. destruct c; simpl; [|split; [apply frame_refl | done]].
  unfold bind. pose proof (io_frame (Client.fetchAllPagesByRootIds fuel rootIds lastSyncTime) s)
    as Hf.
  unfold io in *.
  pose proof (fetchAll_returns fuel rootIds lastSyncTime (world s)) as Hret.
  destruct (Client.fetchAllPagesByRootIds fuel rootIds lastSyncTime (world s))
    as [w' [more|e|]]; simpl in *; split; try done.
  intros _. destruct total; [|done]. destruct (Htotal eq_refl) as [Hwf Hfuel].
  by destruct (Hret Hwf Hfuel).
Qed.

Lemma pull_body_triple total fuel :
  (total = true -> Client.listingWellFormed /\ 40 <= fuel) ->
  triple total (fun s => success (result s) = false /\ errors (result s) = [])
    (pull_body settings fuel)
    (fun _ s => success (result s) = true <-> errors (result s) = [])
    (fun _ s => success (result s) = false).
Proof.
  intros Htotal. unfold pull_body.
  set (P := fun s : Store W => success (result s) = false /\ errors (result s) = []).
  assert (HP : forall s s', frame s s' -> P s -> P s').
  { intros s s' (_ & Hr & _) Hs. unfold P. by rewrite Hr. }
  assert (HE : forall (e : jsstring) s, P s -> success (result s) = false)
    by (by intros e s [? ?]).
  destruct (length (parseRootPageIds (rootPageIds settings)) =? 0).
  { intros s [Hs _]. exact Hs. }
  apply triple_bind_worldOnly; [apply worldOnly_ensureSyncFolders | done | done | intros _].
  apply triple_bind_gets. intros d.
  apply triple_bind_keep; [| |done|intros pages].
  { intros s Hs. eapply HP; [|exact Hs]. by apply (listing_step total). }
  { intros s. by apply (listing_step total). }
  apply triple_bind_keep; [| |done|intros pages'].
  { intros s Hs. eapply HP; [|exact Hs]. by apply (listing_step total). }
  { intros s. by apply (listing_step total). }
  destruct (length (uniquePages pages') =? 0).
  { apply triple_modify_end. intros s [Hs He]. simpl. by rewrite He. }
  eapply triple_conseq with (P' := fun s => success (result s) = false)
                            (Q' := fun _ s => success (result s) = true
                                              <-> errors (result s) = [])
                            (E' := fun _ s => success (result s) = false);
    [| by intros s [? ?] | done | done].
  apply triple_bind_keep; [| |done|intros _].
  { intros s Hs. destruct (runWorkers_run (calculatePagePaths settings (uniquePages pages'))
      (uniquePages pages') s) as (s' & -> & _ & _ & Hsucc & _). simpl. congruence. }
  { intros s. destruct (runWorkers_run (calculatePagePaths settings (uniquePages pages'))
      (uniquePages pages') s) as (s' & -> & _). done. }
  intros s Hs. pose proof (persist_run
    (List.filter (fun id => negb (bool_decide (id ∈ Manager.getSyncedRootIds d)))
       (parseRootPageIds (rootPageIds settings))) s) as Hp.
  destruct (persist _ s) as [s' [[]|e|]]; [| |done].
  - rewrite Hp. simpl. rewrite Nat.eqb_eq. by destruct (errors (result s)).
  - by rewrite Hp.
Qed.

(** The whole pass returns the result it has built and never throws; the
    success flag of the result is true exactly when its error list is
    empty. *)
Lemma pullFromConfluence_run total fuel s :
  (total = true -> Client.listingWellFormed /\ 40 <= fuel) ->
  match pullFromConfluence settings fuel s with
  | (s', Ok r) => r = result s' /\ (success r = true <-> errors r = [])
  | (_, Throw _) => False
  | (_, Diverge) => total = false
  end.
Proof.
  intros Htotal. unfold pullFromConfluence. unfold bind at 1. unfold modify at 1.
  set (s0 := set_completed _ _).
  unfold bind at 1. unfold try_catch.
  pose proof (pull_body_triple total fuel Htotal s0) as Hb.
  destruct (pull_body settings fuel s0) as [s1 [[]|e|]].
  - unfold gets. split; [done|]. by apply Hb.
  - unfold modify, gets. split; [done|]. simpl.
    rewrite (Hb (conj eq_refl eq_refl)). split; [done|]. by destruct (errors (result s1)).
  - by apply Hb.
Qed.

(** C2. In the batch pass: (1) [syncOnePage] always returns; when the
    body of its [try] throws, for whatever step, the error of the page is
    appended to the error list and the counts stay as they were, and
    otherwise the result is the one the body left; either way one more page
    is accounted for and the progress counter advances.  (2) When a page of
    the queue fails, the pages after it are processed from the store it
    left, the workers return, every page of the queue has been attempted,
    the error of the failed page is in the final error list, and the counts
    reached before it are not lost.  (3) The workers account for every page
    of the queue exactly once, as created, updated, skipped or failed.
    (4) [pullFromConfluence] never throws, and the success flag of the
    result it returns is true exactly when the error list of the result is
    empty; (5) with a well-formed listing endpoint it does return.  (6) The
    persisting steps change neither the counts nor the error list.  (7) In
    a batch of three pages of which the second cannot be written, the
    result has one page created, one updated, the error of the second page
    as its only error, and a false success flag. *)
Theorem pullFromConfluence_isolates_failures :
  (forall pathInfos page s,
     exists s',
       syncOnePage settings pathInfos page s = (s', Ok tt)
       /\ completed s' = S (completed s) /\ data s' = data s
       /\ advanced 1 (result s) (result s')
       /\ match syncOnePage_body settings pathInfos page s with
          | (sb, Ok _) => result s' = result sb
          | (sb, Throw message) =>
              outcome (result s')
              = outcome (pushError
                           (pageFailedMessage (Api.id page) (Api.title page) message)
                           (result s))
          | (_, Diverge) => False
          end)
  /\ (forall pathInfos before page after s s1 sb message,
        runWorkers settings pathInfos before s = (s1, Ok tt) ->
        syncOnePage_body settings pathInfos page s1 = (sb, Throw message) ->
        exists s2 s',
          syncOnePage settings pathInfos page s1 = (s2, Ok tt)
          /\ errors (result s2)
             = errors (result s1)
               ++ [pageFailedMessage (Api.id page) (Api.title page) message]
          /\ pagesCreated (result s2) = pagesCreated (result s1)
          /\ pagesUpdated (result s2) = pagesUpdated (result s1)
          /\ pagesSkipped (result s2) = pagesSkipped (result s1)
          /\ runWorkers settings pathInfos (before ++ page :: after) s
             = runWorkers settings pathInfos after s2
          /\ runWorkers settings pathInfos after s2 = (s', Ok tt)
          /\ completed s' = completed s + length (before ++ page :: after)
          /\ pageFailedMessage (Api.id page) (Api.title page) message ∈ errors (result s')
          /\ pagesCreated (result s1) <= pagesCreated (result s')
          /\ pagesUpdated (result s1) <= pagesUpdated (result s')
          /\ pagesSkipped (result s1) <= pagesSkipped (result s'))
  /\ (forall pathInfos queue s,
        exists s',
          runWorkers settings pathInfos queue s = (s', Ok tt)
          /\ completed s' = completed s + length queue /\ data s' = data s
          /\ advanced (length queue) (result s) (result s'))
  /\ (forall fuel s,
        match pullFromConfluence settings fuel s with
        | (s', Ok r) => r = result s' /\ (success r = true <-> errors r = [])
        | (_, Throw _) => False
        | (_, Diverge) => True
        end)
  /\ (forall fuel s,
        Client.listingWellFormed -> 40 <= fuel ->
        exists s' r,
          pullFromConfluence settings fuel s = (s', Ok r)
          /\ r = result s' /\ (success r = true <-> errors r = []))
  /\ (forall newRootIds s,
        let r' := result (persist newRootIds s).1 in
        pagesCreated r' = pagesCreated (result s)
        /\ pagesUpdated r' = pagesUpdated (result s)
        /\ pagesSkipped r' = pagesSkipped (result s)
        /\ errors r' = errors (result s))
  /\ (@pullFromConfluence _ (Sim.outside Resolved) Sim.settings 40
         (Sim.store Sim.batchWorld State.DEFAULT_PLUGIN_DATA)).2
     = Ok {| success := false; pagesCreated := 1; pagesUpdated := 1; pagesSkipped := 0;
             attachmentsDownloaded := 0;
             errors := [pageFailedMessage (js "101") (js "Child")
                          (js "EACCES: permission denied")] |}.
Proof.
  split; [exact syncOnePage_run|].
  split; [exact runWorkers_failing|].
  split; [exact runWorkers_run|].
  split.
  { intros fuel s. pose proof (pullFromConfluence_run false fuel s) as Hp.
    destruct (pullFromConfluence settings fuel s) as [s' [r|e|]]; [|by apply Hp|done].
    by apply Hp. }
  split.
  { intros fuel s Hwf Hfuel.
    pose proof (pullFromConfluence_run true fuel s (fun _ => conj Hwf Hfuel)) as Hp.
    destruct (pullFromConfluence settings fuel s) as [s' [r|e|]]; [|done|done].
    exists s', r. by destruct Hp. }
  split.
  { intros newRootIds s. pose proof (persist_run newRootIds s) as Hp. simpl.
    destruct (persist newRootIds s) as [s' [[]|e|]]; [| |done]; simpl; by rewrite Hp. }
  by vm_compute.
Qed.

End Pass.

From Stdlib Require DecimalNat.
(** * Further properties of the code *)

(** ** File names *)

Section SanitizeMore.

Lemma sanitize_nonempty name : sanitizeFileName name <> [].
Proof.
  unfold sanitizeFileName. set (safe := if _ <? _ then _ else _).
  destruct (truthy (trim safe)) eqn:E; [by destruct (trim safe) | by vm_compute].
Qed.

Lemma sanitize_trimmed name : trim (sanitizeFileName name) = sanitizeFileName name.
Proof. unfold sanitizeFileName. apply trim_idemp. Qed.

Lemma sanitize_collapsed name : collapsed (sanitizeFileName name) = true.
Proof.
  unfold sanitizeFileName. set (core := collapseSpaces _).
  apply collapsed_trim.
  assert (Hc : collapsed core = true) by apply collapseSpaces_collapsed.
  destruct (truthy _); [|reflexivity].
  destruct (200 <? length core); [by apply collapsed_take | done].
Qed.

(** X1. [sanitizeFileName] is idempotent: a name that has been sanitised
    is returned unchanged, so the file and folder names built from page
    titles are stable from one pass to the next, and the result is never
    the empty string. *)
Theorem sanitizeFileName_idempotent (name : jsstring) :
  sanitizeFileName (sanitizeFileName name) = sanitizeFileName name
  /\ sanitizeFileName name <> [].
Proof.
  split; [|apply sanitize_nonempty].
  set (r := sanitizeFileName name).
  assert (Hne : r <> []) by apply sanitize_nonempty.
  assert (Ht : trim r = r) by apply sanitize_trimmed.
  assert (Hc : collapseSpaces r = r) by (apply collapsed_fixed, sanitize_collapsed).
  assert (Hl : length r <= 200) by apply sanitize_length.
  assert (Hi : replaceIllegal r = r) by (apply replaceIllegal_clean, sanitize_legal).
  unfold sanitizeFileName at 1. rewrite Hi. fold (trim r). rewrite Ht, Hc.
  replace (200 <? length r) with false by (symmetry; apply Nat.ltb_ge; lia).
  rewrite Ht. destruct r; [done|]. exact Ht.
Qed.

End SanitizeMore.

(** ** The list of root ids *)

Section RootIds.
Import SyncService.

Local Abbreviation nonsep := (fun c : N => isIdSeparator c = false).
Local Abbreviation issep := (fun c : N => isIdSeparator c = true).

Lemma nonsep_nospace c : isIdSeparator c = false -> isSpace c = false.
Proof. unfold isIdSeparator. intros H. by apply orb_false_elim in H as [_ ?]. Qed.

Lemma splitRuns_pieces s : forall cur,
  Forall nonsep cur -> Forall (Forall nonsep) (splitRuns isIdSeparator cur s).
Proof.
  induction s as [|c r IH]; intros cur Hcur; simpl.
  - repeat constructor. by apply Forall_rev.
  - destruct (isIdSeparator c) eqn:Ec.
    + destruct r as [|c' r'].
      * repeat constructor. by apply Forall_rev.
      * destruct (isIdSeparator c') eqn:Ec'; [by apply IH|].
        constructor; [by apply Forall_rev | by apply IH].
    + apply IH. by constructor.
Qed.

Lemma splitRuns_plain a : forall cur,
  Forall nonsep a -> splitRuns isIdSeparator cur a = [rev cur ++ a].
Proof.
  induction a as [|c a IH]; intros cur Ha; simpl; [by rewrite app_nil_r|].
  apply Forall_cons in Ha as [Hc Ha]. rewrite Hc, IH by done.
  simpl. by rewrite <- app_assoc.
Qed.

Lemma splitRuns_seps seps : forall cur x rest,
  seps <> [] -> Forall issep seps -> isIdSeparator x = false ->
  splitRuns isIdSeparator cur (seps ++ x :: rest)
  = rev cur :: splitRuns isIdSeparator [] (x :: rest).
Proof.
  induction seps as [|c seps IH]; intros cur x rest Hne Hs Hx; [done|].
  apply Forall_cons in Hs as [Hc Hs].
  change ((c :: seps) ++ x :: rest) with (c :: (seps ++ x :: rest)).
  set (R := splitRuns isIdSeparator [] (x :: rest)).
  cbn [splitRuns]. rewrite Hc.
  destruct seps as [|c2 seps'].
  - cbn [app]. by rewrite Hx.
  - cbn [app]. pose proof Hs as Hs'. apply Forall_cons in Hs' as [Hc2 _]. rewrite Hc2.
    apply (IH cur x rest); [done | exact Hs | exact Hx].
Qed.

Lemma splitRuns_piece a : forall cur seps x rest,
  Forall nonsep a -> seps <> [] -> Forall issep seps -> isIdSeparator x = false ->
  splitRuns isIdSeparator cur (a ++ seps ++ x :: rest)
  = (rev cur ++ a) :: splitRuns isIdSeparator [] (x :: rest).
Proof.
  induction a as [|c a IH]; intros cur seps x rest Ha Hne Hs Hx.
  - rewrite app_nil_r. by apply splitRuns_seps.
  - apply Forall_cons in Ha as [Hc Ha].
    change ((c :: a) ++ seps ++ x :: rest) with (c :: (a ++ seps ++ x :: rest)).
    set (R := splitRuns isIdSeparator [] (x :: rest)).
    cbn [splitRuns]. rewrite Hc. subst R. rewrite IH by done. simpl. by rewrite <- app_assoc.
Qed.

Lemma join_head sep (x : N) r rest : exists t, join sep ((x :: r) :: rest) = x :: t.
Proof. destruct rest; simpl; eauto. Qed.

Lemma splitRuns_join seps id ids :
  Forall (fun id => id <> [] /\ Forall nonsep id) (id :: ids) ->
  seps <> [] -> Forall issep seps ->
  splitRuns isIdSeparator [] (join seps (id :: ids)) = id :: ids.
Proof.
  intros Hids Hne Hs. revert id Hids. induction ids as [|id2 ids IH]; intros id Hids.
  - apply Forall_cons in Hids as [[_ Hid] _]. simpl. by apply splitRuns_plain.
  - apply Forall_cons in Hids as [[_ Hid] Hrest].
    change (join seps (id :: id2 :: ids)) with (id ++ seps ++ join seps (id2 :: ids)).
    pose proof Hrest as Hrest'. apply Forall_cons in Hrest' as [[Hne2 Hid2] _].
    destruct id2 as [|x r]; [done|].
    destruct (join_head seps x r ids) as [t Ht]. rewrite Ht.
    apply Forall_cons in Hid2 as [Hx _].
    rewrite splitRuns_piece by done. rewrite <- Ht, IH by done. done.
Qed.

Lemma splitRuns_blank s :
  Forall issep s -> Forall (fun piece => piece = []) (splitRuns isIdSeparator [] s).
Proof.
  induction s as [|c r IH]; intros Hs; simpl; [by repeat constructor|].
  apply Forall_cons in Hs as [Hc Hs]. rewrite Hc.
  destruct r as [|c' r']; [by repeat constructor|].
  pose proof Hs as Hs'. apply Forall_cons in Hs' as [Hc' _]. rewrite Hc'. by apply IH.
Qed.

Lemma solid_join_head seps (x : N) r rest :
  isSpace x = false -> solid (join seps ((x :: r) :: rest)) <> [].
Proof.
  intros Hx. destruct (join_head seps x r rest) as [t ->].
  unfold solid. simpl. by rewrite Hx.
Qed.

Lemma trim_filter_ids (l : list jsstring) :
  Forall (fun id => id <> [] /\ Forall nonsep id) l ->
  List.filter (fun id => (0 <? length id)%nat) (map trim l) = l.
Proof.
  induction 1 as [|i l [Hi Hns] _ IH]; [done|].
  cbn [map List.filter].
  rewrite trim_nospace
    by (eapply Forall_impl; [exact Hns|]; intros c; apply nonsep_nospace).
  destruct i; [done|]. simpl. f_equal. exact IH.
Qed.

(** X2. [parseRootPageIds]: every id it returns is non-empty and free of
    commas (half and full width), line feeds and white space; a list of
    such ids written with any non-empty run of separators between them is
    read back unchanged, in order and with its repetitions; an input made
    of separators only gives no id. *)
Theorem parseRootPageIds_round_trip :
  (forall input id,
     id ∈ parseRootPageIds input ->
     id <> [] /\ Forall (fun c => isIdSeparator c = false) id)
  /\ (forall ids seps,
        Forall (fun id => id <> [] /\ Forall (fun c => isIdSeparator c = false) id) ids ->
        seps <> [] -> Forall (fun c => isIdSeparator c = true) seps ->
        parseRootPageIds (join seps ids) = ids)
  /\ (forall input,
        Forall (fun c => isIdSeparator c = true) input -> parseRootPageIds input = []).
Proof.
  split; [|split].
  - intros input id. unfold parseRootPageIds.
    destruct (negb _); [by intros ?%elem_of_nil|].
    intros [Hin Hlen]%list_elem_of_In%filter_In.
    apply in_map_iff in Hin as (piece & <- & Hpiece).
    split.
    + destruct (trim piece); [simpl in Hlen; done | done].
    + apply trim_Forall.
      pose proof (splitRuns_pieces input [] (Forall_nil_2 _)) as Hall.
      rewrite List.Forall_forall in Hall. by apply Hall.
  - intros ids seps Hids Hne Hs. destruct ids as [|id ids]; [reflexivity|].
    unfold parseRootPageIds.
    assert (Ht : truthy (trim (join seps (id :: ids))) = true).
    { pose proof Hids as Hids'. apply Forall_cons in Hids' as [[Hid Hns] _].
      destruct id as [|x r]; [done|]. apply Forall_cons in Hns as [Hx _].
      pose proof (solid_join_head seps x r ids (nonsep_nospace _ Hx)) as Hsolid.
      rewrite <- trim_solid in Hsolid. by destruct (trim _). }
    rewrite Ht. cbn [negb]. rewrite splitRuns_join by done.
    by apply trim_filter_ids.
  - intros input Hs. unfold parseRootPageIds. destruct (negb _); [done|].
    pose proof (splitRuns_blank input Hs) as Hb.
    induction Hb as [|p l -> _ IH]; [done|]. simpl. exact IH.
Qed.

End RootIds.

(** ** Maps in insertion order, and the batch without duplicates *)

Section Maps.
Context {V : Type}.
Implicit Types (m : list (jsstring * V)) (k : jsstring) (v : V).

Lemma mapSet_fresh k v m : k ∉ map fst m -> mapSet k v m = m ++ [(k, v)].
Proof.
  induction m as [|[k' v'] m IH]; simpl; intros Hk; [done|].
  rewrite bool_decide_eq_false_2 by set_solver. rewrite IH by set_solver. done.
Qed.

Lemma mapSet_keys k v m :
  map fst (mapSet k v m) = if bool_decide (k ∈ map fst m) then map fst m else map fst m ++ [k].
Proof.
  induction m as [|[k' v'] m IH]; simpl; [done|].
  destruct (decide (k' = k)) as [->|Hne].
  - rewrite !bool_decide_eq_true_2 by set_solver. done.
  - rewrite (bool_decide_eq_false_2 (k' = k)) by done. simpl. rewrite IH.
    destruct (decide (k ∈ map fst m)) as [Hin|Hin].
    + rewrite !bool_decide_eq_true_2 by set_solver. done.
    + rewrite !bool_decide_eq_false_2 by set_solver. done.
Qed.

Lemma mapSet_NoDup k v m : NoDup (map fst m) -> NoDup (map fst (mapSet k v m)).
Proof.
  intros Hnd. rewrite mapSet_keys. case_bool_decide; [done|].
  apply NoDup_app. split; [done|]. split; [|apply NoDup_singleton].
  intros x Hx ->%list_elem_of_singleton. done.
Qed.

Lemma mapSet_length k v m : length (mapSet k v m) <= S (length m).
Proof.
  induction m as [|[k' v'] m IH]; simpl; [lia|]. destruct (bool_decide _); simpl; lia.
Qed.

Lemma mapGet_elem_of k v m : NoDup (map fst m) -> (k, v) ∈ m <-> mapGet k m = Some v.
Proof.
  induction m as [|[k' v'] m IH]; simpl; intros Hnd.
  - split; [by intros ?%elem_of_nil | done].
  - apply NoDup_cons in Hnd as [Hk' Hnd]. destruct (decide (k' = k)) as [->|Hne].
    + rewrite bool_decide_eq_true_2 by done. split.
      * intros [[= ->]|Hin]%elem_of_cons; [done|].
        exfalso. apply Hk'. change k with (fst (k, v)). by apply (list_elem_of_fmap_2 fst).
      * intros [= ->]. by left.
    + rewrite bool_decide_eq_false_2 by done. rewrite <- IH by done. split.
      * intros [[= -> ->]|Hin]%elem_of_cons; done.
      * intros Hin. by right.
Qed.

Lemma mapGet_None k m : mapGet k m = None <-> k ∉ map fst m.
Proof.
  induction m as [|[k' v'] m IH]; simpl; [split; [intros _; apply not_elem_of_nil | done]|].
  destruct (decide (k' = k)) as [->|Hne].
  - rewrite bool_decide_eq_true_2 by done. split; [done | set_solver].
  - rewrite bool_decide_eq_false_2 by done. rewrite IH. set_solver.
Qed.

End Maps.

Section Inserted.
Context {A V : Type} (key : A -> jsstring) (val : A -> V).

Local Abbreviation inserted acc l :=
  (foldl (fun (m : list (jsstring * V)) x => mapSet (key x) (val x) m) acc l).

Lemma inserted_NoDup l : forall acc, NoDup (map fst acc) -> NoDup (map fst (inserted acc l)).
Proof.
  induction l as [|x l IH]; intros acc Hnd; simpl; [done|]. by apply IH, mapSet_NoDup.
Qed.

Lemma inserted_length l : forall acc, length (inserted acc l) <= length acc + length l.
Proof.
  induction l as [|x l IH]; intros acc; simpl; [lia|].
  etransitivity; [apply IH|]. pose proof (mapSet_length (key x) (val x) acc). lia.
Qed.

Lemma inserted_last l1 x l2 acc :
  key x ∉ map key l2 -> mapGet (key x) (inserted acc (l1 ++ x :: l2)) = Some (val x).
Proof.
  intros Hx. rewrite foldl_app. simpl.
  rewrite mapGet_fold_other by done. apply mapGet_mapSet_eq.
Qed.

Lemma inserted_found l : forall k v,
  mapGet k (inserted [] l) = Some v ->
  exists l1 x l2, l = l1 ++ x :: l2 /\ key x = k /\ val x = v /\ k ∉ map key l2.
Proof.
  induction l as [|x l IH] using rev_ind; intros k v Hk; [done|].
  rewrite foldl_app in Hk. simpl in Hk.
  destruct (decide (key x = k)) as [<-|Hne].
  - rewrite mapGet_mapSet_eq in Hk. injection Hk as <-.
    exists l, x, []. split; [done|]. split; [done|]. split; [done|]. apply not_elem_of_nil.
  - rewrite mapGet_mapSet_ne in Hk by done.
    destruct (IH k v Hk) as (l1 & y & l2 & -> & Hy & Hv & Hl2).
    exists l1, y, (l2 ++ [x]). rewrite <- app_assoc.
    split; [done|]. split; [done|]. split; [done|].
    rewrite map_app. simpl. set_solver.
Qed.

Lemma inserted_distinct l : forall acc,
  NoDup (map fst acc ++ map key l) ->
  inserted acc l = acc ++ map (fun x => (key x, val x)) l.
Proof.
  induction l as [|x l IH]; intros acc Hnd; simpl; [by rewrite app_nil_r|].
  apply NoDup_app in Hnd as (Hacc & Hdisj & Hl). simpl in Hl.
  apply NoDup_cons in Hl as [Hx Hl].
  rewrite mapSet_fresh by (intros Hin; apply (Hdisj _ Hin); simpl; by left).
  rewrite IH.
  - by rewrite <- app_assoc.
  - rewrite map_app. simpl. rewrite <- app_assoc. simpl.
    apply NoDup_app. split; [done|]. split; [|by apply NoDup_cons].
    intros y Hy. exact (Hdisj y Hy).
Qed.

Lemma inserted_keeps l : forall acc k, k ∈ map fst acc -> k ∈ map fst (inserted acc l).
Proof.
  induction l as [|x l IH]; intros acc k Hk; simpl; [done|].
  apply IH. rewrite mapSet_keys. case_bool_decide; [done|]. set_solver.
Qed.

Lemma inserted_has l : forall acc x, x ∈ l -> key x ∈ map fst (inserted acc l).
Proof.
  induction l as [|y l IH]; intros acc x Hx; [by apply elem_of_nil in Hx|].
  simpl. apply elem_of_cons in Hx as [->|Hx]; [|by apply IH].
  apply inserted_keeps. rewrite mapSet_keys. case_bool_decide; [done|]. set_solver.
Qed.

(** The keys do not depend on the values. *)
Lemma inserted_keys {V'} (val' : A -> V') l : forall acc (acc' : list (jsstring * V')),
  map fst acc = map fst acc' ->
  map fst (inserted acc l)
  = map fst (foldl (fun m x => mapSet (key x) (val' x) m) acc' l).
Proof.
  induction l as [|x l IH]; intros acc acc' Hk; simpl; [done|].
  apply IH. by rewrite !mapSet_keys, Hk.
Qed.

End Inserted.

Section Unique.
Import Api Service SyncService.

Lemma uniquePages_keyed pages :
  Forall (fun e => e.1 = Api.id e.2)
    (foldl (fun m (p : ConfluencePage) => mapSet (Api.id p) p m) [] pages).
Proof.
  apply Forall_forall. intros [k p] Hin.
  apply mapGet_elem_of in Hin; [|apply inserted_NoDup; constructor].
  apply (inserted_found Api.id (fun p => p)) in Hin as (l1 & x & l2 & _ & Hk & Hv & _).
  simpl. congruence.
Qed.

Lemma uniquePages_ids pages :
  map Api.id (uniquePages pages)
  = map fst (foldl (fun m (p : ConfluencePage) => mapSet (Api.id p) p m) [] pages).
Proof.
  unfold uniquePages. pose proof (uniquePages_keyed pages) as Hk.
  induction Hk as [|[k p] m Hkp _ IH]; simpl; [done|]. simpl in Hkp. by rewrite IH, Hkp.
Qed.

(** X3. The batch that [pullFromConfluence] hands to the workers has no
    two pages with the same id: of the pages of the two listings that carry
    an id, it keeps exactly the last one; it has every id that was listed; a
    listing without repeated ids is kept as it is, in its order. *)
Theorem uniquePages_last_wins (pages : list ConfluencePage) :
  NoDup (map Api.id (uniquePages pages))
  /\ (forall p, p ∈ uniquePages pages <->
        exists before after, pages = before ++ p :: after
                             /\ Api.id p ∉ map Api.id after)
  /\ (forall p, p ∈ pages -> Api.id p ∈ map Api.id (uniquePages pages))
  /\ length (uniquePages pages) <= length pages
  /\ (NoDup (map Api.id pages) -> uniquePages pages = pages).
Proof.
  assert (Hnd : NoDup (map fst (foldl (fun m (p : ConfluencePage) => mapSet (Api.id p) p m)
                                  [] pages)))
    by (apply inserted_NoDup; constructor).
  split; [by rewrite uniquePages_ids|]. split; [|split; [|split]].
  - intros p. unfold uniquePages. split.
    + intros (e & -> & Hin)%list_elem_of_fmap. destruct e as [k q].
      apply mapGet_elem_of in Hin; [|done].
      apply (inserted_found Api.id (fun p => p)) in Hin as (l1 & x & l2 & -> & Hk & Hv & Hl2).
      simpl in *. subst x. exists l1, l2. split; [done|]. by rewrite Hk.
    + intros (l1 & l2 & -> & Hl2).
      apply list_elem_of_fmap. exists (Api.id p, p). split; [done|].
      apply mapGet_elem_of; [done|].
      by apply (inserted_last Api.id (fun p => p)).
  - intros p Hp. rewrite uniquePages_ids.
    by apply (inserted_has Api.id (fun p => p)).
  - unfold uniquePages. rewrite length_map.
    etransitivity; [apply inserted_length|]. simpl. lia.
  - intros Hd. unfold uniquePages.
    rewrite (inserted_distinct Api.id (fun p => p)) by done.
    simpl. rewrite map_map. simpl. apply map_id.
Qed.

End Unique.

Section PathKeys.
Import Api Service SyncService.
Context {W : Type} `{Outside W}.
Context (settings : ConfluenceSyncSettings).

(** X4. The map of [calculatePagePaths] has exactly one entry for each id
    of the batch, in the order in which the ids first appear (the order of
    the batch without duplicates); the entry found under an id carries that
    id and the title of a page of the batch with that id.  So the lookup of
    a page of the batch never fails. *)
Theorem calculatePagePaths_keys (pages : list ConfluencePage) :
  map fst (calculatePagePaths settings pages) = map Api.id (uniquePages pages)
  /\ NoDup (map fst (calculatePagePaths settings pages))
  /\ (forall page, page ∈ pages ->
        exists info, mapGet (Api.id page) (calculatePagePaths settings pages) = Some info)
  /\ (forall k info,
        mapGet k (calculatePagePaths settings pages) = Some info ->
        pageId info = k
        /\ exists page, page ∈ pages /\ Api.id page = k /\ title info = Api.title page).
Proof.
  unfold calculatePagePaths.
  set (val := pathInfoOf settings _ _).
  assert (Hnd : NoDup (map fst (foldl (fun m page => mapSet (Api.id page) (val page) m)
                                  [] pages)))
    by (apply inserted_NoDup; constructor).
  split; [|split; [done|split]].
  - rewrite uniquePages_ids. by apply inserted_keys.
  - intros page Hpage.
    destruct (mapGet (Api.id page) _) as [info|] eqn:E; [by exists info|].
    apply mapGet_None in E. exfalso. apply E. by apply (inserted_has Api.id val).
  - intros k info Hk.
    apply (inserted_found Api.id val) in Hk as (l1 & page & l2 & -> & Hid & <- & _).
    assert (Hinfo : pageId (val page) = Api.id page /\ title (val page) = Api.title page).
    { unfold val, pathInfoOf. by destruct (bool_decide _). }
    destruct Hinfo as [Hp Ht]. split; [congruence|].
    exists page. split; [set_solver|]. done.
Qed.

End PathKeys.

(** ** Pagination against a server that serves slices of one list *)

Section FullListing.
Import Api Client.
Context {W : Type} `{Outside W}.
Context (rootIds : list jsstring) (lastSyncTime : option Z).
Context (served : list ConfluencePage) (serves : W -> Prop).

Hypothesis roots_given : rootIds <> [].

(** For the query of the client, the endpoint holds the pages [served]
    and answers a request at [start] with the next 25 of them. *)
Hypothesis slices :
  forall since start w,
    serves w -> (0 <= start)%Z ->
    exists w' r,
      searchContent rootIds since start pageLimit w = (w', Resolved r)
      /\ results r = take 25 (drop (Z.to_nat start) served)
      /\ size r = Z.of_nat (length (results r))
      /\ _totalSize r = Z.of_nat (length served)
      /\ serves w'.

Lemma fetchPages_slice start w :
  serves w -> (0 <= start)%Z ->
  exists w' r,
    fetchPagesByRootIds rootIds lastSyncTime start pageLimit w = (w', Ok r)
    /\ results r = take 25 (drop (Z.to_nat start) served)
    /\ size r = Z.of_nat (length (results r))
    /\ _totalSize r = Z.of_nat (length served)
    /\ serves w'.
Proof.
  intros Hw Hstart. unfold fetchPagesByRootIds. destruct rootIds as [|i rest]; [done|].
  set (since := match lastSyncTime with Some _ => _ | None => _ end).
  destruct (slices since start w Hw Hstart) as (w' & r & Hrun & Hr).
  exists w', r. unfold await. rewrite Hrun. simpl. done.
Qed.

Lemma fetchAll_loop_slices fuel : forall k w,
  serves w -> k < 40 -> 40 <= fuel + k ->
  exists w',
    fetchAll_loop fuel rootIds lastSyncTime (take (25 * k) served) (Z.of_nat (25 * k)) w
    = (w', Ok (take 1000 served))
    /\ serves w'.
Proof.
  induction fuel as [|fuel IH]; intros k w Hw Hk Hfuel; [lia|].
  cbn [fetchAll_loop]. unfold bind at 1.
  destruct (fetchPages_slice (Z.of_nat (25 * k)) w Hw) as (w' & r & -> & Hres & Hsize & Htotal & Hw');
    [lia|].
  rewrite Nat2Z.id in Hres.
  assert (Hall : take (25 * k) served ++ results r = take (25 * S k) served).
  { rewrite Hres, take_take_drop. f_equal. lia. }
  rewrite Hall.
  assert (Hlen : length (take (25 * S k) served) = Nat.min (25 * S k) (length served))
    by apply length_take.
  assert (Hrl : length (results r) = Nat.min 25 (length served - 25 * k)).
  { rewrite Hres, length_take, length_drop. done. }
  unfold maxPages. destruct (Nat.leb_spec 1000 (length (take (25 * S k) served))) as [Hmax|Hmax].
  { exists w'. split; [|done]. unfold ret. do 2 f_equal. f_equal. lia. }
  rewrite Hsize, Htotal. unfold pageLimit.
  destruct (Z.eqb_spec (Z.of_nat (length (results r))) 25) as [Hfull|Hshort]; cbn [andb].
  - destruct (Z.ltb_spec (Z.of_nat (length (take (25 * S k) served)))
                (Z.of_nat (length served))) as [Hmore|Hdone].
    + replace (Z.of_nat (25 * k) + 25)%Z with (Z.of_nat (25 * S k)) by lia.
      apply IH; [done | lia | lia].
    + exists w'. split; [|done]. unfold ret. do 2 f_equal.
      rewrite !take_ge by lia. done.
  - exists w'. split; [|done]. unfold ret. do 2 f_equal.
    rewrite !take_ge by lia. done.
Qed.

(** X5. Against an endpoint that holds a fixed list of pages for the
    query and answers each request with the next 25 of them,
    [fetchAllPagesByRootIds] returns the whole list, in order, when it has
    at most 1000 pages, and its first 1000 pages otherwise: what lies
    beyond the ceiling is left out without an error. *)
Theorem fetchAllPagesByRootIds_complete (fuel : nat) (w : W) :
  serves w -> 40 <= fuel ->
  exists w',
    fetchAllPagesByRootIds fuel rootIds lastSyncTime w = (w', Ok (take 1000 served))
    /\ serves w'
    /\ (length served <= 1000 -> take 1000 served = served).
Proof.
  intros Hw Hfuel. unfold fetchAllPagesByRootIds.
  destruct (fetchAll_loop_slices fuel 0 w Hw) as (w' & Hrun & Hw'); [lia | lia |].
  exists w'. split; [exact Hrun|]. split; [done|]. intros Hl. by apply take_ge.
Qed.

End FullListing.

(** ** The sync-state store: records written and read back *)

Section StoreRoundTrips.
Import State Manager.
Context {W : Type} `{Outside W}.
Implicit Types s : Store W.

(** A mutating operation writes the data, then saves: the data are
    written whatever the save callback does, and the operation comes
    back. *)
Lemma manager_write (f : PluginData -> PluginData) s :
  let out := bind (modify (set_data f)) (fun _ => save) s in
  data out.1 = f (data s) /\ result out.1 = result s /\ out.2 <> Diverge.
Proof.
  cbv [bind modify save getData gets call io await]. simpl.
  by destruct (saveCallback _ _) as [w' [[]|e]].
Qed.


(** X7. [updatePageStates] merges a batch of records into the store: a
    page of the batch reads back the record of the batch, whatever was
    recorded before; a page outside the batch keeps its record; so after
    the merge no page of the batch needs sync at the version recorded for
    it.  The watermark is untouched, and the merge is done even when the
    save callback rejects. *)
Theorem updatePageStates_merges (states : gmap jsstring PageSyncState) s :
  let s' := (updatePageStates states s).1 in
  (forall pageId record,
     states !! pageId = Some record ->
     getPageState (data s') pageId = Some record
     /\ needsSync (data s') pageId (version record) = false)
  /\ (forall pageId,
        states !! pageId = None ->
        getPageState (data s') pageId = getPageState (data s) pageId)
  /\ getLastGlobalSyncTime (data s') = getLastGlobalSyncTime (data s)
  /\ (forall pageId, pageId ∈ getAllSyncedPageIds (data s') <->
        pageId ∈ getAllSyncedPageIds (data s) \/ is_Some (states !! pageId)).
Proof.
  unfold updatePageStates. destruct (manager_write
    (fun d => {| syncState := states ∪ syncState d;
                 lastGlobalSyncTime := lastGlobalSyncTime d;
                 syncedRootIds := syncedRootIds d |}) s) as (Hd & _ & _).
  cbv zeta in *. rewrite Hd.
  unfold needsSync, getPageState, getLastGlobalSyncTime, getAllSyncedPageIds. simpl.
  split; [|split; [|split; [done|]]].
  - intros pageId record Hrec.
    rewrite (lookup_union_Some_l _ _ _ _ Hrec). split; [done|]. apply Z.ltb_irrefl.
  - intros pageId Hnone. by rewrite lookup_union_r.
  - intros pageId. rewrite !elem_of_elements, !elem_of_dom, lookup_union_is_Some. tauto.
Qed.



End StoreRoundTrips.

(** ** One page of the pass *)

Section OnePage.
Import Api Service SyncService.
Context {W : Type} `{Outside W}.
Context (settings : ConfluenceSyncSettings).
Implicit Types s : Store W.


Lemma triple_bind_gets_eq {A B} total (P : Store W -> Prop) (f : Store W -> A)
    (k : A -> M (Store W) B) (a : A) Q E :
  (forall s, P s -> f s = a) -> triple total P (k a) Q E ->
  triple total P (bind (gets f) k) Q E.
Proof. intros Hf Hk s Hs. unfold bind, gets. rewrite (Hf s Hs). by apply Hk. Qed.


(** X10. A page whose recorded version is not older than the listed one
    is skipped by [syncOnePage] without any effect on the outside world:
    no folder is created, no attachment is fetched, nothing is written and
    no record is staged; the page is counted as skipped and the progress
    counter advances. *)
Theorem syncOnePage_skips_up_to_date pathInfos (page : ConfluencePage) s info record :
  mapGet (Api.id page) pathInfos = Some info ->
  Manager.getPageState (data s) (Api.id page) = Some record ->
  (number (Api.version page) <= State.version record)%Z ->
  exists s',
    syncOnePage settings pathInfos page s = (s', Ok tt)
    /\ world s' = world s /\ data s' = data s /\ pendingStates s' = pendingStates s
    /\ completed s' = S (completed s)
    /\ result s' = addSkipped (result s).
Proof.
  intros Hinfo Hrec Hle.
  assert (Hn : Manager.needsSync (data s) (Api.id page) (number (Api.version page)) = false).
  { unfold Manager.needsSync. rewrite Hrec. by apply Z.ltb_ge. }
  unfold syncOnePage, try_finally, try_catch, syncOnePage_body. rewrite Hinfo.
  unfold bind, gets. rewrite Hn. cbn [negb]. unfold modify.
  eexists. split; [reflexivity|]. done.
Qed.







End OnePage.

(** ** The sync of a single page *)

Section SinglePage.
Import Api Service SyncService.
Context {W : Type} `{Outside W}.
Context (settings : ConfluenceSyncSettings).
Implicit Types s : Store W.

(** The body of the [try] of [syncSinglePage]: when it returns, the page
    was either skipped (no force, nothing to do) or written and recorded;
    when it throws, the result has no success flag and no error yet. *)
Lemma syncSinglePage_body_triple pageId existingFilePath force s0 :
  triple true (fun s => s = set_result (fun _ => emptyResult) s0)
    (page <- call (getPage pageId) ;;
     d <- gets data ;;
     if negb force && negb (Manager.needsSync d pageId (number (Api.version page)))
     then modify (set_result (fun r => setSuccess true (addSkipped r)))
     else
       ensureSyncFolders settings ;;;
       (if attachmentSize page is Some 0%Z then ret tt
        else
          n <- syncAttachments settings (Api.id page) (Api.title page) ;;
          modify (set_result (addAttachments n))) ;;;
       markdownContent <- Transform.processPageToMarkdown settings page ;;
       writeFile existingFilePath markdownContent ;;;
       modify (set_result addUpdated) ;;;
       now <- gets (fun s => dateNow (world s)) ;;
       Manager.updatePageState pageId
         {| State.pageId := Api.id page; State.localPath := existingFilePath;
            State.version := number (Api.version page); State.lastUpdated := now |} ;;;
       modify (set_result (setSuccess true)))
    (fun _ s =>
       exists page w1,
         getPage pageId (world s0) = (w1, Resolved page)
         /\ success (result s) = true /\ errors (result s) = []
         /\ pagesCreated (result s) = 0
         /\ ((force = false
              /\ Manager.needsSync (data s0) pageId (number (Api.version page)) = false
              /\ pagesSkipped (result s) = 1 /\ pagesUpdated (result s) = 0
              /\ data s = data s0)
             \/ (pagesSkipped (result s) = 0 /\ pagesUpdated (result s) = 1
                 /\ exists now,
                      State.syncState (data s)
                      = <[pageId :=
                            {| State.pageId := Api.id page;
                               State.localPath := existingFilePath;
                               State.version := number (Api.version page);
                               State.lastUpdated := now |}]>
                          (State.syncState (data s0)))))
    (fun _ s =>
       success (result s) = false /\ errors (result s) = []
       /\ pagesCreated (result s) = 0 /\ pagesSkipped (result s) = 0
       /\ pagesUpdated (result s) <= 1).
Proof.
  set (shape := fun (u : nat) (s : Store W) =>
                  data s = data s0 /\ success (result s) = false /\ errors (result s) = []
                  /\ pagesCreated (result s) = 0 /\ pagesSkipped (result s) = 0
                  /\ pagesUpdated (result s) = u).
  assert (Hshape : forall u s s', frame s s' -> shape u s -> shape u s').
  { intros u s s' (Hd & Hr & _) Hs. unfold shape. by rewrite Hd, Hr. }
  assert (HE : forall u (e : jsstring) s, u <= 1 -> shape u s ->
             success (result s) = false /\ errors (result s) = []
             /\ pagesCreated (result s) = 0 /\ pagesSkipped (result s) = 0
             /\ pagesUpdated (result s) <= 1).
  { intros u e s Hu (_ & ? & ? & ? & ? & ?). repeat split; try done. lia. }
  eapply triple_bind with
    (Q := fun page s => (exists w1, getPage pageId (world s0) = (w1, Resolved page))
                        /\ shape 0 s).
  { intros s ->. unfold call, io, await. cbn [world set_result].
    destruct (getPage pageId (world s0)) as [w1 [page|e]]; simpl.
    - split; [by eexists|]. by repeat split.
    - repeat split; (done || lia). }
  intros page.
  set (P := fun u s => (exists w1, getPage pageId (world s0) = (w1, Resolved page))
                       /\ shape u s).
  assert (HP : forall u s s', frame s s' -> P u s -> P u s').
  { intros u s s' Hf [Hg Hs]. split; [done|]. by eapply Hshape. }
  assert (HPE : forall u (e : jsstring) s, u <= 1 -> P u s ->
             success (result s) = false /\ errors (result s) = []
             /\ pagesCreated (result s) = 0 /\ pagesSkipped (result s) = 0
             /\ pagesUpdated (result s) <= 1).
  { intros u e s Hu [_ Hs]. by eapply HE. }
  change (triple true (P 0) _ _ _) || fold (P 0).
  apply triple_bind_gets_eq with (a := data s0); [by intros s (_ & ? & _)|].
  destruct (negb force && negb _) eqn:Hskip.
  { apply triple_modify_end. intros s ([w1 Hg] & Hd & Hs & He & Hc & Hk & Hu).
    apply andb_prop in Hskip as [Hf Hn].
    apply negb_true_iff in Hf, Hn.
    exists page, w1. cbn [result set_result success errors pagesCreated setSuccess addSkipped
                          pagesSkipped pagesUpdated data].
    repeat (split; [done|]). left. rewrite Hk, Hu. by repeat split. }
  apply triple_bind_worldOnly;
    [apply worldOnly_ensureSyncFolders | apply HP | intros e s Hs; apply (HPE _ e s) in Hs; [exact Hs | lia] | intros _].
  eapply triple_bind with (Q := fun _ => P 0).
  { destruct (attachmentSize page) as [[| |]|]; try (by apply triple_ret_end).
    all: apply triple_bind_worldOnly;
      [apply worldOnly_syncAttachments | apply HP | intros e s Hs; apply (HPE _ e s) in Hs; [exact Hs | lia] | intros n];
      apply triple_modify_end; intros s [Hg Hs]; split; [done|]; exact Hs. }
  intros _.
  apply triple_bind_worldOnly;
    [apply worldOnly_processPageToMarkdown | apply HP | intros e s Hs; apply (HPE _ e s) in Hs; [exact Hs | lia]
    | intros markdownContent].
  apply triple_bind_worldOnly;
    [apply worldOnly_writeFile | apply HP | intros e s Hs; apply (HPE _ e s) in Hs; [exact Hs | lia] | intros _].
  eapply triple_bind_modify with (P' := P 1).
  { intros s [Hg (Hd & Hs & He & Hc & Hk & Hu)]. split; [done|].
    unfold shape. cbn [result set_result data addUpdated success errors pagesCreated
                       pagesSkipped pagesUpdated]. rewrite Hu. by repeat split. }
  apply triple_bind_gets. intros now.
  eapply triple_bind with
    (Q := fun _ s =>
            P 1 (set_data (fun _ => data s0) s)
            /\ State.syncState (data s)
               = <[pageId := {| State.pageId := Api.id page;
                                State.localPath := existingFilePath;
                                State.version := number (Api.version page);
                                State.lastUpdated := now |}]> (State.syncState (data s0))).
  { intros s [Hg (Hd & Hs)]. unfold Manager.updatePageState.
    match goal with
    | |- context [modify (set_data ?f)] =>
        destruct (manager_write f s) as (Hdata & Hres & Hdiv)
    end.
    cbv zeta in Hdata, Hres, Hdiv.
    destruct (bind _ _ s) as [s' [[]|e|]]; simpl in Hdata, Hres, Hdiv; [| |done].
    - split.
      + split; [done|]. unfold shape. cbn [data set_data result]. by rewrite Hres.
      + by rewrite Hdata, Hd.
    - rewrite Hres. destruct Hs as (? & ? & ? & ? & ?). repeat split; try done. lia. }
  intros _. apply triple_modify_end.
  intros s [[[w1 Hg] (_ & Hs & He & Hc & Hk & Hu)] Hdata].
  cbn [data set_data result] in *.
  exists page, w1. cbn [result set_result success errors pagesCreated setSuccess
                        pagesSkipped pagesUpdated data].
  repeat (split; [done|]). right. repeat (split; [done|]). by exists now.
Qed.


Lemma syncSinglePage_run pageId existingFilePath force s :
  exists s' r,
    syncSinglePage settings pageId existingFilePath force s = (s', Ok r)
    /\ r = result s'
    /\ ((exists page w1,
           getPage pageId (world s) = (w1, Resolved page)
           /\ success r = true /\ errors r = [] /\ pagesCreated r = 0
           /\ ((force = false
                /\ Manager.needsSync (data s) pageId (number (Api.version page)) = false
                /\ pagesSkipped r = 1 /\ pagesUpdated r = 0 /\ data s' = data s)
               \/ (pagesSkipped r = 0 /\ pagesUpdated r = 1
                   /\ exists now,
                        State.syncState (data s')
                        = <[pageId :=
                              {| State.pageId := Api.id page;
                                 State.localPath := existingFilePath;
                                 State.version := number (Api.version page);
                                 State.lastUpdated := now |}]>
                            (State.syncState (data s)))))
        \/ (exists message,
              success r = false /\ errors r = [singleFailedMessage pageId message]
              /\ pagesCreated r = 0 /\ pagesSkipped r = 0 /\ pagesUpdated r <= 1)).
Proof.
  pose proof (syncSinglePage_body_triple pageId existingFilePath force s _ eq_refl) as Hb.
  unfold syncSinglePage. unfold bind at 1, modify at 1. unfold bind at 1, try_catch.
  match type of Hb with
  | match ?m ?x with _ => _ end => destruct (m x) as [s1 [[]|e|]]
  end; [| |done].
  - unfold gets. exists s1, (result s1). split; [done|]. split; [done|]. left. exact Hb.
  - unfold modify, gets. eexists _, _. split; [reflexivity|]. split; [done|]. right.
    exists e. cbn [result set_result success errors pagesCreated pagesSkipped pagesUpdated
                   pushError].
    destruct Hb as (? & -> & ? & ? & ?). done.
Qed.

(** X12. [syncSinglePage] never throws: it returns the result it has
    built.  The success flag is true exactly when the error list is empty;
    there is at most one error, no page is ever counted as created, at most
    one page is counted as updated or skipped, and exactly one when the
    sync succeeded; with [force] the page is never skipped. *)
Theorem syncSinglePage_result pageId existingFilePath (force : bool) s :
  exists s' r,
    syncSinglePage settings pageId existingFilePath force s = (s', Ok r)
    /\ r = result s'
    /\ (success r = true <-> errors r = [])
    /\ length (errors r) <= 1
    /\ pagesCreated r = 0
    /\ pagesUpdated r + pagesSkipped r <= 1
    /\ (success r = true -> pagesUpdated r + pagesSkipped r = 1)
    /\ (force = true -> pagesSkipped r = 0).
Proof.
  destruct (syncSinglePage_run pageId existingFilePath force s) as (s' & r & Hrun & Hr & Hc).
  exists s', r. split; [done|]. split; [done|].
  destruct Hc as [(page & w1 & _ & Hs & He & Hcr & Hc) | (e & Hs & He & Hcr & Hk & Hu)].
  - rewrite Hs, He.
    destruct Hc as [(Hf & _ & Hk & Hu & _) | (Hk & Hu & _)]; rewrite Hk, Hu; simpl;
      repeat split; try done; try lia. intros ->. done.
  - rewrite Hs, He, Hk. simpl. repeat split; try done; try lia.
Qed.


(** X14. Without [force], a page whose recorded version is not older than
    the fetched one is left alone by [syncSinglePage]: after the request
    for the page nothing is done to the outside world, the store keeps its
    data, and the result is a success with one page skipped. *)
Theorem syncSinglePage_up_to_date pageId existingFilePath s page w1 record :
  getPage pageId (world s) = (w1, Resolved page) ->
  Manager.getPageState (data s) pageId = Some record ->
  (number (Api.version page) <= State.version record)%Z ->
  exists s',
    syncSinglePage settings pageId existingFilePath false s
    = (s', Ok {| success := true; pagesCreated := 0; pagesUpdated := 0; pagesSkipped := 1;
                 attachmentsDownloaded := 0; errors := [] |})
    /\ world s' = w1 /\ data s' = data s.
Proof.
  intros Hg Hrec Hle.
  assert (Hn : Manager.needsSync (data s) pageId (number (Api.version page)) = false).
  { unfold Manager.needsSync. rewrite Hrec. by apply Z.ltb_ge. }
  unfold syncSinglePage, try_catch, bind, modify, call, io, await, gets.
  cbn [world set_result data]. rewrite Hg. cbn [settle set_world set_result data world].
  rewrite Hn.
  cbn [negb andb]. eexists. split; [reflexivity|]. done.
Qed.

End SinglePage.

(** ** The whole pass *)

Section WholePass.
Import Api Service SyncService.
Context {W : Type} `{Outside W}.
Context (settings : ConfluenceSyncSettings).
Implicit Types s : Store W.

(** X15. Without a root id in the settings, [pullFromConfluence] fails
    at once: it returns a result without success whose only error is the
    message about the missing root ids, and it has neither looked at the
    vault nor sent a request nor touched the sync state. *)
Theorem pullFromConfluence_without_roots fuel s :
  parseRootPageIds (rootPageIds settings) = [] ->
  exists s',
    pullFromConfluence settings fuel s
    = (s', Ok {| success := false; pagesCreated := 0; pagesUpdated := 0; pagesSkipped := 0;
                 attachmentsDownloaded := 0;
                 errors := [syncFailedMessage noRootsMessage] |})
    /\ world s' = world s /\ data s' = data s.
Proof.
  intros Hroots.
  unfold pullFromConfluence, pull_body, try_catch, bind, modify, gets, throw.
  rewrite Hroots. cbn [length Nat.eqb]. eexists. split; [reflexivity|]. done.
Qed.

Local Abbreviation ofPage :=
  (fun e : jsstring => forall message, e <> syncFailedMessage message).

Lemma pathFailed_ofPage pageId : ofPage (pathFailedMessage pageId).
Proof. intros message E. unfold pathFailedMessage, syncFailedMessage in E. simpl in E. done. Qed.

Lemma pageFailed_ofPage pageId pageTitle e : ofPage (pageFailedMessage pageId pageTitle e).
Proof.
  intros message E. unfold pageFailedMessage, syncFailedMessage in E. simpl in E.
  injection E as E. done.
Qed.

(** The errors that the body of the [try] of [syncOnePage] adds itself. *)
Lemma syncOnePage_body_errors pathInfos (page : ConfluencePage) s0 :
  triple true (fun s => s = s0) (syncOnePage_body settings pathInfos page)
    (fun _ s =>
       errors (result s) = errors (result s0)
       \/ errors (result s) = errors (result s0) ++ [pathFailedMessage (Api.id page)])
    (fun _ s => errors (result s) = errors (result s0)).
Proof.
  unfold syncOnePage_body.
  destruct (mapGet (Api.id page) pathInfos) as [pathInfo|].
  2: { apply triple_modify_end. intros s ->. by right. }
  set (P := fun s : Store W => errors (result s) = errors (result s0)).
  assert (HP : forall s s', frame s s' -> P s -> P s').
  { intros s s' (_ & Hr & _) Hs. unfold P. by rewrite Hr. }
  eapply triple_conseq with (P' := P) (Q' := fun _ => P) (E' := fun _ => P);
    [| by intros s -> | intros a s Hq; by left | intros e s Hq; exact Hq].
  apply triple_bind_gets. intros d.
  destruct (negb _); [by apply triple_modify_end|].
  apply triple_bind_worldOnly;
    [apply worldOnly_createFolderStructure | done | done | intros _].
  apply triple_bind_worldOnly; [| done | done | intros attachmentCount].
  { destruct (attachmentSize page) as [[| |]|];
      first [apply worldOnly_ret | apply worldOnly_syncAttachments]. }
  eapply triple_bind_modify with (P' := P); [done|].
  apply triple_bind_worldOnly;
    [apply worldOnly_processPageToMarkdown | done | done | intros markdownContent].
  apply triple_bind_worldOnly; [apply worldOnly_exists | done | done | intros isNewFile].
  apply triple_bind_worldOnly; [apply worldOnly_writeFile | done | done | intros _].
  eapply triple_bind_modify with (P' := P); [by intros s Hs; destruct isNewFile|].
  apply triple_bind_gets. intros now. by apply triple_modify_end.
Qed.

(** The errors that the workers add are errors of pages. *)
Lemma runWorkers_errors pathInfos queue : forall s,
  exists more,
    errors (result (runWorkers settings pathInfos queue s).1) = errors (result s) ++ more
    /\ Forall ofPage more.
Proof.
  induction queue as [|page queue IH]; intros s.
  { exists []. by rewrite app_nil_r. }
  unfold runWorkers in *. cbn [forEach]. unfold bind.
  pose proof (syncOnePage_body_errors pathInfos page s s eq_refl) as Hb.
  destruct (syncOnePage_run settings pathInfos page s) as (sa & Hrun & _ & _ & _ & Hres).
  rewrite Hrun.
  assert (Hone : exists more, errors (result sa) = errors (result s) ++ more
                              /\ Forall ofPage more).
  { destruct (syncOnePage_body settings pathInfos page s) as [sb [[]|e|]]; [| |done].
    - rewrite Hres. destruct Hb as [-> | ->].
      + exists []. by rewrite app_nil_r.
      + eexists. split; [done|]. constructor; [apply pathFailed_ofPage | done].
    - injection Hres as _ _ _ _ ->. cbn [errors pushError].
      eexists. split; [done|]. constructor; [apply pageFailed_ofPage | done]. }
  destruct Hone as (more1 & Hm1 & H1). destruct (IH sa) as (more2 & Hm2 & H2).
  exists (more1 ++ more2). rewrite Hm2, Hm1, app_assoc. split; [done|]. by apply Forall_app.
Qed.

(** The body of the [try] of [pullFromConfluence] changes the sync state
    only after it has processed a page, and every page that it has
    processed is counted or has an error of its own. *)
Lemma pull_body_data fuel s0 :
  triple false (fun s => data s = data s0 /\ result s = emptyResult)
    (pull_body settings fuel)
    (fun _ s =>
       pagesCreated (result s) + pagesUpdated (result s) + pagesSkipped (result s) = 0 ->
       Forall (fun e => exists message, e = syncFailedMessage message) (errors (result s)) ->
       data s = data s0 /\ attachmentsDownloaded (result s) = 0 /\ errors (result s) = [])
    (fun _ s =>
       pagesCreated (result s) + pagesUpdated (result s) + pagesSkipped (result s) = 0 ->
       Forall (fun e => exists message, e = syncFailedMessage message) (errors (result s)) ->
       data s = data s0 /\ attachmentsDownloaded (result s) = 0 /\ errors (result s) = []).
Proof.
  unfold pull_body.
  set (P := fun s : Store W => data s = data s0 /\ result s = emptyResult).
  assert (HP : forall s s', frame s s' -> P s -> P s').
  { intros s s' (Hd & Hr & _) [? ?]. unfold P. by rewrite Hd, Hr. }
  assert (HE : forall (e : jsstring) s, P s ->
             pagesCreated (result s) + pagesUpdated (result s) + pagesSkipped (result s) = 0 ->
             Forall (fun e => exists message, e = syncFailedMessage message)
               (errors (result s)) ->
             data s = data s0 /\ attachmentsDownloaded (result s) = 0
             /\ errors (result s) = []).
  { intros e s [Hd Hr] _ _. by rewrite Hr. }
  destruct (length (parseRootPageIds (rootPageIds settings)) =? 0).
  { intros s Hs. unfold throw. by apply (HE []). }
  apply triple_bind_worldOnly; [apply worldOnly_ensureSyncFolders | done | done | intros _].
  apply triple_bind_gets. intros d.
  apply triple_bind_keep; [| |done|intros pages].
  { intros s Hs. eapply HP; [|exact Hs]. by apply (listing_step false). }
  { intros s. by apply (listing_step false). }
  apply triple_bind_keep; [| |done|intros pages'].
  { intros s Hs. eapply HP; [|exact Hs]. by apply (listing_step false). }
  { intros s. by apply (listing_step false). }
  destruct (Nat.eqb_spec (length (uniquePages pages')) 0) as [Hnone|Hsome].
  { apply triple_modify_end. intros s [Hd Hr] _ _. cbn [data set_result result].
    by rewrite Hr. }
  intros s [Hd Hr]. unfold bind.
  destruct (runWorkers_errors (calculatePagePaths settings (uniquePages pages'))
              (uniquePages pages') s) as (more & Hmore & Hpages).
  destruct (runWorkers_run settings (calculatePagePaths settings (uniquePages pages'))
              (uniquePages pages') s) as (s1 & Hrun & _ & _ & Ha).
  rewrite Hrun in Hmore |- *. cbn [fst] in Hmore.
  rewrite Hr in Hmore. cbn [errors emptyResult app] in Hmore.
  assert (Hcontra : pagesCreated (result s1) + pagesUpdated (result s1)
                    + pagesSkipped (result s1) = 0 ->
                    Forall (fun e => exists message, e = syncFailedMessage message)
                      (errors (result s1)) -> False).
  { intros Hzero Hall. destruct Ha as (_ & Hacc & _). rewrite Hr in Hacc.
    unfold accounted in Hacc. simpl in Hacc. rewrite Hmore in Hacc, Hall.
    destruct more as [|e more]; [simpl in Hacc; lia|].
    apply Forall_cons in Hall as [[message He] _]. apply Forall_cons in Hpages as [Hp _].
    by apply (Hp message). }
  pose proof (persist_run
    (List.filter (fun id => negb (bool_decide (id ∈ Manager.getSyncedRootIds d)))
       (parseRootPageIds (rootPageIds settings))) s1) as Hp.
  destruct (persist _ s1) as [s2 [[]|e|]]; [| |done].
  - rewrite Hp. cbn [pagesCreated pagesUpdated pagesSkipped errors setSuccess].
    intros Hzero Hall. by destruct (Hcontra Hzero Hall).
  - rewrite Hp. intros Hzero Hall. by destruct (Hcontra Hzero Hall).
Qed.

(** X16. A pass whose result accounts for no page and has no error of a
    page (its error list is empty, or holds only the error of the pass
    itself) has left the sync state as it was: no record is written, the
    watermark is not advanced and no root is marked as synced, so that
    the next pass starts from the same state.  This is the case when
    nothing is listed, and when the pass fails before the first page (no
    root configured, a folder that cannot be created, a listing that
    fails). *)
Theorem pullFromConfluence_untouched_state fuel s s' r :
  pullFromConfluence settings fuel s = (s', Ok r) ->
  pagesCreated r + pagesUpdated r + pagesSkipped r = 0 ->
  Forall (fun e => exists message, e = syncFailedMessage message) (errors r) ->
  data s' = data s /\ attachmentsDownloaded r = 0 /\ length (errors r) <= 1
  /\ (success r = true <-> errors r = []).
Proof.
  unfold pullFromConfluence. unfold bind at 1, modify at 1.
  set (s0 := set_completed _ _).
  unfold bind at 1, try_catch.
  pose proof (pull_body_data fuel s0 s0 (conj eq_refl eq_refl)) as Hd.
  pose proof (pull_body_triple settings false fuel (fun E => False_ind _ (diff_false_true E)) s0
                (conj eq_refl eq_refl)) as Hs.
  destruct (pull_body settings fuel s0) as [s1 [[]|e|]]; [| |done].
  - unfold gets. intros [= <- <-] Hzero Hall.
    destruct (Hd Hzero Hall) as (Hdata & Hatt & Herr).
    split; [done|]. split; [done|]. split; [rewrite Herr; simpl; lia | done].
  - unfold modify, gets. intros [= <- <-].
    cbn [result set_result success pushError pagesCreated pagesUpdated pagesSkipped errors
         attachmentsDownloaded data].
    intros Hzero [Hall _]%Forall_app.
    destruct (Hd Hzero Hall) as (Hdata & Hatt & Herr).
    split; [done|]. split; [done|]. rewrite Herr, Hs. split; [simpl; lia|]. done.
Qed.

End WholePass.

(** ** Folders *)

Section Folders.
Import Api Service SyncService.
Context {W : Type} `{Outside W}.
Implicit Types s : Store W.

(** X17. [createFolderStructure]: when something exists at the path
    already, nothing is done at all; otherwise the folders are created
    level by level, a rejection of [createFolder] whose message contains
    [already exists] is passed over, and any other rejection is thrown on
    unchanged.  So the only errors that come out are rejections of
    [createFolder] that do not say [already exists]. *)
Theorem createFolderStructure_error_policy (folderPath : jsstring) s :
  (is_Some (getAbstractFileByPath folderPath (world s)) ->
   createFolderStructure folderPath s = (s, Ok tt))
  /\ match createFolderStructure folderPath s with
     | (_, Ok _) => True
     | (_, Throw message) =>
         includes (js "already exists") message = false
         /\ exists path w w', createFolder path w = (w', Rejected message)
     | (_, Diverge) => False
     end.
Proof.
  split.
  { intros [e He]. unfold createFolderStructure, exists_, bind, gets. by rewrite He. }
  assert (Ht : triple true (fun _ => True) (createFolderStructure folderPath)
                 (fun _ _ => True)
                 (fun message _ =>
                    includes (js "already exists") message = false
                    /\ exists path w w', createFolder path w = (w', Rejected message))).
  { unfold createFolderStructure, exists_. apply triple_bind_gets. intros folderThere.
    destruct folderThere; [by apply triple_ret_end|].
    generalize (splitChar 47 [] folderPath) as parts. generalize (@nil N) as currentPath.
    intros currentPath parts. revert currentPath.
    induction parts as [|part rest IH]; intros currentPath; [by apply triple_ret_end|].
    apply triple_bind_gets. intros folderExists.
    eapply triple_bind with (Q := fun _ _ => True); [|intros _; apply IH].
    destruct folderExists; [by apply triple_ret_end|].
    eapply triple_try_catch with
      (E' := fun message _ => exists path w w', createFolder path w = (w', Rejected message)).
    - intros s1 _. unfold call, io, await.
      destruct (createFolder _ (world s1)) as [w' [[]|message]] eqn:E; simpl; [done|].
      by eexists _, _, _.
    - intros message. destruct (includes (js "already exists") message) eqn:E; cbn [negb].
      + by apply triple_ret_end.
      + intros s1 Hs1. unfold throw. by split. }
  specialize (Ht s I). by destruct (createFolderStructure folderPath s) as [s' [[]|e|]].
Qed.

End Folders.

(** ** The issue key of a link *)

Section IssueKey.
Import Regex Transform.

Lemma search_chr (p : N -> bool) s : forall pre,
  match search (Chr p) pre s with
  | Some m =>
      exists a x, s = a ++ x :: after m /\ matched m = [x] /\ p x = true
                  /\ Forall (fun c => p c = false) a
  | None => Forall (fun c => p c = false) s
  end.
Proof.
  induction s as [|x r IH]; intros pre; [by constructor|].
  cbn [search]. unfold matchHere. rewrite run_Chr.
  destruct (p x) eqn:Ex.
  - exists [], x. cbn [after matched app]. split; [done|]. split; [|by split].
    replace (length (x :: r) - length r) with 1 by (simpl; lia). done.
  - specialize (IH (x :: pre)). destruct (search (Chr p) (x :: pre) r) as [m|].
    + destruct IH as (a & y & -> & Hm & Hy & Ha). exists (x :: a), y.
      split; [done|]. split; [done|]. split; [done|]. by constructor.
    + by constructor.
Qed.

Lemma filter_kept (p : N -> bool) a : Forall (fun c => p c = false) a ->
  List.filter (fun c => negb (p c)) a = a.
Proof. induction 1 as [|c a Hc _ IH]; simpl; [done|]. by rewrite Hc, IH. Qed.

Lemma replaceAll_chr (p : N -> bool) fuel : forall pre s,
  length s < fuel ->
  (replaceAll_go fuel (Chr p) (fun _ (_ : unit) => (tt, [])) pre s tt).2
  = List.filter (fun c => negb (p c)) s.
Proof.
  induction fuel as [|fuel IH]; intros pre s Hlen; [lia|].
  cbn [replaceAll_go]. pose proof (search_chr p s pre) as Hs.
  destruct (search (Chr p) pre s) as [m|]; [|by rewrite filter_kept].
  destruct Hs as (a & x & -> & Hm & Hx & Ha). rewrite Hm.
  rewrite length_app in Hlen |- *. cbn [length] in Hlen |- *.
  replace (length a + S (length (after m)) - 1 - length (after m)) with (length a) by lia.
  rewrite take_app_length.
  specialize (IH (rev [x] ++ rev (before m)) (after m)).
  destruct (replaceAll_go fuel (Chr p) _ _ (after m) tt) as [u out].
  cbn [snd] in IH |- *. rewrite IH by lia.
  rewrite List.filter_app. cbn [List.filter]. rewrite Hx. cbn [negb].
  by rewrite (filter_kept p a Ha).
Qed.

Lemma keyChar_range c :
  alnumI c || (c =? 45)%N = true ->
  (48 <= c <= 57 \/ 65 <= c <= 90 \/ 97 <= c <= 122 \/ c = 45)%N.
Proof.
  unfold alnumI, digit, canon. intros Hc.
  destruct (N.eqb_spec c 45) as [Heq|_]; [lia|]. rewrite orb_false_r in Hc.
  apply orb_prop in Hc as [Hc|Hc].
  - destruct ((97 <=? c)%N && (c <=? 122)%N) eqn:E.
    + apply andb_prop in E as [?%N.leb_le ?%N.leb_le]. lia.
    + apply andb_prop in Hc as [?%N.leb_le ?%N.leb_le]. lia.
  - apply andb_prop in Hc as [?%N.leb_le ?%N.leb_le]. lia.
Qed.

Lemma isSpace_outside c : (33 <= c <= 159)%N -> isSpace c = false.
Proof.
  intros Hc. unfold isSpace.
  repeat match goal with
         | |- context [(?a =? ?b)%N] =>
             replace (a =? b)%N with false by (symmetry; apply N.eqb_neq; lia)
         | |- context [(?a <=? ?b)%N] =>
             first [ replace (a <=? b)%N with false by (symmetry; apply N.leb_gt; lia)
                   | replace (a <=? b)%N with true by (symmetry; apply N.leb_le; lia) ]
         end.
  reflexivity.
Qed.

Lemma keyChar_safe c :
  alnumI c || (c =? 45)%N = true ->
  c <> 34%N /\ c <> 38%N /\ c <> 39%N /\ c <> 60%N /\ c <> 62%N /\ isSpace c = false.
Proof.
  intros Hc%keyChar_range.
  split; [lia|]. split; [lia|]. split; [lia|]. split; [lia|]. split; [lia|].
  apply isSpace_outside. lia.
Qed.

(** X18. In the link written for a Jira macro, the key is the extracted
    text restricted to ASCII letters, digits and hyphens: the replacement
    of [/[^A-Z0-9-]/gi] by nothing is a filter.  So neither the address
    nor the text of the link can hold a quote, an ampersand, an angle
    bracket or white space, whatever the macro contained. *)
Theorem jiraLink_key_is_filtered (key : jsstring) :
  let kept := List.filter (fun c => alnumI c || (c =? 45)%N) key in
  replaceAllWith notKeyChar (fun _ => []) key = kept
  /\ jiraLink key
     = js "<a href=" ++ dq ++ jiraBase ++ kept ++ dq ++ js ">" ++ kept ++ js "</a>"
  /\ Forall (fun c => c <> 34%N /\ c <> 38%N /\ c <> 39%N /\ c <> 60%N /\ c <> 62%N
                      /\ isSpace c = false) kept.
Proof.
  intros kept.
  assert (Hk : replaceAllWith notKeyChar (fun _ => []) key = kept).
  { unfold replaceAllWith, replaceAll, notKeyChar. rewrite replaceAll_chr by lia.
    unfold kept. induction key as [|c r IH]; simpl; [done|].
    rewrite negb_involutive. by rewrite IH. }
  split; [exact Hk|]. split; [unfold jiraLink; by rewrite Hk|].
  unfold kept. clear. induction key as [|c r IH]; simpl; [constructor|].
  destruct (alnumI c || (c =? 45)%N) eqn:E; [|exact IH].
  constructor; [|exact IH]. by apply keyChar_safe.
Qed.

End IssueKey.

(** ** CDATA sections and escaping *)

Section Cdata.
Import Regex Transform.

Lemma star_lazy_any {X} (k : jsstring -> captures -> option X) c x a : forall fuel b,
  length (a ++ b) < fuel ->
  (forall i, i < length a -> k (drop i (a ++ b)) c = None) ->
  k b c = Some x ->
  star_loop (fun s c k' => run (Chr anyChar) s c k') false k fuel (a ++ b) c = Some x.
Proof.
  induction a as [|y a IH]; intros fuel b Hlen Hnone Hb.
  - destruct fuel as [|fuel]; [simpl in Hlen; lia|]. cbn [star_loop app]. by rewrite Hb.
  - destruct fuel as [|fuel]; [simpl in Hlen; lia|].
    change ((y :: a) ++ b) with (y :: (a ++ b)) in *.
    cbn [star_loop]. pose proof (Hnone 0 ltac:(simpl; lia)) as H0. rewrite drop_0 in H0.
    rewrite H0. cbn [run]. unfold anyChar at 1.
    replace (length (a ++ b) <? length (y :: a ++ b)) with true
      by (symmetry; apply Nat.ltb_lt; simpl; lia).
    apply IH; [simpl in Hlen; lia | | done].
    intros i Hi. apply (Hnone (S i)). simpl. lia.
Qed.

Local Abbreviation closing := (js "]]>").

Lemma run_closing {X} s c (k : jsstring -> captures -> option X) :
  run (lit closing) s c k = if startsWith closing s then k (drop 3 s) c else None.
Proof.
  destruct s as [|x1 [|x2 [|x3 s]]]; cbn; unfold chr;
    repeat match goal with
           | |- context [(?a =? ?b)%N] => destruct (N.eqb_spec a b); subst; cbn
           end; try reflexivity; try congruence.
Qed.

Lemma includes_suffix p t i : includes p t = false -> startsWith p (drop i t) = false.
Proof.
  revert i. induction t as [|y t IH]; intros i Hp.
  - rewrite drop_nil. simpl in Hp. by apply orb_false_elim in Hp as [? _].
  - simpl in Hp. apply orb_false_elim in Hp as [H0 Hr].
    destruct i as [|i]; [exact H0 | by apply IH].
Qed.

Lemma closing_not_early t i :
  includes closing t = false -> i < length t ->
  startsWith closing (drop i (t ++ closing)) = false.
Proof.
  intros Hp Hi. rewrite drop_app_le by lia.
  pose proof (includes_suffix closing t i Hp) as Hs.
  assert (Hlen : 0 < length (drop i t)) by (rewrite length_drop; lia).
  destruct (drop i t) as [|x1 [|x2 [|x3 u]]]; [simpl in Hlen; lia | | |].
  - cbn. by destruct (93 =? x1)%N.
  - cbn. destruct (93 =? x1)%N, (93 =? x2)%N; done.
  - cbn in Hs |- *. exact Hs.
Qed.

Lemma run_opening {X} s c (k : jsstring -> captures -> option X) :
  run (litI (js "<![CDATA[")) (js "<![CDATA[" ++ s) c k = k s c.
Proof. reflexivity. Qed.

Lemma matchHere_cdata pre t :
  includes closing t = false ->
  exists m,
    matchHere cdataPattern pre (js "<![CDATA[" ++ t ++ closing) = Some m
    /\ before m = pre /\ matched m = js "<![CDATA[" ++ t ++ closing /\ after m = []
    /\ groups m 1 = Some t.
Proof.
  intros Hp. unfold matchHere, cdataPattern. cbn [seq].
  rewrite run_Cat, run_opening, run_Cat.
  cbn [run]. eexists. split.
  - apply star_lazy_any; [lia | | ].
    + intros i Hi. rewrite run_closing, closing_not_early by done. done.
    + rewrite run_closing. reflexivity.
  - cbn [before matched after groups]. split; [done|].
    split; [by rewrite Nat.sub_0_r, firstn_all|]. split; [done|].
    unfold capture. cbn [Nat.eqb]. f_equal.
    rewrite length_app.
    replace (length t + length closing - length closing) with (length t) by lia.
    apply take_app_length.
Qed.

Lemma search_no_lt r pre s :
  (forall x s' c (k : jsstring -> captures -> option match_result),
     x <> 60%N -> run r (x :: s') c k = None) ->
  (forall c (k : jsstring -> captures -> option match_result), run r [] c k = None) ->
  Forall (fun c => c <> 60%N) s -> search r pre s = None.
Proof.
  intros Hr Hnil Hs. revert pre. induction Hs as [|x s Hx _ IH]; intros pre.
  - cbn [search]. unfold matchHere. by rewrite Hnil.
  - cbn [search]. unfold matchHere. rewrite Hr by done. apply IH.
Qed.

Lemma run_litI_head {X} c0 rest x s' c (k : jsstring -> captures -> option X) :
  chrI c0 x = false -> run (litI (c0 :: rest)) (x :: s') c k = None.
Proof. intros Hx. unfold litI. destruct rest; cbn [map seq run]; by rewrite Hx. Qed.

Lemma search_here r pre s m : matchHere r (rev pre) s = Some m -> search r pre s = Some m.
Proof. intros Hm. destruct s; cbn [search]; by rewrite Hm. Qed.

(** X19. [unwrapCdata], the replacement of the CDATA pattern by its first
    group: a CDATA section around a text that does not contain the closing
    mark is replaced by that text, exactly; and a text without any [<] is
    returned unchanged. *)
Theorem unwrapCdata_section (text : jsstring) :
  (includes (js "]]>") text = false ->
   unwrapCdata (js "<![CDATA[" ++ text ++ js "]]>") = text)
  /\ (Forall (fun c => c <> 60%N) text -> unwrapCdata text = text).
Proof.
  split.
  - intros Hp. unfold unwrapCdata, replaceAllWith, replaceAll.
    cbn [replaceAll_go].
    destruct (matchHere_cdata (rev []) text Hp) as (m & Hsearch & Hb & Hm & Ha & Hg).
    rewrite (search_here _ _ _ _ Hsearch), Hm, Ha, Hg.
    rewrite Nat.sub_0_r, Nat.sub_diag.
    destruct (js "<![CDATA[" ++ text ++ closing) as [|x w] eqn:E; [by vm_compute in E|].
    cbn [length replaceAll_go search].
    match goal with
    | |- context [matchHere cdataPattern ?pre []] =>
        change (matchHere cdataPattern pre []) with (@None match_result)
    end.
    cbn. change (captureRef [Some text] (digitVal 49)) with (Some text).
    by rewrite !app_nil_r.
  - intros Ht. unfold unwrapCdata, replaceAllWith, replaceAll.
    cbn [replaceAll_go]. rewrite search_no_lt; [done | | | done].
    + intros x s' c k Hx. unfold cdataPattern. cbn [seq]. rewrite run_Cat.
      change (js "<![CDATA[") with (60%N :: js "![CDATA[").
      apply run_litI_head. unfold chrI. change (canon 60) with 60%N. unfold canon.
      destruct ((97 <=? x)%N && (x <=? 122)%N) eqn:E.
      * apply N.eqb_neq. apply andb_prop in E as [E1%N.leb_le E2%N.leb_le]. lia.
      * by apply N.eqb_neq.
    + intros c k. reflexivity.
Qed.

Lemma escapeChar_prefix x y (a b : jsstring) :
  escapeChar x ++ a = escapeChar y ++ b -> x = y /\ a = b.
Proof.
  unfold escapeChar.
  destruct (N.eqb_spec x 38) as [->|Hx1]; [|destruct (N.eqb_spec x 60) as [->|Hx2];
    [|destruct (N.eqb_spec x 62) as [->|Hx3]]];
  (destruct (N.eqb_spec y 38) as [->|Hy1]; [|destruct (N.eqb_spec y 60) as [->|Hy2];
    [|destruct (N.eqb_spec y 62) as [->|Hy3]]]);
  cbn; intros E; injection E; intros; subst; try done; try congruence.
Qed.

(** X20. The escaping of a code body loses nothing: two bodies with the
    same escaped text are the same body. *)
Theorem escapeHtml_injective (code code' : jsstring) :
  escapeHtml code = escapeHtml code' -> code = code'.
Proof.
  rewrite !escapeHtml_flat_map. revert code'.
  induction code as [|x r IH]; intros [|y r']; simpl.
  - done.
  - unfold escapeChar. destruct (y =? 38)%N, (y =? 60)%N, (y =? 62)%N; done.
  - unfold escapeChar. destruct (x =? 38)%N, (x =? 60)%N, (x =? 62)%N; done.
  - intros [-> E]%escapeChar_prefix. f_equal. by apply IH.
Qed.

End Cdata.

(** ** The fallback of the converter on plain text *)

Section Fallback.
Import Regex Html.
Context {W : Type} `{Outside W}.

Lemma withoutTags_sublist s : forall inTag, sublist (withoutTags inTag s) s.
Proof.
  induction s as [|x r IH]; intros inTag; cbn [withoutTags]; [constructor|].
  destruct inTag; [by constructor|].
  destruct ((x =? 60)%N && hasGt r); [by constructor | by constructor].
Qed.

Lemma withoutTags_plain s :
  Forall (fun c => c <> 60%N) s \/ hasGt s = false -> withoutTags false s = s.
Proof.
  induction s as [|x r IH]; intros Hs; cbn [withoutTags]; [done|].
  assert (Hr : Forall (fun c => c <> 60%N) r \/ hasGt r = false).
  { destruct Hs as [Hs|Hs]; [left; by apply Forall_cons in Hs as [_ ?]|right].
    unfold hasGt in *. cbn [existsb] in Hs. by apply orb_false_elim in Hs as [_ ?]. }
  replace ((x =? 60)%N && hasGt r) with false; [by rewrite IH|].
  symmetry. destruct Hs as [Hs|Hs].
  - apply Forall_cons in Hs as [Hx _]. apply andb_false_intro1. by apply N.eqb_neq.
  - apply andb_false_intro2. unfold hasGt in *. cbn [existsb] in Hs.
    by apply orb_false_elim in Hs as [_ ?].
Qed.

(** X21. When the structural converter fails, [convert] returns a text
    that is the input with characters left out and none added or
    reordered; an input without any [<], or without any [>], is returned
    as it is. *)
Theorem convert_fallback_plain_text (html message : jsstring) (s : Store W) :
  turndown html = Rejected message ->
  exists md,
    convert html s = (s, Ok md)
    /\ sublist md html
    /\ (Forall (fun c => c <> 60%N) html \/ Forall (fun c => c <> 62%N) html -> md = html).
Proof.
  intros Hfail. rewrite convert_eq, Hfail. eexists. split; [reflexivity|].
  rewrite stripTags_withoutTags. split; [apply withoutTags_sublist|].
  intros Hplain. apply withoutTags_plain. destruct Hplain as [Hlt|Hgt]; [by left|right].
  unfold hasGt. clear Hfail. induction Hgt as [|c r Hc _ IH]; [done|]. cbn [existsb].
  rewrite IH, orb_false_r. by apply N.eqb_neq.
Qed.

End Fallback.

(** ** The base address of the server *)

Section BaseUrl.
Import Url.

Lemma getCleanBaseUrl_slashes baseUrl :
  exists n, baseUrl = getCleanBaseUrl baseUrl ++ replicate n 47%N.
Proof.
  induction baseUrl as [|c r [n IH]]; [by exists 0|]. cbn [getCleanBaseUrl].
  destruct (getCleanBaseUrl r) as [|c' r'] eqn:E.
  - destruct (N.eqb_spec c 47) as [->|Hc].
    + exists (S n). simpl in *. by rewrite <- IH.
    + exists n. simpl in *. by rewrite <- IH.
  - exists n. simpl in *. by rewrite <- IH.
Qed.

Lemma getCleanBaseUrl_last baseUrl : last (getCleanBaseUrl baseUrl) <> Some 47%N.
Proof.
  induction baseUrl as [|c r IH]; [done|]. cbn [getCleanBaseUrl].
  destruct (getCleanBaseUrl r) as [|c' r'] eqn:E.
  - destruct (N.eqb_spec c 47) as [->|Hc]; [done|]. simpl. congruence.
  - exact IH.
Qed.

Lemma getCleanBaseUrl_fixed url : last url <> Some 47%N -> getCleanBaseUrl url = url.
Proof.
  induction url as [|c r IH]; [done|]. intros Hl. cbn [getCleanBaseUrl].
  destruct r as [|c' r'].
  - simpl in *. destruct (N.eqb_spec c 47) as [->|Hc]; done.
  - rewrite IH by exact Hl. done.
Qed.

(** X22. [getCleanBaseUrl] removes the slashes at the end of the
    configured address and nothing else: the address is the result followed
    by slashes only, the result does not end with a slash, an address that
    does not end with a slash is returned as it is, and cleaning twice is
    cleaning once.  So an endpoint appended after a slash never gives a
    double slash at the joint. *)
Theorem getCleanBaseUrl_strips_trailing_slashes (baseUrl : jsstring) :
  (exists n, baseUrl = getCleanBaseUrl baseUrl ++ replicate n 47%N)
  /\ last (getCleanBaseUrl baseUrl) <> Some 47%N
  /\ (last baseUrl <> Some 47%N -> getCleanBaseUrl baseUrl = baseUrl)
  /\ getCleanBaseUrl (getCleanBaseUrl baseUrl) = getCleanBaseUrl baseUrl.
Proof.
  split; [apply getCleanBaseUrl_slashes|]. split; [apply getCleanBaseUrl_last|].
  split; [apply getCleanBaseUrl_fixed|]. apply getCleanBaseUrl_fixed, getCleanBaseUrl_last.
Qed.

End BaseUrl.

(** ** The requests of the listing *)

Section Requests.
Import Api Client.
Context {W : Type} `{Outside W}.

Lemma fetchAll_loop_no_filter fuel rootIds (t : Z) : forall allPages start w,
  (t <= 0)%Z ->
  fetchAll_loop fuel rootIds (Some t) allPages start w
  = fetchAll_loop fuel rootIds None allPages start w.
Proof.
  induction fuel as [|fuel IH]; intros allPages start w Ht; [reflexivity|].
  cbn [fetchAll_loop]. unfold bind.
  assert (Hreq : fetchPagesByRootIds rootIds (Some t) start pageLimit w
                 = fetchPagesByRootIds rootIds None start pageLimit w).
  { unfold fetchPagesByRootIds. destruct rootIds; [done|].
    replace (0 <? t)%Z with false by (symmetry; apply Z.ltb_ge; lia). done. }
  rewrite Hreq. destruct (fetchPagesByRootIds rootIds None start pageLimit w) as [w' [r|e|]];
    [|done|done].
  destruct (maxPages <=? _); [done|]. destruct (_ && _); [by apply IH | done].
Qed.

(** X23. The listing of the client: for an empty list of roots no request
    is sent and the listing is empty; and a time stamp that is zero or
    negative, such as the zero with which the pass lists the roots it has
    never synced, sends the same requests as no time stamp at all, so that
    these roots are listed in full whatever the watermark is. *)
Theorem fetchAllPagesByRootIds_requests (fuel : nat) (rootIds : list jsstring) (w : W) :
  (forall lastSyncTime, 0 < fuel ->
     fetchAllPagesByRootIds fuel [] lastSyncTime w = (w, Ok []))
  /\ (forall t, (t <= 0)%Z ->
        fetchAllPagesByRootIds fuel rootIds (Some t) w
        = fetchAllPagesByRootIds fuel rootIds None w).
Proof.
  split.
  - intros lastSyncTime Hfuel. destruct fuel as [|fuel]; [lia|]. reflexivity.
  - intros t Ht. by apply fetchAll_loop_no_filter.
Qed.

End Requests.

(** ** Placeholders put back *)

Section Restore.
Import Transform.

Lemma replaceStr_go_absent p r s : forall pre,
  includes p s = false -> replaceStr_go p r pre s = rev pre ++ s.
Proof.
  induction s as [|x s IH]; intros pre Hp.
  - destruct p; [done|]. simpl. by rewrite app_nil_r.
  - cbn [includes] in Hp. apply orb_false_elim in Hp as [H0 Hr].
    cbn [replaceStr_go]. rewrite H0, IH by done. simpl. by rewrite <- app_assoc.
Qed.

Lemma startsWith_app p b : startsWith p (p ++ b) = true.
Proof. induction p as [|c p IH]; [by destruct b|]. simpl. by rewrite N.eqb_refl. Qed.

Lemma replaceStr_go_first p r a b : forall pre,
  (forall i, i < length a -> startsWith p (drop i (a ++ p ++ b)) = false) ->
  replaceStr_go p r pre (a ++ p ++ b)
  = rev pre ++ a ++ getSubstitution p (rev pre ++ a) b [] r ++ b.
Proof.
  induction a as [|x a IH]; intros pre Hearly.
  - cbn [app]. rewrite app_nil_r.
    destruct (p ++ b) as [|y t] eqn:E.
    + destruct p; [|done]. simpl in E. subst b. reflexivity.
    + cbn [replaceStr_go]. rewrite <- E, startsWith_app, drop_app_length. done.
  - change ((x :: a) ++ p ++ b) with (x :: (a ++ p ++ b)) in *.
    cbn [replaceStr_go]. pose proof (Hearly 0 ltac:(simpl; lia)) as H0.
    rewrite drop_0 in H0. rewrite H0, IH.
    + simpl. by rewrite <- !app_assoc.
    + intros i Hi. apply (Hearly (S i)). simpl. lia.
Qed.

Lemma getSubstitution_plain m bf af caps r :
  Forall (fun c => c <> 36%N) r -> getSubstitution m bf af caps r = r.
Proof.
  induction 1 as [|c r Hc _ IH]; [done|]. cbn [getSubstitution].
  replace (c =? 36)%N with false by (symmetry; by apply N.eqb_neq). cbn [negb].
  by rewrite IH.
Qed.

Lemma getSubstitution_dollars m bf af caps x y :
  Forall (fun c => c <> 36%N) x -> Forall (fun c => c <> 36%N) y ->
  getSubstitution m bf af caps (x ++ [36; 36]%N ++ y) = x ++ [36%N] ++ y.
Proof.
  intros Hx Hy. induction Hx as [|c x Hc _ IH].
  - cbn. by rewrite getSubstitution_plain.
  - cbn [app getSubstitution] in *.
    replace (c =? 36)%N with false by (symmetry; by apply N.eqb_neq). cbn [negb].
    by rewrite IH.
Qed.

Lemma token_early kind n a b i :
  Forall (fun c => c <> 37%N) a -> i < length a ->
  startsWith (token kind n) (drop i (a ++ token kind n ++ b)) = false.
Proof.
  intros Ha Hi. rewrite drop_app_le by lia.
  assert (Hd : Forall (fun c => c <> 37%N) (drop i a)) by (by apply Forall_drop).
  assert (Hlen : 0 < length (drop i a)) by (rewrite length_drop; lia).
  destruct (drop i a) as [|c r]; [simpl in Hlen; lia|].
  apply Forall_cons in Hd as [Hc _]. unfold token.
  change (js "%%" ++ kind ++ showNat n ++ js "%%")
    with (37%N :: (37%N :: kind ++ showNat n ++ js "%%")).
  cbn [app startsWith]. destruct (N.eqb_spec 37 c); [congruence | done].
Qed.

(** X24. The loops that put the placeholders back, one [replace] with a
    string pattern per entry.  A table none of whose placeholders occurs
    in the text leaves the text as it is: what the converter has dropped is
    not restored.  A placeholder that occurs after a text without percent
    sign is replaced by its value when the value has no dollar sign; but
    the value is read as a replacement template, so a value that contains
    two dollar signs in a row is put back with only one of them. *)
Theorem restore_placeholders :
  (forall wrap table markdownContent,
     Forall (fun entry => includes entry.1 markdownContent = false) table ->
     restore wrap table markdownContent = markdownContent)
  /\ (forall kind n value a b,
        Forall (fun c => c <> 37%N) a -> Forall (fun c => c <> 36%N) value ->
        restore (fun v => v) [(token kind n, value)] (a ++ token kind n ++ b)
        = a ++ value ++ b)
  /\ (forall kind n x y a b,
        Forall (fun c => c <> 37%N) a ->
        Forall (fun c => c <> 36%N) x -> Forall (fun c => c <> 36%N) y ->
        restore (fun v => v) [(token kind n, x ++ js "$$" ++ y)] (a ++ token kind n ++ b)
        = a ++ x ++ js "$" ++ y ++ b).
Proof.
  split; [|split].
  - intros wrap table md Htable. unfold restore.
    induction Htable as [|[p v] table Hp _ IH]; [done|]. cbn [foldl].
    unfold replaceStr. rewrite replaceStr_go_absent by exact Hp. exact IH.
  - intros kind n value a b Ha Hv. unfold restore, replaceStr. cbn [foldl].
    rewrite replaceStr_go_first by (intros i Hi; by apply token_early).
    cbn [rev app]. by rewrite getSubstitution_plain.
  - intros kind n x y a b Ha Hx Hy. unfold restore, replaceStr. cbn [foldl].
    rewrite replaceStr_go_first by (intros i Hi; by apply token_early).
    cbn [rev app]. change (js "$$") with [36; 36]%N. change (js "$") with [36%N].
    rewrite getSubstitution_dollars by done. by rewrite <- !app_assoc.
Qed.

End Restore.

(** ** The placeholder tables of the pre-scan *)

Section PlaceholderTables.
Import Regex Transform.

Lemma digits_inj d d' : digits d = digits d' -> d = d'.
Proof.
  revert d'. induction d; intros d'; destruct d'; simpl; intros E;
    try discriminate; try reflexivity; injection E as E; f_equal; by apply IHd.
Qed.

Lemma token_inj kind n n' : token kind n = token kind n' -> n = n'.
Proof.
  unfold token. intros E. apply app_inv_head, app_inv_head, app_inv_tail in E.
  by apply DecimalNat.Unsigned.to_uint_inj, digits_inj.
Qed.

Local Abbreviation issued kind table idx :=
  (map fst table = map (token kind) (List.seq 0 idx)).

Lemma issued_next {V} kind (table : list (jsstring * V)) idx v :
  issued kind table idx -> issued kind (mapSet (token kind idx) v table) (S idx).
Proof.
  intros Ht. rewrite mapSet_fresh.
  - rewrite map_app, Ht, seq_S, map_app. done.
  - rewrite Ht. intros (j & Hj%token_inj & Hin%list_elem_of_In%in_seq)%list_elem_of_fmap. lia.
Qed.

Local Abbreviation wellNumbered st :=
  (issued (js "CFLTBL") (tablePlaceholders st) (tablePlaceholderIdx st)
   /\ issued (js "CFLIMG") (imagePlaceholders st) (imgPlaceholderIdx st)
   /\ issued (js "CFLLNK") (linkPlaceholders st) (linkPlaceholderIdx st)
   /\ issued (js "CFLRAW") (rawPlaceholders st) (rawPlaceholderIdx st)).

Local Ltac fields :=
  cbn [fst tablePlaceholders tablePlaceholderIdx imagePlaceholders imgPlaceholderIdx
       linkPlaceholders linkPlaceholderIdx rawPlaceholders rawPlaceholderIdx].

Lemma newTable_wellNumbered html st : wellNumbered st -> wellNumbered (newTable html st).1.
Proof.
  intros (? & ? & ? & ?). unfold newTable. fields. split; [by apply issued_next | done].
Qed.

Lemma newImage_wellNumbered name st : wellNumbered st -> wellNumbered (newImage name st).1.
Proof.
  intros (? & ? & ? & ?). unfold newImage. fields.
  split; [done|]. split; [by apply issued_next | done].
Qed.

Lemma newLink_wellNumbered link st : wellNumbered st -> wellNumbered (newLink link st).1.
Proof.
  intros (? & ? & ? & ?). unfold newLink. fields. split; [done|]. split; [done|].
  split; [by apply issued_next | done].
Qed.

Lemma newRaw_wellNumbered md st : wellNumbered st -> wellNumbered (newRaw md st).1.
Proof.
  intros (? & ? & ? & ?). unfold newRaw. fields. split; [done|]. split; [done|].
  split; [done|]. by apply issued_next.
Qed.

Lemma macroCallback_wellNumbered safePageTitle m st :
  wellNumbered st -> wellNumbered (macroCallback safePageTitle m st).1.
Proof.
  intros Hst. unfold macroCallback.
  destruct (_ || _); [done|]. destruct (_ || _).
  { unfold diagramMacro. destruct (exec diagramPattern _) as [m0|]; [|done].
    destruct (truthy _); [|done].
    destruct (newImage _ st) as [st1 p1] eqn:E1.
    destruct (newImage _ st1) as [st2 p2] eqn:E2. cbn [fst].
    pose proof (newImage_wellNumbered
      (safePageTitle ++ js "_"
       ++ sanitizeFileName (if includes (js ".") (trim (group 1 m0)) then trim (group 1 m0)
                            else trim (group 1 m0) ++ js ".drawio")) st Hst) as H1.
    rewrite E1 in H1. cbn [fst] in H1.
    pose proof (newImage_wellNumbered
      (safePageTitle ++ js "_" ++ sanitizeFileName (trim (group 1 m0)) ++ js ".png")
      st1 H1) as H2.
    by rewrite E2 in H2. }
  destruct (bool_decide _); [done|]. destruct (_ || _); [|done].
  unfold markdownMacro. by apply newRaw_wellNumbered.
Qed.

Lemma replaceAll_go_keeps {St} (I : St -> Prop) r
    (callback : match_result -> St -> St * jsstring) :
  (forall m st, I st -> I (callback m st).1) ->
  forall fuel pre s st, I st -> I (replaceAll_go fuel r callback pre s st).1.
Proof.
  intros Hcb. induction fuel as [|fuel IH]; intros pre s st Hst; [done|].
  cbn [replaceAll_go]. destruct (search r pre s) as [m|]; [|done].
  pose proof (Hcb m st Hst) as Hst'. destruct (callback m st) as [st' replacement].
  cbn [fst] in Hst'.
  destruct (matched m) as [|y t], (after m) as [|x rest]; [done | | |].
  - specialize (IH (x :: rev (before m)) rest st' Hst').
    by destruct (replaceAll_go fuel r callback _ rest st').
  - specialize (IH (rev (y :: t) ++ rev (before m)) [] st' Hst').
    by destruct (replaceAll_go fuel r callback _ [] st').
  - specialize (IH (rev (y :: t) ++ rev (before m)) (x :: rest) st' Hst').
    by destruct (replaceAll_go fuel r callback _ (x :: rest) st').
Qed.

Lemma replaceAll_keeps {St} (I : St -> Prop) r
    (callback : match_result -> St -> St * jsstring) s st st' out :
  (forall m st, I st -> I (callback m st).1) ->
  replaceAll r callback s st = (st', out) -> I st -> I st'.
Proof.
  intros Hcb Hrun Hst.
  pose proof (replaceAll_go_keeps I r callback Hcb (S (length s)) [] s st Hst) as Hk.
  unfold replaceAll in Hrun. by rewrite Hrun in Hk.
Qed.

(** X25. The placeholders of the pre-scan are numbered without gaps and
    never reused: in each of the four tables, the keys are the
    placeholders numbered from zero to the counter of the table, in the
    order in which they were issued, so that they are pairwise distinct,
    no entry is ever overwritten, and each table has as many entries as
    its counter says. *)
Theorem preScan_placeholders_numbered (safePageTitle htmlContent : jsstring) :
  let st := (preScan safePageTitle htmlContent).1 in
  map fst (tablePlaceholders st) = map (token (js "CFLTBL")) (List.seq 0 (tablePlaceholderIdx st))
  /\ map fst (imagePlaceholders st) = map (token (js "CFLIMG")) (List.seq 0 (imgPlaceholderIdx st))
  /\ map fst (linkPlaceholders st) = map (token (js "CFLLNK")) (List.seq 0 (linkPlaceholderIdx st))
  /\ map fst (rawPlaceholders st) = map (token (js "CFLRAW")) (List.seq 0 (rawPlaceholderIdx st))
  /\ NoDup (map fst (tablePlaceholders st)) /\ NoDup (map fst (imagePlaceholders st))
  /\ NoDup (map fst (linkPlaceholders st)) /\ NoDup (map fst (rawPlaceholders st))
  /\ length (imagePlaceholders st) = imgPlaceholderIdx st.
Proof.
  assert (Hwf : wellNumbered (preScan safePageTitle htmlContent).1).
  { unfold preScan.
    destruct (replaceAll tablePattern _ htmlContent noPlaceholders) as [st1 h1] eqn:E1.
    destruct (replaceAll pageLinkPattern _ h1 st1) as [st2 h2] eqn:E2.
    destruct (replaceAll attachmentLinkPattern _ h2 st2) as [st3 h3] eqn:E3.
    destruct (replaceAll viewFilePattern _ h3 st3) as [st4 h4] eqn:E4.
    destruct (replaceAll imagePattern _ h4 st4) as [st5 h5] eqn:E5.
    destruct (replaceAll macroPattern _ h5 st5) as [st6 h6] eqn:E6. cbn [fst].
    assert (H0 : wellNumbered noPlaceholders) by (by repeat split).
    assert (H1 : wellNumbered st1).
    { eapply (replaceAll_keeps (fun st => wellNumbered st)); [|exact E1|exact H0].
      intros m st Hst. cbv beta.
      destruct (test _ _); [by apply newTable_wellNumbered | done]. }
    assert (H2 : wellNumbered st2).
    { eapply (replaceAll_keeps (fun st => wellNumbered st)); [|exact E2|exact H1].
      intros m st Hst. cbv beta. by apply newLink_wellNumbered. }
    assert (H3 : wellNumbered st3).
    { eapply (replaceAll_keeps (fun st => wellNumbered st)); [|exact E3|exact H2].
      intros m st Hst. by apply newImage_wellNumbered. }
    assert (H4 : wellNumbered st4).
    { eapply (replaceAll_keeps (fun st => wellNumbered st)); [|exact E4|exact H3].
      intros m st Hst. by apply newImage_wellNumbered. }
    assert (H5 : wellNumbered st5).
    { eapply (replaceAll_keeps (fun st => wellNumbered st)); [|exact E5|exact H4].
      intros m st Hst. by apply newImage_wellNumbered. }
    eapply (replaceAll_keeps (fun st => wellNumbered st)); [|exact E6|exact H5].
    intros m st Hst. by apply macroCallback_wellNumbered. }
  intros st. fold st in Hwf. destruct Hwf as (Ht & Hi & Hl & Hr).
  assert (Hnd : forall kind idx, NoDup (map (token kind) (List.seq 0 idx))).
  { intros kind idx. apply NoDup_fmap_2; [|apply NoDup_seq].
    intros n n'. apply token_inj. }
  repeat (split; [done|]). rewrite Ht, Hi, Hl, Hr. repeat (split; [apply Hnd|]).
  rewrite <- (length_map fst), Hi, length_map, length_seq. done.
Qed.

End PlaceholderTables.

(** ** The file of a diagram *)

Section DiagramFile.

Local Abbreviation nospace := (fun c : N => isSpace c = false).














End DiagramFile.

(** ** The theorems at concrete inputs *)



Lemma calculatePagePaths_layout_witness :
  exists child grand,
    mapGet (js "101") (@SyncService.calculatePagePaths _ (Sim.outside Resolved)
                         Sim.settings Sim.batch) = Some child
    /\ Service.folderPath child = js "Confluence/Child"
    /\ Service.filePath child = js "Confluence/Child/Child.md"
    /\ mapGet (js "102") (@SyncService.calculatePagePaths _ (Sim.outside Resolved)
                            Sim.settings Sim.batch) = Some grand
    /\ Service.folderPath grand = js "Confluence/Child"
    /\ Service.filePath grand = js "Confluence/Child/Grand.md".
Proof.
  assert (Hnd : NoDup (map Api.id Sim.batch)).
  { apply (bool_decide_unpack _). by vm_compute. }
  destruct (@calculatePagePaths_layout _ (Sim.outside Resolved) Sim.settings Sim.batch
              (Sim.page (js "101") (js "Child") 2 [Sim.ancestor (js "100") (js "Root")]
                 (js "<p>child</p>")) Hnd)
    as (child & Hchild & Hparent & _).
  { apply list_elem_of_lookup. by exists 1. }
  { apply (bool_decide_unpack _). by vm_compute. }
  destruct (@calculatePagePaths_layout _ (Sim.outside Resolved) Sim.settings Sim.batch
              (Sim.page (js "102") (js "Grand") 1
                 [Sim.ancestor (js "100") (js "Root"); Sim.ancestor (js "101") (js "Child")]
                 (js "<p>grandchild</p>")) Hnd)
    as (grand & Hgrand & _ & Hleaf).
  { apply list_elem_of_lookup. by exists 2. }
  { apply (bool_decide_unpack _). by vm_compute. }
  exists child, grand.
  destruct Hparent as [Hf1 Hp1].
  { exists (Sim.page (js "102") (js "Grand") 1
              [Sim.ancestor (js "100") (js "Root"); Sim.ancestor (js "101") (js "Child")]
              (js "<p>grandchild</p>")).
    split; [apply list_elem_of_lookup; by exists 2|]. split; [discriminate|].
    apply (bool_decide_unpack _). by vm_compute. }
  destruct Hleaf as [Hf2 Hp2].
  { intros (other & Hin & Hne & Hanc).
    apply list_elem_of_lookup in Hin as [i Hi].
    destruct i as [|[|[|i]]]; simpl in Hi; try discriminate;
      injection Hi as <-; first [by apply Hne | revert Hanc; apply (bool_decide_unpack _); by vm_compute]. }
  split; [exact Hchild|]. split; [exact Hf1|]. split; [rewrite Hp1, Hf1; reflexivity|].
  split; [exact Hgrand|]. split; [exact Hf2|]. exact Hp2.
Defined.

Lemma sim_listingWellFormed td : @Client.listingWellFormed _ (Sim.outside td).
Proof.
  intros rootIds since start w w' r. simpl. intros [= <- <-].
  split; simpl; [done|]. rewrite length_take. unfold Client.pageLimit. lia.
Defined.




Lemma convert_never_throws_witness :
  @Html.convert _ (Sim.outside Sim.failing) (js "<b>x</b> & 1 < 2") 
    (Sim.store Sim.empty State.DEFAULT_PLUGIN_DATA)
  = (Sim.store Sim.empty State.DEFAULT_PLUGIN_DATA, Ok (js "x & 1 < 2")).
Proof.
  destruct (@convert_never_throws _ (Sim.outside Sim.failing) (js "<b>x</b> & 1 < 2")
              (Sim.store Sim.empty State.DEFAULT_PLUGIN_DATA))
    as (md & Hrun & _ & Hfail & _).
  destruct (Hfail (js "no DOM") eq_refl) as (_ & Hmd & _).
  rewrite Hrun, Hmd. reflexivity.
Defined.

Lemma pullFromConfluence_isolates_failures_witness :
  exists s' r,
    @SyncService.pullFromConfluence _ (Sim.outside Resolved) Sim.settings 40
      (Sim.store Sim.batchWorld State.DEFAULT_PLUGIN_DATA) = (s', Ok r)
    /\ r = result s'
    /\ (Service.success r = true <-> Service.errors r = []).
Proof.
  destruct (@pullFromConfluence_isolates_failures _ (Sim.outside Resolved) Sim.settings)
    as (_ & _ & _ & _ & Htotal & _).
  apply Htotal; [apply sim_listingWellFormed | lia].
Defined.

(** ** The further properties at concrete inputs *)

Lemma parseRootPageIds_round_trip_witness :
  SyncService.parseRootPageIds (js "100, 200") = [js "100"; js "200"]
  /\ SyncService.parseRootPageIds (js " ,, ") = []
  /\ (js "7" <> [] /\ Forall (fun c => SyncService.isIdSeparator c = false) (js "7")).
Proof.
  destruct parseRootPageIds_round_trip as (Hclean & Hround & Hblank).
  split; [|split].
  - apply (Hround [js "100"; js "200"] (js ", ")).
    + repeat constructor; discriminate.
    + discriminate.
    + repeat constructor.
  - apply Hblank. repeat constructor.
  - apply (Hclean (js "7 8")). vm_compute. apply list_elem_of_here.
Defined.

Lemma uniquePages_last_wins_witness :
  SyncService.uniquePages Sim.batch = Sim.batch
  /\ Sim.page (js "100") (js "Newer") 4 [] (js "<p>new</p>")
     ∈ SyncService.uniquePages
         (Sim.batch ++ [Sim.page (js "100") (js "Newer") 4 [] (js "<p>new</p>")]).
Proof.
  split.
  - destruct (uniquePages_last_wins Sim.batch) as (_ & _ & _ & _ & Hsame).
    apply Hsame. refine (bool_decide_unpack _ _). by vm_compute.
  - destruct (uniquePages_last_wins
                (Sim.batch ++ [Sim.page (js "100") (js "Newer") 4 [] (js "<p>new</p>")]))
      as (_ & Hlast & _).
    apply Hlast. exists Sim.batch, []. split; [reflexivity|]. apply not_elem_of_nil.
Defined.

Lemma calculatePagePaths_keys_witness :
  exists info,
    mapGet (js "102")
      (@SyncService.calculatePagePaths _ (Sim.outside Resolved) Sim.settings Sim.batch)
    = Some info.
Proof.
  destruct (@calculatePagePaths_keys _ (Sim.outside Resolved) Sim.settings Sim.batch)
    as (_ & _ & Hhas & _).
  apply (Hhas (Sim.page (js "102") (js "Grand") 1
                 [Sim.ancestor (js "100") (js "Root"); Sim.ancestor (js "101") (js "Child")]
                 (js "<p>grandchild</p>"))).
  do 2 apply list_elem_of_further. apply list_elem_of_here.
Defined.

Lemma fetchAllPagesByRootIds_complete_witness :
  exists w',
    @Client.fetchAllPagesByRootIds _ (Sim.outside Resolved) 40 [js "100"] None
      {| Sim.entries := ∅; Sim.texts := ∅;
         Sim.server := replicate 60 (Sim.page (js "7") (js "P") 1 [] (js "<p>p</p>"));
         Sim.serverAttachments := ∅; Sim.unreadable := []; Sim.readOnly := [];
         Sim.saved := None; Sim.clock := 0 |}
    = (w', Ok (take 1000 (replicate 60 (Sim.page (js "7") (js "P") 1 [] (js "<p>p</p>")))))
    /\ Sim.server w' = replicate 60 (Sim.page (js "7") (js "P") 1 [] (js "<p>p</p>"))
    /\ (60 <= 1000 ->
        take 1000 (replicate 60 (Sim.page (js "7") (js "P") 1 [] (js "<p>p</p>")))
        = replicate 60 (Sim.page (js "7") (js "P") 1 [] (js "<p>p</p>"))).
Proof.
  apply (@fetchAllPagesByRootIds_complete _ (Sim.outside Resolved) [js "100"] None
           (replicate 60 (Sim.page (js "7") (js "P") 1 [] (js "<p>p</p>")))
           (fun w => Sim.server w
                     = replicate 60 (Sim.page (js "7") (js "P") 1 [] (js "<p>p</p>")))).
  - discriminate.
  - intros since start w Hw _. eexists _, _. split; [reflexivity|].
    cbn [Api.results Api.size Api._totalSize]. rewrite Hw.
    split; [reflexivity|]. split; [reflexivity|]. split; reflexivity.
  - reflexivity.
  - lia.
Defined.


Lemma updatePageStates_merges_witness :
  Manager.getPageState
    (data (@Manager.updatePageStates _ (Sim.outside Resolved)
             {[ js "101" := {| State.pageId := js "101"; State.localPath := js "C.md";
                               State.version := 9; State.lastUpdated := 5 |} ]}
             (Sim.store Sim.empty Sim.tracked)).1) (js "101")
  = Some {| State.pageId := js "101"; State.localPath := js "C.md";
            State.version := 9; State.lastUpdated := 5 |}
  /\ Manager.needsSync
       (data (@Manager.updatePageStates _ (Sim.outside Resolved)
                {[ js "101" := {| State.pageId := js "101"; State.localPath := js "C.md";
                                  State.version := 9; State.lastUpdated := 5 |} ]}
                (Sim.store Sim.empty Sim.tracked)).1) (js "101") 9
     = false.
Proof.
  destruct (@updatePageStates_merges _ (Sim.outside Resolved)
              {[ js "101" := {| State.pageId := js "101"; State.localPath := js "C.md";
                                State.version := 9; State.lastUpdated := 5 |} ]}
              (Sim.store Sim.empty Sim.tracked)) as (Hin & _).
  apply (Hin (js "101")). by vm_compute.
Defined.

Lemma syncOnePage_skips_up_to_date_witness :
  exists s',
    @SyncService.syncOnePage _ (Sim.outside Resolved) Sim.settings
      (@SyncService.calculatePagePaths _ (Sim.outside Resolved) Sim.settings Sim.batch)
      (Sim.page (js "101") (js "Child") 2 [Sim.ancestor (js "100") (js "Root")]
         (js "<p>child</p>"))
      (Sim.store Sim.batchWorld Sim.tracked)
    = (s', Ok tt)
    /\ world s' = Sim.batchWorld /\ data s' = Sim.tracked /\ pendingStates s' = ∅
    /\ completed s' = 1
    /\ result s' = SyncService.addSkipped Sim.emptyResult.
Proof.
  eapply (@syncOnePage_skips_up_to_date _ (Sim.outside Resolved) Sim.settings
            (@SyncService.calculatePagePaths _ (Sim.outside Resolved) Sim.settings Sim.batch)
            (Sim.page (js "101") (js "Child") 2 [Sim.ancestor (js "100") (js "Root")]
               (js "<p>child</p>"))
            (Sim.store Sim.batchWorld Sim.tracked)).
  - vm_compute. reflexivity.
  - vm_compute. reflexivity.
  - simpl. lia.
Defined.



Lemma syncSinglePage_up_to_date_witness :
  exists s',
    @SyncService.syncSinglePage _ (Sim.outside Resolved) Sim.settings (js "101")
      (js "Confluence/Child/Child.md") false (Sim.store Sim.batchWorld Sim.tracked)
    = (s', Ok {| Service.success := true; Service.pagesCreated := 0;
                 Service.pagesUpdated := 0; Service.pagesSkipped := 1;
                 Service.attachmentsDownloaded := 0; Service.errors := [] |})
    /\ world s' = Sim.batchWorld /\ data s' = Sim.tracked.
Proof.
  eapply (@syncSinglePage_up_to_date _ (Sim.outside Resolved) Sim.settings (js "101")
            (js "Confluence/Child/Child.md") (Sim.store Sim.batchWorld Sim.tracked)).
  - vm_compute. reflexivity.
  - vm_compute. reflexivity.
  - simpl. lia.
Defined.

Lemma pullFromConfluence_without_roots_witness :
  exists s',
    @SyncService.pullFromConfluence _ (Sim.outside Resolved)
      {| Service.confluenceBaseUrl := js "https://wiki.example.org";
         Service.syncFolder := js "Confluence"; Service.rootPageIds := js " , " |}
      40 (Sim.store Sim.batchWorld Sim.tracked)
    = (s', Ok {| Service.success := false; Service.pagesCreated := 0;
                 Service.pagesUpdated := 0; Service.pagesSkipped := 0;
                 Service.attachmentsDownloaded := 0;
                 Service.errors :=
                   [SyncService.syncFailedMessage SyncService.noRootsMessage] |})
    /\ world s' = Sim.batchWorld /\ data s' = Sim.tracked.
Proof.
  apply (@pullFromConfluence_without_roots _ (Sim.outside Resolved)
           {| Service.confluenceBaseUrl := js "https://wiki.example.org";
              Service.syncFolder := js "Confluence"; Service.rootPageIds := js " , " |}
           40 (Sim.store Sim.batchWorld Sim.tracked)).
  reflexivity.
Defined.

Lemma pullFromConfluence_untouched_state_witness :
  data (@SyncService.pullFromConfluence _ (Sim.outside Resolved) Sim.settings 40
          (Sim.store Sim.empty Sim.tracked)).1
  = Sim.tracked.
Proof.
  refine (proj1 (@pullFromConfluence_untouched_state _ (Sim.outside Resolved) Sim.settings 40
                   (Sim.store Sim.empty Sim.tracked) _ _ _ _ _)).
  - vm_compute. reflexivity.
  - reflexivity.
  - constructor.
Defined.

Lemma createFolderStructure_error_policy_witness :
  @SyncService.createFolderStructure _ (Sim.outside Resolved) (js "Confluence/Root")
    (Sim.store Sim.batchWorld Sim.tracked)
  = (Sim.store Sim.batchWorld Sim.tracked, Ok tt).
Proof.
  apply (proj1 (@createFolderStructure_error_policy _ (Sim.outside Resolved)
                  (js "Confluence/Root") (Sim.store Sim.batchWorld Sim.tracked))).
  vm_compute. by eexists.
Defined.

Lemma unwrapCdata_section_witness :
  Transform.unwrapCdata (js "<![CDATA[if (a[i]] > 0) x;]]>") = js "if (a[i]] > 0) x;"
  /\ Transform.unwrapCdata (js "plain text") = js "plain text".
Proof.
  split.
  - apply (proj1 (unwrapCdata_section (js "if (a[i]] > 0) x;"))). reflexivity.
  - apply (proj2 (unwrapCdata_section (js "plain text"))). repeat constructor; discriminate.
Defined.

Lemma escapeHtml_injective_witness : js "a<b" = js "a<b".
Proof. apply (escapeHtml_injective (js "a<b") (js "a<b")). reflexivity. Defined.

Lemma convert_fallback_plain_text_witness :
  exists md,
    @Html.convert _ (Sim.outside Sim.failing) (js "1 < 2") (Sim.store Sim.empty Sim.tracked)
    = (Sim.store Sim.empty Sim.tracked, Ok md)
    /\ sublist md (js "1 < 2")
    /\ (Forall (fun c => c <> 60%N) (js "1 < 2") \/ Forall (fun c => c <> 62%N) (js "1 < 2")
        -> md = js "1 < 2").
Proof.
  exact (@convert_fallback_plain_text _ (Sim.outside Sim.failing) (js "1 < 2") (js "no DOM")
           (Sim.store Sim.empty Sim.tracked) eq_refl).
Defined.

Lemma getCleanBaseUrl_strips_trailing_slashes_witness :
  Url.getCleanBaseUrl (js "https://wiki.example.org/confluence")
  = js "https://wiki.example.org/confluence".
Proof.
  destruct (getCleanBaseUrl_strips_trailing_slashes (js "https://wiki.example.org/confluence"))
    as (_ & _ & Hfixed & _).
  apply Hfixed. vm_compute. discriminate.
Defined.

Lemma fetchAllPagesByRootIds_requests_witness :
  @Client.fetchAllPagesByRootIds _ (Sim.outside Resolved) 40 [] (Some 5%Z) Sim.batchWorld
  = (Sim.batchWorld, Ok [])
  /\ @Client.fetchAllPagesByRootIds _ (Sim.outside Resolved) 40 [js "100"] (Some 0%Z)
       Sim.batchWorld
     = @Client.fetchAllPagesByRootIds _ (Sim.outside Resolved) 40 [js "100"] None
         Sim.batchWorld.
Proof.
  split.
  - apply (proj1 (@fetchAllPagesByRootIds_requests _ (Sim.outside Resolved) 40 []
                    Sim.batchWorld)).
    lia.
  - apply (proj2 (@fetchAllPagesByRootIds_requests _ (Sim.outside Resolved) 40 [js "100"]
                    Sim.batchWorld)).
    lia.
Defined.

Lemma restore_placeholders_witness :
  Transform.restore (fun v => v)
    [(Transform.token (js "CFLRAW") 0, js "a" ++ js "$$" ++ js "b")]
    (js "x " ++ Transform.token (js "CFLRAW") 0 ++ js " y")
  = js "x " ++ js "a" ++ js "$" ++ js "b" ++ js " y".
Proof.
  destruct restore_placeholders as (_ & _ & Hdollars).
  apply (Hdollars (js "CFLRAW") 0 (js "a") (js "b") (js "x ") (js " y"));
    repeat constructor; discriminate.
Defined.

